(** * The NVMe hotplug example (examples/nvme/hotplug/hotplug.c)

    A shallow embedding of the single-threaded polling engine: device
    descriptors, the registry [g_devs], the task pool, the submission and
    completion paths, the hotplug callbacks, the main loop and the
    argument parser.

    The NVMe driver, the DPDK mempool and libc are outside the file.  They
    are represented by a record of answers ([driver]) that the program
    consults call by call, and by a small driver state (the commands that
    were accepted and have not completed yet).  Diagnostics written with
    [printf] are left out, with the exception of the usage text that the
    argument parser prints. *)

From Stdlib Require Import ZArith List Bool Lia String Ascii Permutation.
Import ListNotations.
Open Scope Z_scope.

(** ** Machine integers *)

Definition wrap64 (x : Z) : Z := x mod 2 ^ 64.
Definition wrap32 (x : Z) : Z := x mod 2 ^ 32.

(** [int] values are kept as signed integers; [to_int] is the conversion of
    a [long] to [int] on an LP64 machine. *)
Definition to_int (x : Z) : Z := (x + 2 ^ 31) mod 2 ^ 32 - 2 ^ 31.

(** ** Data *)

(** [struct dev_ctx].  The [tailq] linkage is the position in [g_devs]; the
    [name] buffer only feeds diagnostics.  Pointers are integers, 0 is
    [NULL]. *)
Record dev_ctx := mk_dev {
  is_new : bool;
  is_removed : bool;
  is_draining : bool;
  ctrlr : Z;
  ns : Z;
  qpair : Z;
  io_size_blocks : Z;
  size_in_ios : Z;
  io_completed : Z;
  prev_io_completed : Z;
  current_queue_depth : Z;
  offset_in_ios : Z
}.

(** [struct perf_task] *)
Record perf_task := mk_task {
  dev : Z;
  buf : Z
}.

Definition g_io_size_bytes : Z := 4096.
Definition g_queue_depth : Z := 4.

(** A descriptor fresh from [calloc]: every field zero. *)
Definition dev_zero : dev_ctx :=
  mk_dev false false false 0 0 0 0 0 0 0 0 0.

Definition set_is_new (v : bool) (d : dev_ctx) : dev_ctx :=
  mk_dev v (is_removed d) (is_draining d) (ctrlr d) (ns d) (qpair d)
    (io_size_blocks d) (size_in_ios d) (io_completed d) (prev_io_completed d)
    (current_queue_depth d) (offset_in_ios d).
Definition set_is_removed (v : bool) (d : dev_ctx) : dev_ctx :=
  mk_dev (is_new d) v (is_draining d) (ctrlr d) (ns d) (qpair d)
    (io_size_blocks d) (size_in_ios d) (io_completed d) (prev_io_completed d)
    (current_queue_depth d) (offset_in_ios d).
Definition set_is_draining (v : bool) (d : dev_ctx) : dev_ctx :=
  mk_dev (is_new d) (is_removed d) v (ctrlr d) (ns d) (qpair d)
    (io_size_blocks d) (size_in_ios d) (io_completed d) (prev_io_completed d)
    (current_queue_depth d) (offset_in_ios d).
Definition set_ctrlr (v : Z) (d : dev_ctx) : dev_ctx :=
  mk_dev (is_new d) (is_removed d) (is_draining d) v (ns d) (qpair d)
    (io_size_blocks d) (size_in_ios d) (io_completed d) (prev_io_completed d)
    (current_queue_depth d) (offset_in_ios d).
Definition set_ns (v : Z) (d : dev_ctx) : dev_ctx :=
  mk_dev (is_new d) (is_removed d) (is_draining d) (ctrlr d) v (qpair d)
    (io_size_blocks d) (size_in_ios d) (io_completed d) (prev_io_completed d)
    (current_queue_depth d) (offset_in_ios d).
Definition set_qpair (v : Z) (d : dev_ctx) : dev_ctx :=
  mk_dev (is_new d) (is_removed d) (is_draining d) (ctrlr d) (ns d) v
    (io_size_blocks d) (size_in_ios d) (io_completed d) (prev_io_completed d)
    (current_queue_depth d) (offset_in_ios d).
Definition set_io_size_blocks (v : Z) (d : dev_ctx) : dev_ctx :=
  mk_dev (is_new d) (is_removed d) (is_draining d) (ctrlr d) (ns d) (qpair d)
    v (size_in_ios d) (io_completed d) (prev_io_completed d)
    (current_queue_depth d) (offset_in_ios d).
Definition set_size_in_ios (v : Z) (d : dev_ctx) : dev_ctx :=
  mk_dev (is_new d) (is_removed d) (is_draining d) (ctrlr d) (ns d) (qpair d)
    (io_size_blocks d) v (io_completed d) (prev_io_completed d)
    (current_queue_depth d) (offset_in_ios d).
Definition set_io_completed (v : Z) (d : dev_ctx) : dev_ctx :=
  mk_dev (is_new d) (is_removed d) (is_draining d) (ctrlr d) (ns d) (qpair d)
    (io_size_blocks d) (size_in_ios d) v (prev_io_completed d)
    (current_queue_depth d) (offset_in_ios d).
Definition set_prev_io_completed (v : Z) (d : dev_ctx) : dev_ctx :=
  mk_dev (is_new d) (is_removed d) (is_draining d) (ctrlr d) (ns d) (qpair d)
    (io_size_blocks d) (size_in_ios d) (io_completed d) v
    (current_queue_depth d) (offset_in_ios d).
Definition set_current_queue_depth (v : Z) (d : dev_ctx) : dev_ctx :=
  mk_dev (is_new d) (is_removed d) (is_draining d) (ctrlr d) (ns d) (qpair d)
    (io_size_blocks d) (size_in_ios d) (io_completed d) (prev_io_completed d)
    v (offset_in_ios d).
Definition set_offset_in_ios (v : Z) (d : dev_ctx) : dev_ctx :=
  mk_dev (is_new d) (is_removed d) (is_draining d) (ctrlr d) (ns d) (qpair d)
    (io_size_blocks d) (size_in_ios d) (io_completed d) (prev_io_completed d)
    (current_queue_depth d) v.

(** A read command as handed to [spdk_nvme_ns_cmd_read]; the callback is
    always [io_complete] and the context is the task. *)
Record read_cmd := mk_read {
  cmd_ns : Z;
  cmd_qpair : Z;
  cmd_task : perf_task;
  cmd_lba : Z;
  cmd_lba_count : Z
}.

(** What the driver answers about a controller it attaches: the handle,
    namespace 1 ([c_ns = 0] when [spdk_nvme_ctrlr_get_ns] yields [NULL]),
    its active flag, size in bytes and sector size, and the result of
    [spdk_nvme_ctrlr_alloc_io_qpair] (0 when it fails). *)
Record ctrlr_info := mk_ctrlr {
  c_handle : Z;
  c_ns : Z;
  c_ns_active : bool;
  c_ns_size : Z;
  c_ns_sector_size : Z;
  c_qpair : Z
}.

Inductive hotplug_event :=
| Attach (c : ctrlr_info)
| Remove (handle : Z).

(** The answers of the outside world, call by call. *)
Record driver := mk_driver {
  read_rc : nat -> Z;            (* n-th spdk_nvme_ns_cmd_read *)
  completions : nat -> nat;      (* completions ready at the n-th poll *)
  probe_events : nat -> list hotplug_event;  (* n-th spdk_nvme_probe *)
  probe_rc : nat -> Z;
  ticks : nat -> Z;              (* n-th spdk_get_ticks *)
  ticks_hz : Z;                  (* spdk_get_ticks_hz *)
  calloc_null : nat -> bool;     (* n-th calloc returns NULL *)
  eal_init_rc : Z;               (* rte_eal_init *)
  getopt_permutes : bool         (* getopt skips operands (GNU) or stops
                                    at the first one (POSIX) *)
}.

(** The program state together with the driver's.  [g_devs] holds the
    descriptors that are linked in the tail queue, each under its heap
    address, in queue order; [allocs] counts the [calloc] calls and [frees]
    lists the addresses given to [free].  [inflight] holds, per queue pair, the
    commands the driver accepted and has not completed.  [unregistered]
    records every descriptor [unregister_dev] released, as it was then;
    [stdout] collects what [usage] prints. *)
Record world := mk_world {
  g_devs : list (Z * dev_ctx);
  allocs : nat;
  frees : list Z;
  task_pool : list perf_task;
  g_tsc_rate : Z;
  g_time_in_sec : Z;
  inflight : list (Z * perf_task);
  reads : list read_cmd;
  polls : nat;
  probes : nat;
  tick_reads : nat;
  qpair_allocs : list Z;
  qpair_frees : list Z;
  detaches : list Z;
  unregistered : list (Z * dev_ctx);
  stdout : list string
}.

Definition set_g_devs (v : list (Z * dev_ctx)) (w : world) : world :=
  mk_world v (allocs w) (frees w) (task_pool w) (g_tsc_rate w)
    (g_time_in_sec w) (inflight w) (reads w) (polls w) (probes w)
    (tick_reads w) (qpair_allocs w) (qpair_frees w) (detaches w) (unregistered w) (stdout w).
Definition set_allocs (v : nat) (w : world) : world :=
  mk_world (g_devs w) v (frees w) (task_pool w) (g_tsc_rate w)
    (g_time_in_sec w) (inflight w) (reads w) (polls w) (probes w)
    (tick_reads w) (qpair_allocs w) (qpair_frees w) (detaches w) (unregistered w) (stdout w).
Definition set_frees (v : list Z) (w : world) : world :=
  mk_world (g_devs w) (allocs w) v (task_pool w) (g_tsc_rate w)
    (g_time_in_sec w) (inflight w) (reads w) (polls w) (probes w)
    (tick_reads w) (qpair_allocs w) (qpair_frees w) (detaches w) (unregistered w) (stdout w).
Definition set_task_pool (v : list perf_task) (w : world) : world :=
  mk_world (g_devs w) (allocs w) (frees w) v (g_tsc_rate w)
    (g_time_in_sec w) (inflight w) (reads w) (polls w) (probes w)
    (tick_reads w) (qpair_allocs w) (qpair_frees w) (detaches w) (unregistered w) (stdout w).
Definition set_g_tsc_rate (v : Z) (w : world) : world :=
  mk_world (g_devs w) (allocs w) (frees w) (task_pool w) v
    (g_time_in_sec w) (inflight w) (reads w) (polls w) (probes w)
    (tick_reads w) (qpair_allocs w) (qpair_frees w) (detaches w) (unregistered w) (stdout w).
Definition set_g_time_in_sec (v : Z) (w : world) : world :=
  mk_world (g_devs w) (allocs w) (frees w) (task_pool w) (g_tsc_rate w)
    v (inflight w) (reads w) (polls w) (probes w)
    (tick_reads w) (qpair_allocs w) (qpair_frees w) (detaches w) (unregistered w) (stdout w).
Definition set_inflight (v : list (Z * perf_task)) (w : world) : world :=
  mk_world (g_devs w) (allocs w) (frees w) (task_pool w) (g_tsc_rate w)
    (g_time_in_sec w) v (reads w) (polls w) (probes w)
    (tick_reads w) (qpair_allocs w) (qpair_frees w) (detaches w) (unregistered w) (stdout w).
Definition set_reads (v : list read_cmd) (w : world) : world :=
  mk_world (g_devs w) (allocs w) (frees w) (task_pool w) (g_tsc_rate w)
    (g_time_in_sec w) (inflight w) v (polls w) (probes w)
    (tick_reads w) (qpair_allocs w) (qpair_frees w) (detaches w) (unregistered w) (stdout w).
Definition set_polls (v : nat) (w : world) : world :=
  mk_world (g_devs w) (allocs w) (frees w) (task_pool w) (g_tsc_rate w)
    (g_time_in_sec w) (inflight w) (reads w) v (probes w)
    (tick_reads w) (qpair_allocs w) (qpair_frees w) (detaches w) (unregistered w) (stdout w).
Definition set_probes (v : nat) (w : world) : world :=
  mk_world (g_devs w) (allocs w) (frees w) (task_pool w) (g_tsc_rate w)
    (g_time_in_sec w) (inflight w) (reads w) (polls w) v
    (tick_reads w) (qpair_allocs w) (qpair_frees w) (detaches w) (unregistered w) (stdout w).
Definition set_tick_reads (v : nat) (w : world) : world :=
  mk_world (g_devs w) (allocs w) (frees w) (task_pool w) (g_tsc_rate w)
    (g_time_in_sec w) (inflight w) (reads w) (polls w) (probes w)
    v (qpair_allocs w) (qpair_frees w) (detaches w) (unregistered w) (stdout w).
Definition set_qpair_allocs (v : list Z) (w : world) : world :=
  mk_world (g_devs w) (allocs w) (frees w) (task_pool w) (g_tsc_rate w)
    (g_time_in_sec w) (inflight w) (reads w) (polls w) (probes w)
    (tick_reads w) v (qpair_frees w) (detaches w) (unregistered w) (stdout w).
Definition set_qpair_frees (v : list Z) (w : world) : world :=
  mk_world (g_devs w) (allocs w) (frees w) (task_pool w) (g_tsc_rate w)
    (g_time_in_sec w) (inflight w) (reads w) (polls w) (probes w)
    (tick_reads w) (qpair_allocs w) v (detaches w) (unregistered w) (stdout w).
Definition set_detaches (v : list Z) (w : world) : world :=
  mk_world (g_devs w) (allocs w) (frees w) (task_pool w) (g_tsc_rate w)
    (g_time_in_sec w) (inflight w) (reads w) (polls w) (probes w)
    (tick_reads w) (qpair_allocs w) (qpair_frees w) v (unregistered w) (stdout w).
Definition set_unregistered (v : list (Z * dev_ctx)) (w : world) : world :=
  mk_world (g_devs w) (allocs w) (frees w) (task_pool w) (g_tsc_rate w)
    (g_time_in_sec w) (inflight w) (reads w) (polls w) (probes w)
    (tick_reads w) (qpair_allocs w) (qpair_frees w) (detaches w) v (stdout w).
Definition set_stdout (v : list string) (w : world) : world :=
  mk_world (g_devs w) (allocs w) (frees w) (task_pool w) (g_tsc_rate w)
    (g_time_in_sec w) (inflight w) (reads w) (polls w) (probes w)
    (tick_reads w) (qpair_allocs w) (qpair_frees w) (detaches w) (unregistered w) v.

(** ** The registry as a list of heap objects *)

(** [p->field]: the descriptor at address [p], if it is linked. *)
Fixpoint find_dev (p : Z) (l : list (Z * dev_ctx)) : option dev_ctx :=
  match l with
  | [] => None
  | (a, d) :: l' => if a =? p then Some d else find_dev p l'
  end.

(** [*p = d] for a linked descriptor. *)
Fixpoint store_dev (p : Z) (d : dev_ctx) (l : list (Z * dev_ctx))
  : list (Z * dev_ctx) :=
  match l with
  | [] => []
  | (a, x) :: l' => if a =? p then (a, d) :: l' else (a, x) :: store_dev p d l'
  end.

(** [TAILQ_REMOVE] *)
Fixpoint remove_dev (p : Z) (l : list (Z * dev_ctx)) : list (Z * dev_ctx) :=
  match l with
  | [] => []
  | (a, x) :: l' => if a =? p then l' else (a, x) :: remove_dev p l'
  end.

(** The oldest command of queue pair [q] the driver still holds, and the
    rest. *)
Fixpoint take_inflight (q : Z) (l : list (Z * perf_task))
  : option (perf_task * list (Z * perf_task)) :=
  match l with
  | [] => None
  | (q', t) :: l' =>
      if q' =? q then Some (t, l')
      else match take_inflight q l' with
           | Some (t', r) => Some (t', (q', t) :: r)
           | None => None
           end
  end.

(** ** Outcomes and the state monad *)

(** A call returns ([Done]), ends the process with [exit] ([Exit]), steps
    outside defined behaviour ([Fault]: a descriptor that is not linked is
    dereferenced, or a division by zero), or is cut off by the bound put on
    its loops ([Fuel]). *)
Inductive result (A : Type) :=
| Done (a : A) (w : world)
| Exit (code : Z) (w : world)
| Fault
| Fuel.
Arguments Done {A} a w.
Arguments Exit {A} code w.
Arguments Fault {A}.
Arguments Fuel {A}.

Definition M (A : Type) : Type := world -> result A.

Definition ret {A} (a : A) : M A := fun w => Done a w.

Definition bind {A B} (m : M A) (f : A -> M B) : M B :=
  fun w =>
    match m w with
    | Done a w' => f a w'
    | Exit c w' => Exit c w'
    | Fault => Fault
    | Fuel => Fuel
    end.

Notation "x <- m ;; k" := (bind m (fun x => k))
  (at level 61, m at next level, right associativity).
Notation "m ;; k" := (bind m (fun _ => k))
  (at level 61, right associativity).

Definition exit {A} (code : Z) : M A := fun w => Exit code w.
Definition fault {A} : M A := fun _ => Fault.
Definition get : M world := fun w => Done w w.
Definition modify (f : world -> world) : M unit := fun w => Done tt (f w).

(** Run [body] on each element, in order. *)
Fixpoint foreach {A} (l : list A) (body : A -> M unit) : M unit :=
  match l with
  | [] => ret tt
  | x :: l' => body x ;; foreach l' body
  end.

(** [p->...] read and write of a linked descriptor. *)
Definition load (p : Z) : M dev_ctx :=
  fun w => match find_dev p (g_devs w) with
           | Some d => Done d w
           | None => Fault
           end.

Definition store (p : Z) (d : dev_ctx) : M unit :=
  modify (fun w => set_g_devs (store_dev p d (g_devs w)) w).

(** ** The task pool *)

Definition rte_mempool_get : M (option perf_task) :=
  fun w => match task_pool w with
           | [] => Done None w
           | t :: pool => Done (Some t) (set_task_pool pool w)
           end.

Definition rte_mempool_put (t : perf_task) : M unit :=
  modify (fun w => set_task_pool (t :: task_pool w) w).

(** Run [m] [n] times. *)
Fixpoint times (n : nat) (m : M unit) : M unit :=
  match n with
  | O => ret tt
  | S n' => m ;; times n' m
  end.

(** [TAILQ_FOREACH] visits the descriptors that are linked when the loop
    starts; no loop body of the program links a descriptor, and the only
    one a body unlinks is the one it is visiting. *)
Definition dev_ptrs : M (list Z) :=
  fun w => Done (map fst (g_devs w)) w.

(** The first descriptor of the queue whose controller is [handle] gets
    [is_removed = true]; [None] when there is none. *)
Fixpoint mark_removed (handle : Z) (l : list (Z * dev_ctx))
  : option (list (Z * dev_ctx)) :=
  match l with
  | [] => None
  | (a, d) :: l' =>
      if ctrlr d =? handle then Some ((a, set_is_removed true d) :: l')
      else match mark_removed handle l' with
           | Some r => Some ((a, d) :: r)
           | None => None
           end
  end.

(** ** libc: [atoi] and [getopt] *)

Definition isspace (c : ascii) : bool :=
  let n := nat_of_ascii c in
  (n =? 32)%nat || ((9 <=? n)%nat && (n <=? 13)%nat).

Definition digit_val (c : ascii) : option Z :=
  let n := nat_of_ascii c in
  if (48 <=? n)%nat && (n <=? 57)%nat then Some (Z.of_nat n - 48) else None.

Fixpoint skip_space (s : string) : string :=
  match s with
  | String c s' => if isspace c then skip_space s' else s
  | EmptyString => s
  end.

Fixpoint strtol_digits (s : string) (acc : Z) : Z :=
  match s with
  | String c s' =>
      match digit_val c with
      | Some v => strtol_digits s' (10 * acc + v)
      | None => acc
      end
  | EmptyString => acc
  end.

Definition LONG_MAX : Z := 2 ^ 63 - 1.
Definition LONG_MIN : Z := - 2 ^ 63.

(** [strtol(s, NULL, 10)]: blanks, an optional sign, the longest run of
    decimal digits (0 when there is none), clamped to [long]. *)
Definition strtol (s : string) : Z :=
  match skip_space s with
  | String "-"%char s' => Z.max (- strtol_digits s' 0) LONG_MIN
  | String "+"%char s' => Z.min (strtol_digits s' 0) LONG_MAX
  | s' => Z.min (strtol_digits s' 0) LONG_MAX
  end.

(** glibc: [atoi(s)] is [(int) strtol(s, NULL, 10)]. *)
Definition atoi (s : string) : Z := to_int (strtol s).

(** One call of [getopt(argc, argv, "t:")] on the arguments from [optind]
    on.  [GetoptOpt op optarg rest]: option [op] with its argument, [rest]
    is what follows; [GetoptErr]: the ['?'] answer (unknown option, or [-t]
    without argument); [GetoptEnd]: the [-1] answer. *)
Inductive getopt_ret :=
| GetoptOpt (op : ascii) (optarg : string) (rest : list string)
| GetoptErr
| GetoptEnd.

Fixpoint getopt (permute : bool) (args : list string) : getopt_ret :=
  match args with
  | [] => GetoptEnd
  | a :: rest =>
      match a with
      | String "-"%char (String c tail) =>
          if (c =? "-")%char && (tail =? EmptyString)%string then GetoptEnd
          else if (c =? "t")%char then
            if (tail =? EmptyString)%string then
              match rest with
              | [] => GetoptErr
              | optarg :: rest' => GetoptOpt c optarg rest'
              end
            else GetoptOpt c tail rest
          else GetoptErr
      | _ => if permute then getopt permute rest else GetoptEnd
      end
  end.

Definition newline : string := String (ascii_of_nat 10) EmptyString.
Definition tab : string := String (ascii_of_nat 9) EmptyString.

(** What [printf] writes for a [%s] argument; [None] is the null pointer,
    which the C standard leaves undefined and glibc writes as [(null)]. *)
Definition printf_s (s : option string) : string :=
  match s with
  | Some x => x
  | None => "(null)"%string
  end.

(** [rte_mempool_create("task_pool", n, ...)] with [task_ctor]: [n] tasks,
    each with a buffer of its own. *)
Definition rte_mempool_create (n : Z) : list perf_task :=
  map (fun i => mk_task 0 (Z.of_nat (S i))) (seq 0 (Z.to_nat n)).

Section Program.

Variable env : driver.

(** ** Driver and runtime calls *)

Definition spdk_get_ticks : M Z :=
  fun w => Done (wrap64 (ticks env (tick_reads w)))
                (set_tick_reads (S (tick_reads w)) w).

Definition spdk_nvme_ns_get_size (c : ctrlr_info) : Z :=
  wrap64 (c_ns_size c).

Definition spdk_nvme_ns_get_sector_size (c : ctrlr_info) : Z :=
  wrap32 (c_ns_sector_size c).

Definition spdk_nvme_ctrlr_alloc_io_qpair (c : ctrlr_info) : M Z :=
  fun w => Done (c_qpair c)
                (set_qpair_allocs (qpair_allocs w ++ [c_handle c]) w).

Definition spdk_nvme_ctrlr_free_io_qpair (q : Z) : M unit :=
  modify (fun w => set_qpair_frees (qpair_frees w ++ [q]) w).

Definition spdk_nvme_detach (handle : Z) : M unit :=
  modify (fun w => set_detaches (detaches w ++ [handle]) w).

(** The command is recorded; the driver keeps it until completion when it
    answers 0. *)
Definition spdk_nvme_ns_cmd_read (n q : Z) (task : perf_task)
    (lba lba_count : Z) : M Z :=
  fun w =>
    let rc := read_rc env (List.length (reads w)) in
    let w1 := set_reads (reads w ++ [mk_read n q task lba lba_count]) w in
    if rc =? 0 then Done rc (set_inflight (inflight w1 ++ [(q, task)]) w1)
    else Done rc w1.

(** Up to [n] completions of queue pair [q]: each takes the oldest
    outstanding command and calls back with its context. *)
Fixpoint deliver (cb : perf_task -> M unit) (q : Z) (n : nat) : M unit :=
  match n with
  | O => ret tt
  | S n' =>
      fun w =>
        match take_inflight q (inflight w) with
        | None => Done tt w
        | Some (t, rest) => (cb t ;; deliver cb q n') (set_inflight rest w)
        end
  end.

Definition spdk_nvme_qpair_process_completions
    (cb : perf_task -> M unit) (q : Z) : M unit :=
  fun w => deliver cb q (completions env (polls w)) (set_polls (S (polls w)) w).

(** ** The I/O engine *)

(** [offset_in_ios = dev->offset_in_ios++] and the wrap to 0 that follows:
    the descriptor afterwards (the local copy is the old cursor). *)
Definition advance_cursor (d : dev_ctx) : dev_ctx :=
  let d := set_offset_in_ios (wrap64 (offset_in_ios d + 1)) d in
  if offset_in_ios d =? size_in_ios d then set_offset_in_ios 0 d else d.

Definition submit_single_io (p : Z) : M unit :=
  r <- rte_mempool_get ;;
  match r with
  | None => exit 1
  | Some t =>
      let task := mk_task p (buf t) in
      d <- load p ;;
      let offset := offset_in_ios d in
      store p (advance_cursor d) ;;
      rc <- spdk_nvme_ns_cmd_read (ns d) (qpair d) task
              (wrap64 (offset * io_size_blocks d)) (io_size_blocks d) ;;
      if negb (rc =? 0) then rte_mempool_put task
      else
        d <- load p ;;
        store p (set_current_queue_depth
                   (wrap64 (current_queue_depth d + 1)) d)
  end.

Definition task_complete (task : perf_task) : M unit :=
  let p := dev task in
  d <- load p ;;
  store p (set_io_completed (wrap64 (io_completed d + 1))
             (set_current_queue_depth
                (wrap64 (current_queue_depth d - 1)) d)) ;;
  rte_mempool_put task ;;
  d <- load p ;;
  if negb (is_draining d) && negb (is_removed d)
  then submit_single_io p
  else ret tt.

Definition io_complete (ctx : perf_task) : M unit := task_complete ctx.

Definition check_io (p : Z) : M unit :=
  d <- load p ;;
  spdk_nvme_qpair_process_completions io_complete (qpair d).

(** [while (queue_depth-- > 0)] *)
Definition submit_io (p : Z) (queue_depth : Z) : M unit :=
  times (Z.to_nat queue_depth) (submit_single_io p).

(** [while (dev->current_queue_depth > 0) check_io(dev)], at most [fuel]
    polls. *)
Fixpoint drain_loop (fuel : nat) (p : Z) : M unit :=
  d <- load p ;;
  if 0 <? current_queue_depth d then
    match fuel with
    | O => fun _ => Fuel
    | S fuel' => check_io p ;; drain_loop fuel' p
    end
  else ret tt.

Definition drain_io (fuel : nat) (p : Z) : M unit :=
  d <- load p ;;
  store p (set_is_draining true d) ;;
  drain_loop fuel p.

Definition print_stats : M unit :=
  modify (fun w =>
    set_g_devs
      (map (fun e => (fst e, set_prev_io_completed (io_completed (snd e)) (snd e)))
           (g_devs w)) w).

(** ** Registration *)

Definition free (p : Z) : M unit :=
  modify (fun w => set_frees (frees w ++ [p]) w).

(** [calloc]: [NULL] when the outside says so, a fresh address otherwise.
    Addresses are handed out in increasing order and not reused, so a stale
    pointer never meets a newer descriptor. *)
Definition calloc : M (option Z) :=
  fun w =>
    let w' := set_allocs (S (allocs w)) w in
    if calloc_null env (allocs w) then Done None w'
    else Done (Some (Z.of_nat (S (allocs w)))) w'.

Definition register_dev (c : ctrlr_info) : M unit :=
  r <- calloc ;;
  match r with
  | None => exit 1
  | Some p =>
      let d := set_is_draining false
                 (set_is_removed false
                    (set_is_new true (set_ctrlr (c_handle c) dev_zero))) in
      let d := set_ns (c_ns c) d in
      if (ns d =? 0) || negb (c_ns_active c) then free p
      else if (spdk_nvme_ns_get_size c <? g_io_size_bytes)
              || (g_io_size_bytes <? spdk_nvme_ns_get_sector_size c)
      then free p
      else
        let d := set_size_in_ios (spdk_nvme_ns_get_size c / g_io_size_bytes) d in
        if spdk_nvme_ns_get_sector_size c =? 0 then fault
        else
          let d := set_io_size_blocks
                     (g_io_size_bytes / spdk_nvme_ns_get_sector_size c) d in
          q <- spdk_nvme_ctrlr_alloc_io_qpair c ;;
          let d := set_qpair q d in
          if qpair d =? 0 then free p
          else modify (fun w => set_g_devs (g_devs w ++ [(p, d)]) w)
  end.

Definition unregister_dev (p : Z) : M unit :=
  d <- load p ;;
  spdk_nvme_ctrlr_free_io_qpair (qpair d) ;;
  spdk_nvme_detach (ctrlr d) ;;
  modify (fun w =>
    set_unregistered (unregistered w ++ [(p, d)])
      (set_g_devs (remove_dev p (g_devs w)) w)) ;;
  free p.

(** ** Hotplug callbacks *)

Definition attach_cb (c : ctrlr_info) : M unit := register_dev c.

Definition remove_cb (handle : Z) : M unit :=
  fun w =>
    match mark_removed handle (g_devs w) with
    | Some l => Done tt (set_g_devs l w)
    | None => spdk_nvme_detach handle w
    end.

(** [probe_cb] only prints the address and accepts the controller. *)
Definition probe_cb (c : ctrlr_info) : bool := true.

(** The driver delivers its events in order: a controller it found goes to
    [attach] when [probe] accepts it, a controller that went away goes to
    [remove]. *)
Definition spdk_nvme_probe (probe : ctrlr_info -> bool)
    (attach : ctrlr_info -> M unit) (remove : Z -> M unit) : M Z :=
  fun w =>
    let n := probes w in
    (foreach (probe_events env n)
       (fun e => match e with
                 | Attach c => if probe c then attach c else ret tt
                 | Remove h => remove h
                 end) ;;
     ret (probe_rc env n)) (set_probes (S n) w).

(** ** The main loop *)

(** First loop of a pass, for one descriptor: the initial burst when it is
    new, then the poll. *)
Definition first_burst (p : Z) : M unit :=
  d <- load p ;;
  if is_new d then
    submit_io p g_queue_depth ;;
    d <- load p ;;
    store p (set_is_new false d)
  else ret tt.

Definition service_dev (p : Z) : M unit :=
  first_burst p ;;
  check_io p.

(** Removal sweep, for one descriptor. *)
Definition sweep_dev (p : Z) : M unit :=
  d <- load p ;;
  if is_removed d && (current_queue_depth d =? 0)
  then unregister_dev p
  else ret tt.

Fixpoint io_loop_passes (fuel : nat) (tsc_end next_stats_tsc : Z) : M unit :=
  match fuel with
  | O => fun _ => Fuel
  | S fuel' =>
      ps <- dev_ptrs ;;
      foreach ps service_dev ;;
      rc <- spdk_nvme_probe probe_cb attach_cb remove_cb ;;
      if negb (rc =? 0) then ret tt
      else
        ps <- dev_ptrs ;;
        foreach ps sweep_dev ;;
        now <- spdk_get_ticks ;;
        if tsc_end <? now then ret tt
        else if next_stats_tsc <? now then
          print_stats ;;
          w <- get ;;
          io_loop_passes fuel' tsc_end (wrap64 (next_stats_tsc + g_tsc_rate w))
        else io_loop_passes fuel' tsc_end next_stats_tsc
  end.

(** The loop after the main loop: drain and unregister what is left. *)
Definition io_loop_shutdown (fuel : nat) : M unit :=
  ps <- dev_ptrs ;;
  foreach ps (fun p => drain_io fuel p ;; unregister_dev p).

Definition io_loop (fuel : nat) : M Z :=
  t0 <- spdk_get_ticks ;;
  w <- get ;;
  let tsc_end := wrap64 (t0 + wrap64 (g_time_in_sec w * g_tsc_rate w)) in
  next_stats_tsc <- spdk_get_ticks ;;
  io_loop_passes fuel tsc_end next_stats_tsc ;;
  io_loop_shutdown fuel ;;
  ret 0.

Definition register_controllers : M Z :=
  rc <- spdk_nvme_probe probe_cb attach_cb remove_cb ;;
  if negb (rc =? 0) then ret 1 else ret 0.

(** ** Arguments and [main] *)

Definition usage (program_name : option string) : M unit :=
  modify (fun w =>
    set_stdout (stdout w ++ [(printf_s program_name ++ " options")%string;
                             newline;
                             (tab ++ "[-t time in seconds]" ++ newline)%string]) w).

(** The [while ((op = getopt(...)) != -1)] loop; [true] when the [default]
    case returned from [parse_args].  [fuel] bounds the number of options. *)
Fixpoint getopt_loop (fuel : nat) (argv0 : option string)
    (args : list string)
  : M bool :=
  match getopt (getopt_permutes env) args with
  | GetoptEnd => ret false
  | GetoptErr => usage argv0 ;; ret true
  | GetoptOpt op optarg rest =>
      if (op =? "t")%char then
        modify (set_g_time_in_sec (atoi optarg)) ;;
        match fuel with
        | O => fun _ => Fuel
        | S fuel' => getopt_loop fuel' argv0 rest
        end
      else usage argv0 ;; ret true
  end.

(** [argv] holds the [argc] arguments; [argv[0]] is the null pointer that
    ends the vector when there is none.  The final [optind = 1] has no
    effect on what follows and is left out. *)
Definition parse_args (argv : list string) : M Z :=
  let argv0 := hd_error argv in
  modify (set_g_time_in_sec 0) ;;
  returned <- getopt_loop (List.length argv) argv0 (tl argv) ;;
  if returned then ret 1
  else
    w <- get ;;
    if g_time_in_sec w =? 0 then usage argv0 ;; ret 1
    else ret 0.

Definition main (fuel : nat) (argv : list string) : M Z :=
  rc <- parse_args argv ;;
  if negb (rc =? 0) then ret rc
  else if eal_init_rc env <? 0 then ret 1
  else
    modify (set_task_pool (rte_mempool_create 8192)) ;;
    modify (set_g_tsc_rate (wrap64 (ticks_hz env))) ;;
    rc <- register_controllers ;;
    if negb (rc =? 0) then ret 1
    else
      rc <- io_loop fuel ;;
      ret rc.

End Program.

(** * States after a call, invariants and sample runs *)

(** The state [submit_single_io p] leaves when the pool is not empty, [d]
    is the descriptor at [p] and the read command answered [rc]. *)
Definition submit_world (rc : Z) (p : Z) (d : dev_ctx) (w : world) : world :=
  let task := mk_task p (buf (hd (mk_task 0 0) (task_pool w))) in
  let d1 := advance_cursor d in
  let cmd := mk_read (ns d) (qpair d) task
               (wrap64 (offset_in_ios d * io_size_blocks d)) (io_size_blocks d) in
  if rc =? 0 then
    set_g_devs (store_dev p (set_current_queue_depth
                               (wrap64 (current_queue_depth d1 + 1)) d1)
                  (g_devs w))
      (set_inflight (inflight w ++ [(qpair d, task)])
         (set_reads (reads w ++ [cmd]) (set_task_pool (tl (task_pool w)) w)))
  else
    set_g_devs (store_dev p d1 (g_devs w))
      (set_reads (reads w ++ [cmd])
         (set_task_pool (task :: tl (task_pool w)) w)).

(** The descriptor and the state after the bookkeeping of [task_complete],
    before it decides on a new submission. *)
Definition completed_dev (d : dev_ctx) : dev_ctx :=
  set_io_completed (wrap64 (io_completed d + 1))
    (set_current_queue_depth (wrap64 (current_queue_depth d - 1)) d).

Definition complete_world (task : perf_task) (d : dev_ctx) (w : world) : world :=
  set_task_pool (task :: task_pool w)
    (set_g_devs (store_dev (dev task) (completed_dev d) (g_devs w)) w).

(** [task_complete] submits again for this descriptor. *)
Definition resubmits (d : dev_ctx) : bool :=
  negb (is_draining d) && negb (is_removed d).

(** ** Sample drivers and states *)

(** Every read is accepted, every poll has one completion, nothing is
    plugged or unplugged. *)
Definition env_quiet : driver :=
  mk_driver (fun _ => 0) (fun _ => 1%nat) (fun _ => []) (fun _ => 0)
    (fun n => Z.of_nat n) 1 (fun _ => false) 0 true.

(** The same, but every read is refused with [-ENOMEM]. *)
Definition env_refusing : driver :=
  mk_driver (fun _ => -12) (fun _ => 1%nat) (fun _ => []) (fun _ => 0)
    (fun n => Z.of_nat n) 1 (fun _ => false) 0 true.

Definition world_empty : world :=
  mk_world [] 0 [] [] 0 0 [] [] 0 0 0 [] [] [] [] [].

(** A registered descriptor of ten I/O units, nothing outstanding. *)
Definition dev_idle : dev_ctx :=
  mk_dev false false false 100 200 300 8 10 0 0 0 0.

(** One descriptor at address 1, two free tasks. *)
Definition world_one : world :=
  set_task_pool [mk_task 0 11; mk_task 0 12]
    (set_allocs 1 (set_g_devs [(1, dev_idle)] world_empty)).

(** The descriptor of [world_one] with one request outstanding, and the
    state in which the driver holds that request. *)
Definition dev_busy : dev_ctx :=
  mk_dev false false false 100 200 300 8 10 0 0 1 1.

Definition world_busy : world :=
  set_inflight [(300, mk_task 1 11)]
    (set_task_pool [mk_task 0 12]
       (set_allocs 1 (set_g_devs [(1, dev_busy)] world_empty))).

(** The controller handles of the registry, in queue order. *)
Definition handles (l : list (Z * dev_ctx)) : list Z :=
  map (fun e => ctrlr (snd e)) l.

(** A controller with a 40 KiB namespace of 512-byte sectors. *)
Definition ctrlr_good : ctrlr_info := mk_ctrlr 100 200 true 40960 512 300.

(** A controller whose namespace is smaller than one I/O. *)
Definition ctrlr_small : ctrlr_info := mk_ctrlr 101 201 true 2048 512 301.

(** A second controller that passes the checks of [register_dev]. *)
Definition ctrlr_second : ctrlr_info := mk_ctrlr 105 205 true 81920 4096 305.

(** The three [printf] calls of [usage]. *)
Definition usage_text (program_name : option string) : list string :=
  [(printf_s program_name ++ " options")%string;
   newline;
   (tab ++ "[-t time in seconds]" ++ newline)%string].

(** ** The invariant of the engine *)

(** The commands of device [p] the driver holds. *)
Definition outstanding (p : Z) (l : list (Z * perf_task)) : Z :=
  Z.of_nat (List.length (filter (fun e => dev (snd e) =? p) l)).

(** An entry of the [unregistered] record with nothing outstanding. *)
Definition idle (e : Z * dev_ctx) : Prop := current_queue_depth (snd e) = 0.

(** The descriptors are at distinct addresses that [calloc] handed out;
    the queue depth of each is the number of its commands the driver
    holds; every command the driver holds belongs to a linked descriptor
    and sits on its queue pair; every descriptor was idle when it was
    unregistered.  [P] is what else holds of each descriptor. *)
Definition linked_ok (P : Z -> dev_ctx -> Prop) (w : world) : Prop :=
  NoDup (map fst (g_devs w)) /\
  (forall p d, find_dev p (g_devs w) = Some d ->
     p <= Z.of_nat (allocs w) /\
     current_queue_depth d = outstanding p (inflight w) /\
     P p d) /\
  (forall q t, In (q, t) (inflight w) ->
     exists d, find_dev (dev t) (g_devs w) = Some d /\ qpair d = q) /\
  Forall idle (unregistered w).

(** Between passes: at most [g_queue_depth] outstanding, none for a
    descriptor that has not had its first burst. *)
Definition settled (p : Z) (d : dev_ctx) : Prop :=
  current_queue_depth d <= g_queue_depth /\
  (is_new d = true -> current_queue_depth d = 0).

(** While [p0] is being filled, with room for [k] more submissions:
    during its first burst ([nw = true]) and between a completion and the
    submission that replaces it ([nw = false]). *)
Definition filling (p0 k : Z) (nw : bool) (p : Z) (d : dev_ctx) : Prop :=
  if p =? p0 then current_queue_depth d + k <= g_queue_depth /\ is_new d = nw
  else settled p d.

Definition Inv : world -> Prop := linked_ok settled.

(** ** The steps of a run *)

(** Before the first probe: nothing registered, nothing submitted,
    nothing unregistered. *)
Definition initial (w : world) : Prop :=
  g_devs w = [] /\ inflight w = [] /\ unregistered w = [].

(** The statements of [io_loop] between which the state can be observed:
    the initial burst and the poll of the first loop for one descriptor,
    the probe, the body of the removal sweep for one descriptor, a clock
    read, the statistics, and the drain and the unregistration of the
    shutdown loop. *)
Inductive step (env : driver) (w w' : world) : Prop :=
| step_burst (p : Z) :
    first_burst env p w = Done tt w' -> step env w w'
| step_check (p : Z) :
    check_io env p w = Done tt w' -> step env w w'
| step_probe (rc : Z) :
    spdk_nvme_probe env probe_cb (attach_cb env) remove_cb w = Done rc w' ->
    step env w w'
| step_sweep (p : Z) :
    sweep_dev p w = Done tt w' -> step env w w'
| step_ticks (t : Z) :
    spdk_get_ticks env w = Done t w' -> step env w w'
| step_stats :
    print_stats w = Done tt w' -> step env w w'
| step_drain (fuel : nat) (p : Z) :
    drain_io env fuel p w = Done tt w' -> step env w w'
| step_shutdown (fuel : nat) (p : Z) :
    (drain_io env fuel p ;; unregister_dev p) w = Done tt w' ->
    step env w w'.

Inductive reachable (env : driver) : world -> Prop :=
| reach_initial (w : world) : initial w -> reachable env w
| reach_step (w w' : world) :
    reachable env w -> step env w w' -> reachable env w'.

(** ** Hoare triples on returning calls *)

Definition hoare {A} (P : world -> Prop) (m : M A) (Q : A -> world -> Prop)
  : Prop :=
  forall w a w', P w -> m w = Done a w' -> Q a w'.

(** One controller is attached by the first probe; every read is accepted
    and every poll has one completion. *)
Definition env_plug : driver :=
  mk_driver (fun _ => 0) (fun _ => 1%nat)
    (fun n => match n with O => [Attach ctrlr_good] | _ => [] end)
    (fun _ => 0) (fun n => 1000 + Z.of_nat n) 1 (fun _ => false) 0 true.

(** Nothing registered, eight free tasks. *)
Definition world_pool : world :=
  set_task_pool (rte_mempool_create 8) world_empty.

(** The state a returning call leaves; the state it started from
    otherwise. *)
Definition after {A} (m : M A) (w : world) : world :=
  match m w with
  | Done _ w' => w'
  | _ => w
  end.

Definition world_probed : world :=
  Eval vm_compute in
    after (spdk_nvme_probe env_plug probe_cb (attach_cb env_plug) remove_cb)
      world_pool.

Definition world_serviced : world :=
  Eval vm_compute in after (service_dev env_plug 1) world_probed.

(** The shutdown loop body on [world_serviced]: drained, then
    unregistered. *)
Definition world_shutdown : world :=
  Eval vm_compute in
    after (drain_io env_plug 8 1 ;; unregister_dev 1) world_serviced.

(** ** Shutdown *)

(** The addresses of the registry with the queue pair of each. *)
Definition shape (l : list (Z * dev_ctx)) : list (Z * Z) :=
  map (fun e => (fst e, qpair (snd e))) l.

(** The invariant together with: no two descriptors share a queue pair. *)
Definition drain_ready (w : world) : Prop :=
  Inv w /\ NoDup (map snd (shape (g_devs w))).

(** The driver has at least one completion for every poll of a queue pair
    with outstanding commands. *)
Definition responsive (env : driver) : Prop :=
  forall n, (1 <= completions env n)%nat.

(** The first probe attaches a controller, the second one fails. *)
Definition env_probe_fails : driver :=
  mk_driver (fun _ => 0) (fun _ => 1%nat)
    (fun n => match n with O => [Attach ctrlr_good] | _ => [] end)
    (fun n => match n with O => 0 | _ => -1 end)
    (fun n => 1000 + Z.of_nat n) 1 (fun _ => false) 0 true.

(** What a returned call of [main] leaves: the exit code, the number of
    registered descriptors and of outstanding commands, the queue depths
    recorded at unregistration, and the number of free tasks. *)
Definition summary (r : result Z)
  : option (Z * nat * nat * list Z * nat) :=
  match r with
  | Done rc w =>
      Some (rc, List.length (g_devs w), List.length (inflight w),
            map (fun e => current_queue_depth (snd e)) (unregistered w),
            List.length (task_pool w))
  | _ => None
  end.

(** The descriptor of [world_one] marked removed while two requests are
    outstanding. *)
Definition world_removed : world :=
  set_g_devs [(1, set_is_removed true (set_current_queue_depth 2 dev_idle))]
    (set_inflight [(300, mk_task 1 11); (300, mk_task 1 12)] world_one).

(** What the option loop of [parse_args] computes, call by call of
    [getopt]: [scan permute args t r] when, starting with duration [t] and
    the arguments [args] still to read, the loop ends with duration [t']
    ([r = Some t']) or [getopt] reports an error ([r = None]). *)
Inductive scan (permute : bool) : list string -> Z -> option Z -> Prop :=
| scan_end (args : list string) (t : Z) :
    getopt permute args = GetoptEnd -> scan permute args t (Some t)
| scan_err (args : list string) (t : Z) :
    getopt permute args = GetoptErr -> scan permute args t None
| scan_opt (args : list string) (t : Z) (op : ascii) (optarg : string)
    (rest : list string) (r : option Z) :
    getopt permute args = GetoptOpt op optarg rest ->
    scan permute rest (atoi optarg) r ->
    scan permute args t r.

(** ** Runs, buffers and exits *)

(** Any number of steps. *)
Inductive steps (env : driver) : world -> world -> Prop :=
| steps_refl (w : world) : steps env w w
| steps_step (w w1 w2 : world) :
    steps env w w1 -> step env w1 w2 -> steps env w w2.

(** The buffers of the free tasks followed by those of the commands the
    driver holds. *)
Definition buffers (w : world) : list Z :=
  map buf (task_pool w) ++ map (fun e => buf (snd e)) (inflight w).

(** The first-loop burst on [world_probed], before the poll. *)
Definition world_burst : world :=
  Eval vm_compute in after (first_burst env_plug 1) world_probed.

(** A call started in a state with [P] ends the process with code 1 only,
    and steps outside defined behaviour only if [F]: with [F := False] it
    never does. *)
Definition safe (F : Prop) {A} (P : world -> Prop) (m : M A) : Prop :=
  forall w, P w ->
    match m w with
    | Fault => F
    | Exit c _ => c = 1
    | _ => True
    end.

(** [p] is the address of a linked descriptor. *)
Definition linked (p : Z) (w : world) : Prop := In p (map fst (g_devs w)).

(** The driver never reports a sector size of 0 for a controller it
    attaches. *)
Definition sectors_ok (env : driver) : Prop :=
  forall n c, In (Attach c) (probe_events env n) ->
              spdk_nvme_ns_get_sector_size c <> 0.

(** The state at the end of a run of one second with one controller. *)
Definition world_done : world :=
  Eval vm_compute in
    after (main env_plug 8 ["hotplug"; "-t"; "1"]%string) world_empty.

(** The call stayed within defined behaviour. *)
Definition defined {A} (r : result A) : Prop :=
  match r with
  | Fault => False
  | _ => True
  end.

(** The driver accepts every read. *)
Definition accepting (env : driver) : Prop := forall n, read_rc env n = 0.

(** The first probe attaches a controller, the second reports it gone;
    every read is accepted and every poll has up to four completions. *)
Definition env_unplug : driver :=
  mk_driver (fun _ => 0) (fun _ => 4%nat)
    (fun n => match n with
              | O => [Attach ctrlr_good]
              | S O => [Remove 100]
              | _ => []
              end)
    (fun _ => 0) (fun n => 1000 + Z.of_nat n) 1 (fun _ => false) 0 true.

(** Attached and serviced once with [env_unplug], then reported gone with
    four requests outstanding. *)
Definition world_serviced4 : world :=
  Eval vm_compute in after (service_dev env_unplug 1) world_probed.

Definition world_unplugged : world :=
  Eval vm_compute in
    after (spdk_nvme_probe env_unplug probe_cb (attach_cb env_unplug) remove_cb)
      world_serviced4.

(** The descriptor of [world_unplugged] and that of [world_serviced]. *)
Definition dev_unplugged : dev_ctx :=
  Eval vm_compute in
    match find_dev 1 (g_devs world_unplugged) with
    | Some d => d
    | None => dev_zero
    end.

Definition dev_serviced : dev_ctx :=
  Eval vm_compute in
    match find_dev 1 (g_devs world_serviced) with
    | Some d => d
    | None => dev_zero
    end.

(** The descriptor at [p], if linked, has had its first burst and has at
    most [K] requests outstanding; [p] is an address already handed out. *)
Definition capped (p K : Z) (w : world) : Prop :=
  p <= Z.of_nat (allocs w) /\
  forall d, find_dev p (g_devs w) = Some d ->
            is_new d = false /\ current_queue_depth d <= K.

(** [world_serviced] after one more poll. *)
Definition world_polled : world :=
  Eval vm_compute in after (check_io env_plug 1) world_serviced.

Definition dev_polled : dev_ctx :=
  Eval vm_compute in
    match find_dev 1 (g_devs world_polled) with
    | Some d => d
    | None => dev_zero
    end.

(** ** The heap and the read log *)

(** Two controllers show up at the first probe: one whose namespace is
    too small, then a good one. *)
Definition env_two : driver :=
  mk_driver (fun _ => 0) (fun _ => 1%nat)
    (fun n => match n with
              | O => [Attach ctrlr_small; Attach ctrlr_good]
              | _ => []
              end)
    (fun _ => 0) (fun n => 1000 + Z.of_nat n) 1 (fun _ => false) 0 true.

Definition world_two : world :=
  Eval vm_compute in
    after (spdk_nvme_probe env_two probe_cb (attach_cb env_two) remove_cb)
      world_pool.

(** The driver announces controller [c] at some probe. *)
Definition announced (env : driver) (c : ctrlr_info) : Prop :=
  exists n, In (Attach c) (probe_events env n).

(** The descriptor was filled in from an announced controller whose
    namespace passed the checks of [register_dev], and its cursor is
    inside the namespace. *)
Definition geom (env : driver) (d : dev_ctx) : Prop :=
  exists c,
    announced env c /\
    ns d = c_ns c /\ qpair d = c_qpair c /\
    0 < spdk_nvme_ns_get_sector_size c <= g_io_size_bytes /\
    g_io_size_bytes <= spdk_nvme_ns_get_size c /\
    size_in_ios d = spdk_nvme_ns_get_size c / g_io_size_bytes /\
    io_size_blocks d = g_io_size_bytes / spdk_nvme_ns_get_sector_size c /\
    0 <= offset_in_ios d < size_in_ios d.

(** The read goes to the namespace and the queue pair of an announced
    controller, covers the sectors that fit in one I/O unit, starts on a
    multiple of that count, and ends inside the namespace. *)
Definition in_bounds (env : driver) (cmd : read_cmd) : Prop :=
  exists c,
    announced env c /\
    cmd_ns cmd = c_ns c /\ cmd_qpair cmd = c_qpair c /\
    0 < spdk_nvme_ns_get_sector_size c /\
    cmd_lba_count cmd = g_io_size_bytes / spdk_nvme_ns_get_sector_size c /\
    1 <= cmd_lba_count cmd /\
    0 <= cmd_lba cmd /\ (cmd_lba_count cmd | cmd_lba cmd) /\
    (cmd_lba cmd + cmd_lba_count cmd) * spdk_nvme_ns_get_sector_size c
    <= spdk_nvme_ns_get_size c.

(** Every linked descriptor has its geometry; the reads logged since
    [w0] are all in bounds. *)
Definition geom_ok (env : driver) (w0 w : world) : Prop :=
  (forall p d, find_dev p (g_devs w) = Some d -> geom env d) /\
  exists new, reads w = reads w0 ++ new /\ Forall (in_bounds env) new.

(** Every address [calloc] handed out is either linked or was freed,
    once. *)
Definition heap_ok (w : world) : Prop :=
  Permutation (map fst (g_devs w) ++ frees w)
              (map Z.of_nat (seq 1 (allocs w))).

(** ** Registration of two controllers, and a run that runs out of memory *)

(** [ctrlr_good] and [ctrlr_second] attached to an empty registry. *)
Definition world_pair : world :=
  Eval vm_compute in
    after (foreach [ctrlr_good; ctrlr_second] (attach_cb env_quiet))
      world_empty.

(** What a call that ends the process with [exit] leaves: the status, the
    number of registered descriptors and of outstanding commands. *)
Definition exit_summary (r : result Z) : option (Z * nat * nat) :=
  match r with
  | Exit c w => Some (c, List.length (g_devs w), List.length (inflight w))
  | _ => None
  end.

(** One controller is there at start-up and a second one is plugged in
    before the probe of the first pass; the second [calloc] fails. *)
Definition env_nomem : driver :=
  mk_driver (fun _ => 0) (fun _ => 1%nat)
    (fun n => match n with
              | O => [Attach ctrlr_good]
              | S O => [Attach ctrlr_second]
              | _ => []
              end)
    (fun _ => 0) (fun n => 1000 + Z.of_nat n) 1
    (fun n => Nat.eqb n 1) 0 true.

(** [main] with [-t 1] under [env_nomem]: the state in which it calls
    [register_controllers]. *)
Definition world_start : world :=
  set_g_tsc_rate (wrap64 (ticks_hz env_nomem))
    (set_task_pool (rte_mempool_create 8192)
       (set_g_time_in_sec 1 world_empty)).

(** * Properties *)

(** ** The monad *)

Lemma bind_Done {A B} (m : M A) (f : A -> M B) w b w2 :
  bind m f w = Done b w2 ->
  exists a w1, m w = Done a w1 /\ f a w1 = Done b w2.
Proof.
  unfold bind. destruct (m w) as [a w1| | |]; try discriminate.
  intros H. exists a, w1. auto.
Qed.

Lemma bind_eq {A B} (m : M A) (f : A -> M B) w a w1 :
  m w = Done a w1 -> bind m f w = f a w1.
Proof. unfold bind. intros ->. reflexivity. Qed.

(** ** The registry *)

Lemma find_dev_store p q d l :
  find_dev q (store_dev p d l) =
  if q =? p then match find_dev p l with Some _ => Some d | None => None end
  else find_dev q l.
Proof.
  induction l as [|[a x] l IH]; simpl.
  - destruct (q =? p); reflexivity.
  - destruct (Z.eqb_spec a p) as [->|Hap]; simpl.
    + rewrite (Z.eqb_sym p q). destruct (q =? p); reflexivity.
    + destruct (Z.eqb_spec a q) as [->|Haq].
      * destruct (Z.eqb_spec q p); [contradiction|reflexivity].
      * exact IH.
Qed.

Lemma find_dev_store_same p d d0 l :
  find_dev p l = Some d0 -> find_dev p (store_dev p d l) = Some d.
Proof. intros H. rewrite find_dev_store, Z.eqb_refl, H. reflexivity. Qed.

Lemma store_dev_store p d1 d2 l :
  store_dev p d2 (store_dev p d1 l) = store_dev p d2 l.
Proof.
  induction l as [|[a x] l IH]; simpl; [reflexivity|].
  destruct (a =? p) eqn:E; simpl; rewrite E; [reflexivity|].
  now rewrite IH.
Qed.

Lemma map_fst_store_dev p d l : map fst (store_dev p d l) = map fst l.
Proof.
  induction l as [|[a x] l IH]; simpl; [reflexivity|].
  destruct (a =? p); simpl; [reflexivity|]. now rewrite IH.
Qed.

Lemma advance_cursor_fields d :
  ns (advance_cursor d) = ns d /\ qpair (advance_cursor d) = qpair d /\
  io_size_blocks (advance_cursor d) = io_size_blocks d /\
  size_in_ios (advance_cursor d) = size_in_ios d /\
  current_queue_depth (advance_cursor d) = current_queue_depth d /\
  io_completed (advance_cursor d) = io_completed d /\
  is_new (advance_cursor d) = is_new d /\
  is_removed (advance_cursor d) = is_removed d /\
  is_draining (advance_cursor d) = is_draining d /\
  ctrlr (advance_cursor d) = ctrlr d.
Proof.
  unfold advance_cursor. simpl. destruct (_ =? _); simpl; repeat split.
Qed.

(** ** Submission and completion, as equations *)

Section Engine.

Variable env : driver.

Lemma submit_single_io_eq p w d :
  task_pool w <> [] ->
  find_dev p (g_devs w) = Some d ->
  submit_single_io env p w =
  Done tt (submit_world (read_rc env (List.length (reads w))) p d w).
Proof.
  intros Hp Hf.
  destruct w as [devs al fr pool tsc tm infl rds pl pr tk qa qf dt un so].
  simpl in *. destruct pool as [|t pool]; [congruence|].
  unfold submit_single_io, submit_world, bind, rte_mempool_get, load, store,
    modify, spdk_nvme_ns_cmd_read, rte_mempool_put. simpl.
  rewrite Hf. simpl.
  destruct (read_rc env (Datatypes.length rds) =? 0) eqn:Hrc; simpl;
    rewrite ?Hrc; simpl.
  - rewrite (find_dev_store_same _ _ _ _ Hf). unfold set_g_devs. simpl.
    rewrite store_dev_store. reflexivity.
  - reflexivity.
Qed.

Lemma submit_single_io_empty_pool p w :
  task_pool w = [] -> submit_single_io env p w = Exit 1 w.
Proof.
  intros Hp. unfold submit_single_io, bind, rte_mempool_get. rewrite Hp.
  reflexivity.
Qed.

Lemma task_complete_eq task w d :
  find_dev (dev task) (g_devs w) = Some d ->
  task_complete env task w =
  if resubmits d then submit_single_io env (dev task) (complete_world task d w)
  else Done tt (complete_world task d w).
Proof.
  intros Hf.
  unfold task_complete, complete_world, resubmits, bind, load, store, modify,
    rte_mempool_put, ret.
  rewrite Hf. simpl. rewrite (find_dev_store_same _ _ _ _ Hf). simpl.
  destruct (negb (is_draining d) && negb (is_removed d)); reflexivity.
Qed.

End Engine.

(** ** Submission *)

(** C6. [submit_single_io] issues one read command.  When the command is
    refused (non-zero code) the task goes back to the pool, the queue depth
    of the device is what it was and the driver holds nothing new, so no
    completion will ever retry the request.  When it is accepted (zero) the
    queue depth goes up by one. *)
Theorem submit_single_io_queue_depth (env : driver) (p : Z) (w : world)
    (t : perf_task) (pool : list perf_task) (d : dev_ctx) :
  task_pool w = t :: pool ->
  find_dev p (g_devs w) = Some d ->
  exists w' d',
    submit_single_io env p w = Done tt w' /\
    find_dev p (g_devs w') = Some d' /\
    List.length (reads w') = S (List.length (reads w)) /\
    (read_rc env (List.length (reads w)) <> 0 ->
       task_pool w' = mk_task p (buf t) :: pool /\
       current_queue_depth d' = current_queue_depth d /\
       inflight w' = inflight w) /\
    (read_rc env (List.length (reads w)) = 0 ->
       task_pool w' = pool /\
       current_queue_depth d' = wrap64 (current_queue_depth d + 1) /\
       (0 <= current_queue_depth d < 2 ^ 64 - 1 ->
        current_queue_depth d' = current_queue_depth d + 1) /\
       inflight w' = inflight w ++ [(qpair d, mk_task p (buf t))]).
Proof.
  intros Hp Hf.
  assert (Hne : task_pool w <> []) by (rewrite Hp; discriminate).
  rewrite (submit_single_io_eq env p w d Hne Hf).
  unfold submit_world. rewrite Hp. simpl hd. simpl tl.
  destruct (advance_cursor_fields d) as (_ & _ & _ & _ & Hq & _).
  destruct (Z.eqb_spec (read_rc env (Datatypes.length (reads w))) 0) as [E|E].
  - eexists; eexists. split; [reflexivity|]. simpl.
    split; [eapply find_dev_store_same; eassumption|].
    split; [rewrite length_app; simpl; lia|].
    split; [intros H; contradiction|]. intros _.
    simpl. rewrite Hq. repeat split.
    intros Hr. unfold wrap64. apply Z.mod_small. lia.
  - eexists; eexists. split; [reflexivity|]. simpl.
    split; [eapply find_dev_store_same; eassumption|].
    split; [rewrite length_app; simpl; lia|].
    split; [|intros H; contradiction]. intros _.
    rewrite Hq. repeat split.
Qed.

Lemma submit_single_io_queue_depth_witness :
  exists w' d',
    submit_single_io env_refusing 1 world_one = Done tt w' /\
    find_dev 1 (g_devs w') = Some d' /\
    List.length (reads w') = 1%nat /\
    (-12 <> 0 ->
       task_pool w' = [mk_task 1 11; mk_task 0 12] /\
       current_queue_depth d' = 0 /\
       inflight w' = []) /\
    (-12 = 0 ->
       task_pool w' = [mk_task 0 12] /\
       current_queue_depth d' = wrap64 (0 + 1) /\
       (0 <= 0 < 2 ^ 64 - 1 -> current_queue_depth d' = 0 + 1) /\
       inflight w' = [] ++ [(300, mk_task 1 11)]).
Proof.
  apply (submit_single_io_queue_depth env_refusing 1 world_one
           (mk_task 0 11) [mk_task 0 12] dev_idle); reflexivity.
Defined.

Lemma submit_single_io_Done (env : driver) p w w' :
  submit_single_io env p w = Done tt w' ->
  exists d,
    find_dev p (g_devs w) = Some d /\ task_pool w <> [] /\
    w' = submit_world (read_rc env (List.length (reads w))) p d w.
Proof.
  intros H.
  destruct (task_pool w) as [|t pool] eqn:Hp.
  - rewrite (submit_single_io_empty_pool env p w Hp) in H. discriminate.
  - destruct (find_dev p (g_devs w)) as [d|] eqn:Hf.
    + exists d. split; [reflexivity|]. split; [discriminate|].
      rewrite (submit_single_io_eq env p w d) in H; [congruence| |assumption].
      rewrite Hp. discriminate.
    + exfalso. revert H.
      unfold submit_single_io, bind, rte_mempool_get, load. rewrite Hp.
      simpl. rewrite Hf. discriminate.
Qed.

Lemma find_dev_submit_world rc p d w :
  find_dev p (g_devs w) = Some d ->
  exists d',
    find_dev p (g_devs (submit_world rc p d w)) = Some d' /\
    offset_in_ios d' = offset_in_ios (advance_cursor d) /\
    size_in_ios d' = size_in_ios d.
Proof.
  intros Hf. unfold submit_world.
  destruct (advance_cursor_fields d) as (_ & _ & _ & Hs & _).
  destruct (rc =? 0); simpl; eexists;
    (split; [eapply find_dev_store_same; eassumption|]); simpl; auto.
Qed.

(** ** Completion *)

(** C2. [task_complete] takes one off the queue depth of the owning device,
    adds one to its completed count and puts the task back in the pool.
    Then, if the device is neither removed nor draining, it is exactly
    [submit_single_io] for that device, which issues one read command on
    the device's queue pair; otherwise it returns at once and no command is
    issued. *)
Theorem task_complete_resubmits (env : driver) (task : perf_task) (w : world)
    (d : dev_ctx) :
  find_dev (dev task) (g_devs w) = Some d ->
  exists w1 d1,
    find_dev (dev task) (g_devs w1) = Some d1 /\
    current_queue_depth d1 = wrap64 (current_queue_depth d - 1) /\
    (0 < current_queue_depth d < 2 ^ 64 ->
     current_queue_depth d1 = current_queue_depth d - 1) /\
    io_completed d1 = wrap64 (io_completed d + 1) /\
    task_pool w1 = task :: task_pool w /\
    reads w1 = reads w /\ inflight w1 = inflight w /\
    (is_removed d = false /\ is_draining d = false ->
       task_complete env task w = submit_single_io env (dev task) w1 /\
       exists w' cmd,
         task_complete env task w = Done tt w' /\
         reads w' = reads w ++ [cmd] /\
         dev (cmd_task cmd) = dev task /\
         cmd_qpair cmd = qpair d /\ cmd_ns cmd = ns d) /\
    (is_removed d = true \/ is_draining d = true ->
       task_complete env task w = Done tt w1).
Proof.
  intros Hf. exists (complete_world task d w), (completed_dev d).
  rewrite (task_complete_eq env task w d Hf).
  split; [eapply find_dev_store_same; eassumption|].
  split; [reflexivity|].
  split; [intros Hr; simpl; unfold wrap64; apply Z.mod_small; lia|].
  split; [reflexivity|]. split; [reflexivity|].
  split; [reflexivity|]. split; [reflexivity|].
  unfold resubmits. split.
  - intros [Hr Hd]. rewrite Hr, Hd. simpl. split; [reflexivity|].
    assert (Hf1 : find_dev (dev task) (g_devs (complete_world task d w))
                  = Some (completed_dev d))
      by (eapply find_dev_store_same; eassumption).
    assert (Hp1 : task_pool (complete_world task d w) <> [])
      by (simpl; discriminate).
    rewrite (submit_single_io_eq env _ _ _ Hp1 Hf1).
    eexists; eexists. split; [reflexivity|].
    unfold submit_world. destruct (_ =? 0); simpl; repeat split.
  - intros [Hr|Hd]; [rewrite Hr|rewrite Hd]; simpl;
      [rewrite andb_false_r|]; reflexivity.
Qed.

Lemma task_complete_resubmits_witness :
  exists w' cmd,
    task_complete env_quiet (mk_task 1 11)
      (set_inflight [] world_busy) = Done tt w' /\
    reads w' = [cmd] /\ dev (cmd_task cmd) = 1 /\ cmd_qpair cmd = 300.
Proof.
  destruct (task_complete_resubmits env_quiet (mk_task 1 11)
              (set_inflight [] world_busy) dev_busy eq_refl)
    as (w1 & d1 & _ & _ & _ & _ & _ & _ & _ & Hyes & _).
  destruct (Hyes (conj eq_refl eq_refl)) as (_ & w' & cmd & H1 & H2 & H3 & H4 & _).
  exists w', cmd. repeat split; assumption.
Defined.

(** ** The cursor *)

Lemma advance_cursor_range d :
  1 <= size_in_ios d < 2 ^ 64 ->
  0 <= offset_in_ios d < size_in_ios d ->
  offset_in_ios (advance_cursor d) = (offset_in_ios d + 1) mod size_in_ios d /\
  0 <= offset_in_ios (advance_cursor d) < size_in_ios d.
Proof.
  intros Hs Ho.
  assert (Hm : 0 <= (offset_in_ios d + 1) mod size_in_ios d < size_in_ios d)
    by (apply Z.mod_pos_bound; lia).
  assert (offset_in_ios (advance_cursor d)
          = (offset_in_ios d + 1) mod size_in_ios d); [|lia].
  unfold advance_cursor. simpl. unfold wrap64.
  rewrite (Z.mod_small (offset_in_ios d + 1)) by lia.
  destruct (Z.eqb_spec (offset_in_ios d + 1) (size_in_ios d)) as [E|E]; simpl.
  - rewrite E, Z.mod_same by lia. reflexivity.
  - rewrite Z.mod_small by lia. reflexivity.
Qed.

Lemma cursor_after_submissions (env : driver) (n : nat) :
  forall p w w' d,
    find_dev p (g_devs w) = Some d ->
    1 <= size_in_ios d < 2 ^ 64 ->
    0 <= offset_in_ios d < size_in_ios d ->
    times n (submit_single_io env p) w = Done tt w' ->
    exists d',
      find_dev p (g_devs w') = Some d' /\
      size_in_ios d' = size_in_ios d /\
      offset_in_ios d' = (offset_in_ios d + Z.of_nat n) mod size_in_ios d.
Proof.
  induction n as [|n IH]; intros p w w' d Hf Hs Ho H.
  - simpl in H. unfold ret in H. injection H as <-. exists d.
    rewrite Z.add_0_r, Z.mod_small by lia. auto.
  - simpl in H. apply bind_Done in H. destruct H as ([] & w1 & H1 & H2).
    apply submit_single_io_Done in H1. destruct H1 as (d0 & Hf0 & _ & ->).
    rewrite Hf in Hf0. injection Hf0 as <-.
    destruct (find_dev_submit_world (read_rc env (List.length (reads w))) p d w Hf)
      as (d1 & Hf1 & Ho1 & Hs1).
    destruct (advance_cursor_range d Hs Ho) as (Ha & Hr).
    destruct (IH p _ w' d1 Hf1) as (d' & Hf' & Hs' & Ho'); try assumption.
    + rewrite Hs1. assumption.
    + rewrite Ho1, Hs1. assumption.
    + exists d'. split; [assumption|]. split; [congruence|].
      rewrite Ho', Ho1, Hs1, Ha, Zplus_mod_idemp_l.
      f_equal. lia.
Qed.

(** C5. For a device with at least one I/O unit, a call of
    [submit_single_io] takes a cursor within [0, size_in_ios) one step
    further, back to zero exactly on reaching [size_in_ios], so the cursor
    stays within [0, size_in_ios); from a cursor of 0, the cursor after [n]
    calls is [n mod size_in_ios]. *)
Theorem cursor_in_range (env : driver) (p : Z) (w : world) (d : dev_ctx) :
  find_dev p (g_devs w) = Some d ->
  1 <= size_in_ios d < 2 ^ 64 ->
  (0 <= offset_in_ios d < size_in_ios d ->
   forall w',
     submit_single_io env p w = Done tt w' ->
     exists d',
       find_dev p (g_devs w') = Some d' /\
       size_in_ios d' = size_in_ios d /\
       0 <= offset_in_ios d' < size_in_ios d' /\
       offset_in_ios d' =
       (if offset_in_ios d + 1 =? size_in_ios d then 0
        else offset_in_ios d + 1)) /\
  (offset_in_ios d = 0 ->
   forall (n : nat) w',
     times n (submit_single_io env p) w = Done tt w' ->
     exists d',
       find_dev p (g_devs w') = Some d' /\
       size_in_ios d' = size_in_ios d /\
       0 <= offset_in_ios d' < size_in_ios d' /\
       offset_in_ios d' = Z.of_nat n mod size_in_ios d).
Proof.
  intros Hf Hs. split.
  - intros Ho w' H.
    destruct (cursor_after_submissions env 1 p w w' d Hf Hs Ho)
      as (d' & Hf' & Hs' & Ho').
    { simpl. unfold bind. rewrite H. reflexivity. }
    exists d'. split; [assumption|]. split; [assumption|].
    assert (Hm : 0 <= (offset_in_ios d + 1) mod size_in_ios d < size_in_ios d)
      by (apply Z.mod_pos_bound; lia).
    split; [rewrite Ho', Hs'; exact Hm|]. rewrite Ho'.
    change (Z.of_nat 1) with 1.
    destruct (Z.eqb_spec (offset_in_ios d + 1) (size_in_ios d)) as [E|E].
    + rewrite E. apply Z.mod_same. lia.
    + apply Z.mod_small. lia.
  - intros Ho n w' H.
    destruct (cursor_after_submissions env n p w w' d Hf Hs ltac:(lia) H)
      as (d' & Hf' & Hs' & Ho').
    exists d'. rewrite Ho in Ho'. simpl in Ho'.
    split; [assumption|]. split; [assumption|]. split; [|assumption].
    rewrite Ho', Hs'. apply Z.mod_pos_bound. lia.
Qed.

Lemma cursor_in_range_witness :
  exists d',
    find_dev 1 (g_devs (submit_world (-12) 1 dev_idle world_one)) = Some d' /\
    size_in_ios d' = 10 /\
    0 <= offset_in_ios d' < size_in_ios d' /\
    offset_in_ios d' = 1 mod 10.
Proof.
  destruct (cursor_in_range env_refusing 1 world_one dev_idle eq_refl)
    as (_ & H).
  - simpl. lia.
  - apply (H eq_refl 1%nat). reflexivity.
Defined.

(** ** Registration *)

Section Registration.

Variable env : driver.

(** C3. [register_dev] links a descriptor only if namespace 1 exists and is
    active, holds at least one I/O and has sectors no larger than one I/O.
    When one of these fails the descriptor is freed, no queue pair was
    asked for and the registry is as before.  When they hold, the two
    geometry fields are computed, then a queue pair is asked for, and with
    a queue pair the descriptor goes to the tail of the registry.  (A sector
    size of 0 passes the checks and the division by it is undefined.) *)
Theorem register_dev_validates (c : ctrlr_info) (w : world) :
  calloc_null env (allocs w) = false ->
  let p := Z.of_nat (S (allocs w)) in
  let size := spdk_nvme_ns_get_size c in
  let sector := spdk_nvme_ns_get_sector_size c in
  let valid := c_ns c <> 0 /\ c_ns_active c = true /\
               g_io_size_bytes <= size /\ sector <= g_io_size_bytes in
  (forall w', register_dev env c w = Done tt w' ->
              g_devs w' <> g_devs w -> valid) /\
  (~ valid ->
   exists w', register_dev env c w = Done tt w' /\
              g_devs w' = g_devs w /\
              qpair_allocs w' = qpair_allocs w /\
              frees w' = frees w ++ [p]) /\
  (valid -> sector = 0 -> register_dev env c w = Fault) /\
  (valid -> sector <> 0 ->
   exists w', register_dev env c w = Done tt w' /\
              qpair_allocs w' = qpair_allocs w ++ [c_handle c] /\
              (c_qpair c = 0 ->
               g_devs w' = g_devs w /\ frees w' = frees w ++ [p]) /\
              (c_qpair c <> 0 ->
               exists d,
                 g_devs w' = g_devs w ++ [(p, d)] /\
                 frees w' = frees w /\
                 size_in_ios d = size / g_io_size_bytes /\
                 io_size_blocks d = g_io_size_bytes / sector /\
                 ctrlr d = c_handle c /\ ns d = c_ns c /\
                 qpair d = c_qpair c /\
                 is_new d = true /\ is_removed d = false /\
                 is_draining d = false /\
                 current_queue_depth d = 0 /\ offset_in_ios d = 0 /\
                 io_completed d = 0)).
Proof.
  intros Hc p size sector valid.
  unfold register_dev, bind, calloc. rewrite Hc. simpl.
  fold size. fold sector.
  destruct (Z.eqb_spec (c_ns c) 0) as [Hns|Hns]; simpl.
  { unfold free, modify. simpl.
    split; [intros w' H; injection H as <-; simpl; congruence|].
    split; [intros _; eexists; split; [reflexivity|]; simpl; auto|].
    split; intros (H & _); contradiction. }
  destruct (c_ns_active c) eqn:Hact; simpl.
  2:{ unfold free, modify. simpl.
    split; [intros w' H; injection H as <-; simpl; congruence|].
    split; [intros _; eexists; split; [reflexivity|]; simpl; auto|].
    split; intros (_ & H & _); discriminate. }
  destruct (Z.ltb_spec size g_io_size_bytes) as [Hsz|Hsz]; simpl.
  { unfold free, modify. simpl.
    split; [intros w' H; injection H as <-; simpl; congruence|].
    split; [intros _; eexists; split; [reflexivity|]; simpl; auto|].
    split; intros (_ & _ & H & _); lia. }
  destruct (Z.ltb_spec g_io_size_bytes sector) as [Hsec|Hsec]; simpl.
  { unfold free, modify. simpl.
    split; [intros w' H; injection H as <-; simpl; congruence|].
    split; [intros _; eexists; split; [reflexivity|]; simpl; auto|].
    split; intros (_ & _ & _ & H); lia. }
  assert (Hv : valid) by (unfold valid; auto).
  destruct (Z.eqb_spec sector 0) as [Hz|Hz]; simpl.
  { unfold fault.
    split; [intros w' H; discriminate|].
    split; [intros H; contradiction|].
    split; [reflexivity|]. intros _ H; contradiction. }
  split; [intros; assumption|].
  split; [intros H; contradiction|].
  split; [intros _ H; contradiction|]. intros _ _.
  unfold spdk_nvme_ctrlr_alloc_io_qpair, free, modify. simpl.
  destruct (Z.eqb_spec (c_qpair c) 0) as [Hq|Hq]; simpl.
  - eexists. split; [reflexivity|]. simpl.
    split; [reflexivity|]. split; [auto|]. intros H; contradiction.
  - eexists. split; [reflexivity|]. simpl.
    split; [reflexivity|]. split; [intros H; contradiction|].
    intros _. eexists. split; [reflexivity|]. simpl. repeat split.
Qed.

Lemma register_dev_handles (c : ctrlr_info) (w w' : world) :
  register_dev env c w = Done tt w' ->
  handles (g_devs w') = handles (g_devs w) \/
  handles (g_devs w') = handles (g_devs w) ++ [c_handle c].
Proof.
  unfold register_dev, bind, calloc, free, modify, ret, fault,
    spdk_nvme_ctrlr_alloc_io_qpair, exit.
  destruct (calloc_null env (allocs w)); simpl; [discriminate|].
  repeat match goal with
         | |- context [if ?b then _ else _] => destruct b; simpl
         end;
    intros H; try discriminate; injection H as <-; simpl; auto.
  right. unfold handles. rewrite map_app. reflexivity.
Qed.

Lemma register_all_handles (cs : list ctrlr_info) :
  forall w w',
    foreach cs (attach_cb env) w = Done tt w' ->
    NoDup (handles (g_devs w) ++ map c_handle cs) ->
    NoDup (handles (g_devs w')).
Proof.
  induction cs as [|c cs IH]; intros w w' H Hnd; simpl in *.
  - unfold ret in H. injection H as <-. now rewrite app_nil_r in Hnd.
  - apply bind_Done in H. destruct H as ([] & w1 & H1 & H2).
    apply (IH w1 w' H2).
    destruct (register_dev_handles c w w1 H1) as [-> | ->].
    + eapply NoDup_remove_1. eassumption.
    + rewrite <- app_assoc. exact Hnd.
Qed.

End Registration.

Lemma register_dev_validates_witness :
  exists w', register_dev env_quiet ctrlr_small world_empty = Done tt w' /\
             g_devs w' = [] /\ qpair_allocs w' = [] /\ frees w' = [1].
Proof.
  destruct (register_dev_validates env_quiet ctrlr_small world_empty eq_refl)
    as (_ & Hbad & _).
  apply Hbad. vm_compute. intros (_ & _ & H & _). apply H. reflexivity.
Defined.

(** C9, as amended.  When the controller handles of a sequence of attach
    events are pairwise distinct and none of them is registered yet, the
    registry has no two descriptors with the same controller handle after
    [register_dev] has processed them. *)
Theorem register_dev_distinct_handles (env : driver) (cs : list ctrlr_info)
    (w w' : world) :
  NoDup (handles (g_devs w) ++ map c_handle cs) ->
  foreach cs (attach_cb env) w = Done tt w' ->
  NoDup (handles (g_devs w')).
Proof.
  intros Hnd H. eapply register_all_handles; eassumption.
Qed.

Lemma register_dev_distinct_handles_witness :
  handles (g_devs world_pair) = [100; 105] /\
  NoDup (handles (g_devs world_pair)).
Proof.
  split; [reflexivity|].
  apply (register_dev_distinct_handles env_quiet [ctrlr_good; ctrlr_second]
           world_empty world_pair).
  - simpl. repeat constructor; simpl; intuition discriminate.
  - reflexivity.
Defined.

(** C9, as stated, fails: [register_dev] never looks for a descriptor with
    the same controller, so two attach events for one handle, starting from
    an empty registry, leave two descriptors for it. *)
Lemma register_dev_duplicate_handle :
  exists w',
    foreach [ctrlr_good; ctrlr_good] (attach_cb env_quiet) world_empty
    = Done tt w' /\
    handles (g_devs w') = [100; 100] /\
    ~ NoDup (handles (g_devs w')).
Proof.
  eexists. split; [reflexivity|]. split; [reflexivity|].
  intros H. vm_compute in H. inversion H as [|x l Hin _].
  apply Hin. left. reflexivity.
Qed.

(** ** Removal notifications *)

Lemma mark_removed_None h l :
  mark_removed h l = None <-> (forall a d, In (a, d) l -> ctrlr d <> h).
Proof.
  induction l as [|[a d] l IH]; simpl.
  - split; [intros _ ? ? []|reflexivity].
  - destruct (Z.eqb_spec (ctrlr d) h) as [E|E].
    + split; [discriminate|]. intros H. exfalso. apply (H a d); auto.
    + destruct (mark_removed h l) as [r|].
      * split; [discriminate|]. intros H. exfalso.
        destruct IH as [_ IH]. discriminate IH.
        intros a' d' Hin. apply (H a' d'). auto.
      * split; [|reflexivity]. intros _ a' d' [Heq|Hin].
        -- injection Heq as <- <-. assumption.
        -- destruct IH as [IH _]. apply (IH eq_refl a' d' Hin).
Qed.

Lemma mark_removed_Some h l l' :
  mark_removed h l = Some l' ->
  exists l1 a d l2,
    l = l1 ++ (a, d) :: l2 /\
    l' = l1 ++ (a, set_is_removed true d) :: l2 /\
    ctrlr d = h /\ (forall a' d', In (a', d') l1 -> ctrlr d' <> h).
Proof.
  revert l'. induction l as [|[a d] l IH]; simpl; intros l' H; [discriminate|].
  destruct (Z.eqb_spec (ctrlr d) h) as [E|E].
  - injection H as <-. exists [], a, d, l. simpl.
    repeat split; auto.
  - destruct (mark_removed h l) as [r|]; [|discriminate].
    injection H as <-.
    destruct (IH r eq_refl) as (l1 & a0 & d0 & l2 & -> & -> & Hc & Hl1).
    exists ((a, d) :: l1), a0, d0, l2. simpl. repeat split; auto.
    intros a' d' [Heq|Hin]; [injection Heq as <- <-; assumption|eauto].
Qed.

Lemma mark_removed_again h l l' :
  mark_removed h l = Some l' -> mark_removed h l' = Some l'.
Proof.
  revert l'. induction l as [|[a d] l IH]; simpl; intros l' H; [discriminate|].
  destruct (Z.eqb_spec (ctrlr d) h) as [E|E].
  - injection H as <-. simpl.
    destruct (Z.eqb_spec (ctrlr d) h); [|contradiction]. reflexivity.
  - destruct (mark_removed h l) as [r|]; [|discriminate].
    injection H as <-. simpl.
    destruct (Z.eqb_spec (ctrlr d) h); [contradiction|].
    rewrite (IH r eq_refl). reflexivity.
Qed.

(** C7. A second [remove_cb] for the same controller leaves the registry
    and every descriptor as the first one did.  For a tracked controller
    the first call sets [is_removed] on its descriptor and detaches
    nothing, and the second call changes nothing at all.  For a controller
    that is not tracked each call detaches it and the registry is not
    touched. *)
Theorem remove_cb_idempotent (h : Z) (w : world) :
  exists w1 w2,
    remove_cb h w = Done tt w1 /\
    remove_cb h w1 = Done tt w2 /\
    g_devs w2 = g_devs w1 /\
    ((exists a d, In (a, d) (g_devs w) /\ ctrlr d = h) ->
       w2 = w1 /\ detaches w1 = detaches w /\
       exists l1 a d l2,
         g_devs w = l1 ++ (a, d) :: l2 /\
         g_devs w1 = l1 ++ (a, set_is_removed true d) :: l2 /\
         ctrlr d = h /\ (forall a' d', In (a', d') l1 -> ctrlr d' <> h)) /\
    ((forall a d, In (a, d) (g_devs w) -> ctrlr d <> h) ->
       g_devs w1 = g_devs w /\
       detaches w1 = detaches w ++ [h] /\
       detaches w2 = detaches w ++ [h; h]).
Proof.
  unfold remove_cb.
  destruct (mark_removed h (g_devs w)) as [l|] eqn:Hm.
  - exists (set_g_devs l w), (set_g_devs l w). simpl.
    rewrite (mark_removed_again h _ _ Hm).
    split; [reflexivity|].
    split; [destruct w; reflexivity|]. split; [reflexivity|]. split.
    + intros _. split; [reflexivity|]. split; [reflexivity|].
      destruct (mark_removed_Some h _ _ Hm) as (l1 & a & d & l2 & H1 & H2 & H3 & H4).
      exists l1, a, d, l2. auto.
    + intros Hun. apply mark_removed_None in Hun. congruence.
  - unfold spdk_nvme_detach, modify.
    exists (set_detaches (detaches w ++ [h]) w),
           (set_detaches ((detaches w ++ [h]) ++ [h]) w).
    simpl. rewrite Hm.
    split; [reflexivity|]. split; [reflexivity|].
    split; [reflexivity|]. split.
    + intros (a & d & Hin & Hc). exfalso.
      destruct (mark_removed_None h (g_devs w)) as [Hn _].
      apply (Hn Hm a d Hin Hc).
    + intros _. rewrite <- app_assoc. auto.
Qed.

Lemma remove_cb_idempotent_witness :
  exists w1,
    remove_cb 100 world_busy = Done tt w1 /\
    remove_cb 100 w1 = Done tt w1 /\
    detaches w1 = [].
Proof.
  destruct (remove_cb_idempotent 100 world_busy)
    as (w1 & w2 & H1 & H2 & _ & Htracked & _).
  destruct Htracked as (E & Hd & _).
  - exists 1, dev_busy. split; [left|]; reflexivity.
  - exists w1. rewrite E in H2. auto.
Defined.

(** ** Argument parsing *)

Lemma getopt_rest_shorter permute args op optarg rest :
  getopt permute args = GetoptOpt op optarg rest ->
  (List.length rest < List.length args)%nat /\ op = "t"%char.
Proof.
  induction args as [|a args IH]; simpl; [discriminate|].
  assert (Hskip : (if permute then getopt permute args else GetoptEnd)
                  = GetoptOpt op optarg rest ->
                  (List.length rest < S (List.length args))%nat /\ op = "t"%char).
  { destruct permute; [|discriminate].
    intros H. destruct (IH H). split; [lia|assumption]. }
  destruct a as [|c0 [|c tail]]; try exact Hskip.
  - destruct c0 as [[] [] [] [] [] [] [] []]; exact Hskip.
  - destruct (Ascii.eqb_spec c0 "-"%char) as [->|Hc0].
    2:{ destruct c0 as [[] [] [] [] [] [] [] []]; try exact Hskip.
        exfalso. apply Hc0. reflexivity. }
    destruct ((c =? "-")%char && (tail =? EmptyString)%string); [discriminate|].
    destruct (Ascii.eqb_spec c "t"%char) as [->|Hc]; [|discriminate].
    destruct (tail =? EmptyString)%string.
    + destruct args as [|o args']; [discriminate|].
      intros H. injection H as <- <- <-. simpl. split; [lia|reflexivity].
    + intros H. injection H as <- <- <-. simpl. split; [lia|reflexivity].
Qed.

Section Arguments.

Variable env : driver.

Lemma getopt_loop_scan argv0 fuel :
  forall args w,
    (List.length args <= fuel)%nat ->
    exists b w' r,
      getopt_loop env fuel argv0 args w = Done b w' /\
      scan (getopt_permutes env) args (g_time_in_sec w) r /\
      match r with
      | Some t =>
          b = false /\ g_time_in_sec w' = t /\ stdout w' = stdout w
      | None => b = true /\ stdout w' = stdout w ++ usage_text argv0
      end.
Proof.
  induction fuel as [|fuel IH]; intros args w Hlen.
  - destruct args; [|simpl in Hlen; lia]. simpl.
    exists false, w, (Some (g_time_in_sec w)). unfold ret.
    split; [reflexivity|]. split; [apply scan_end; reflexivity|auto].
  - cbn [getopt_loop].
    destruct (getopt (getopt_permutes env) args) as [op optarg rest| |] eqn:Hg.
    + destruct (getopt_rest_shorter _ _ _ _ _ Hg) as (Hlt & ->).
      rewrite Ascii.eqb_refl. unfold bind, modify.
      destruct (IH rest (set_g_time_in_sec (atoi optarg) w) ltac:(lia))
        as (b & w' & r & Hrun & Hscan & Hres).
      exists b, w', r. rewrite Hrun. split; [reflexivity|].
      split; [eapply scan_opt; eassumption|exact Hres].
    + exists true, (set_stdout (stdout w ++ usage_text argv0) w), None.
      unfold bind, usage, modify, ret. split; [reflexivity|].
      split; [apply scan_err; assumption|auto].
    + exists false, w, (Some (g_time_in_sec w)). unfold ret.
      split; [reflexivity|]. split; [apply scan_end; assumption|auto].
Qed.

Lemma parse_args_scan argv w :
  exists rc w' r,
    parse_args env argv w = Done rc w' /\
    scan (getopt_permutes env) (tl argv) 0 r /\
    match r with
    | Some t =>
        if t =? 0
        then rc = 1 /\ stdout w' = stdout w ++ usage_text (hd_error argv)
        else rc = 0 /\ g_time_in_sec w' = t /\ stdout w' = stdout w
    | None => rc = 1 /\ stdout w' = stdout w ++ usage_text (hd_error argv)
    end.
Proof.
  unfold parse_args, bind, modify.
  destruct (getopt_loop_scan (hd_error argv) (List.length argv)
              (tl argv) (set_g_time_in_sec 0 w))
    as (b & w1 & r & Hrun & Hscan & Hres).
  { destruct argv; simpl; lia. }
  rewrite Hrun. destruct r as [t|].
  - destruct Hres as (-> & Ht & Hout). unfold get. rewrite Ht.
    destruct (Z.eqb_spec t 0) as [Hz|Hz].
    + eexists 1, _, (Some t). unfold usage, modify, ret.
      split; [reflexivity|]. split; [exact Hscan|].
      destruct (Z.eqb_spec t 0); [|contradiction].
      simpl. rewrite Hout. auto.
    + exists 0, w1, (Some t). unfold ret.
      split; [reflexivity|]. split; [exact Hscan|].
      destruct (Z.eqb_spec t 0); [contradiction|auto].
  - destruct Hres as (-> & Hout).
    exists 1, w1, None. unfold ret. auto.
Qed.

Lemma main_parse_failure fuel argv w rc w' :
  parse_args env argv w = Done rc w' -> rc <> 0 ->
  main env fuel argv w = Done rc w'.
Proof.
  intros H Hrc. unfold main. rewrite (bind_eq _ _ _ _ _ H).
  destruct (Z.eqb_spec rc 0); [contradiction|]. reflexivity.
Qed.

End Arguments.

(** C8, as amended.  [parse_args] always returns.  It prints the usage
    text and returns 1, which [main] then returns as the exit code, when
    [getopt] reports an error and when the duration the option loop ends
    with is 0: no [-t] was given, or [atoi] read 0 from the argument of the
    last one (as for text that does not start with a number).  The usage
    text starts with [argv[0]], which is the null pointer when the
    argument vector is empty.  Otherwise [parse_args] returns 0, prints
    nothing, and the duration is what [atoi] read from the last [-t]
    argument: not zero, possibly negative. *)
Theorem parse_args_nonzero_duration (env : driver) (argv : list string)
    (w : world) :
  exists rc w' r,
    parse_args env argv w = Done rc w' /\
    scan (getopt_permutes env) (tl argv) 0 r /\
    match r with
    | Some t =>
        if t =? 0
        then rc = 1 /\ stdout w' = stdout w ++ usage_text (hd_error argv)
        else rc = 0 /\ g_time_in_sec w' = t /\ stdout w' = stdout w
    | None => rc = 1 /\ stdout w' = stdout w ++ usage_text (hd_error argv)
    end /\
    (rc = 0 -> g_time_in_sec w' <> 0) /\
    (rc <> 0 -> forall fuel, main env fuel argv w = Done rc w').
Proof.
  destruct (parse_args_scan env argv w) as (rc & w' & r & Hrun & Hscan & Hres).
  exists rc, w', r. split; [assumption|]. split; [assumption|].
  split; [assumption|]. split.
  - intros ->. destruct r as [t|]; [|destruct Hres; discriminate].
    destruct (Z.eqb_spec t 0) as [Hz|Hz]; [destruct Hres; discriminate|].
    destruct Hres as (_ & -> & _). assumption.
  - intros Hrc fuel. apply main_parse_failure; assumption.
Qed.

Lemma parse_args_nonzero_duration_witness :
  exists w', main env_quiet 8 ["hotplug"; "-t"; "abc"]%string world_empty
             = Done 1 w'.
Proof.
  destruct (parse_args_nonzero_duration env_quiet
              ["hotplug"; "-t"; "abc"]%string world_empty)
    as (rc & w' & r & Hrun & _ & _ & _ & Hmain).
  assert (Hrc : rc = 1) by (vm_compute in Hrun; congruence).
  exists w'. rewrite <- Hrc. apply Hmain. rewrite Hrc. discriminate.
Defined.

(** C8, as stated, fails: a negative duration is accepted.  [atoi] reads
    -5, the only test is against zero, and [parse_args] returns 0 without
    printing anything. *)
Lemma parse_args_accepts_negative :
  parse_args env_quiet ["hotplug"; "-t"; "-5"]%string world_empty
  = Done 0 (set_g_time_in_sec (-5) world_empty) /\
  ~ 0 < g_time_in_sec (set_g_time_in_sec (-5) world_empty).
Proof.
  split; [reflexivity|]. simpl. lia.
Qed.

(** With [argc = 0] there is no program name: [getopt] ends at once, the
    duration is 0, and [usage] is handed the null pointer. *)
Example parse_args_no_arguments :
  parse_args env_quiet [] world_empty
  = Done 1 (set_stdout ["(null) options"%string; newline;
                        (tab ++ "[-t time in seconds]" ++ newline)%string]
              world_empty).
Proof. reflexivity. Qed.

(** ** Hoare rules *)

Lemma hoare_bind {A B} (P : world -> Prop) (m : M A) (Q : A -> world -> Prop)
    (f : A -> M B) (R : B -> world -> Prop) :
  hoare P m Q -> (forall a, hoare (Q a) (f a) R) -> hoare P (bind m f) R.
Proof.
  intros Hm Hf w b w2 HP H. apply bind_Done in H.
  destruct H as (a & w1 & H1 & H2). eapply Hf; [|eassumption].
  eapply Hm; eassumption.
Qed.

Lemma hoare_ret {A} (a : A) (Q : A -> world -> Prop) :
  hoare (Q a) (ret a) Q.
Proof. intros w b w' HP H. injection H as <- <-. assumption. Qed.

Lemma hoare_conseq {A} (P P' : world -> Prop) (Q Q' : A -> world -> Prop)
    (m : M A) :
  (forall w, P' w -> P w) -> (forall a w, Q a w -> Q' a w) ->
  hoare P m Q -> hoare P' m Q'.
Proof. intros HP HQ H w a w' Hw Hrun. eapply HQ, H; eauto. Qed.

Lemma hoare_foreach {A} (I : world -> Prop) (l : list A) (body : A -> M unit) :
  (forall x, In x l -> hoare I (body x) (fun _ => I)) ->
  hoare I (foreach l body) (fun _ => I).
Proof.
  induction l as [|x l IH]; intros Hb; simpl.
  - apply (hoare_ret tt (fun _ => I)).
  - eapply hoare_bind; [apply Hb; left; reflexivity|].
    intros []. apply IH. intros y Hy. apply Hb. right. assumption.
Qed.

Lemma hoare_load (P : world -> Prop) (p : Z) :
  hoare P (load p) (fun d w => P w /\ find_dev p (g_devs w) = Some d).
Proof.
  intros w d w' HP H. unfold load in H.
  destruct (find_dev p (g_devs w)) eqn:E; [|discriminate].
  injection H as <- <-. auto.
Qed.

Lemma hoare_modify (P : world -> Prop) (f : world -> world)
    (Q : unit -> world -> Prop) :
  (forall w, P w -> Q tt (f w)) -> hoare P (modify f) Q.
Proof. intros H w a w' HP E. injection E as <- <-. auto. Qed.

(** ** Lists of outstanding commands *)

Lemma outstanding_nonneg p l : 0 <= outstanding p l.
Proof. unfold outstanding. lia. Qed.

Lemma outstanding_cons p q t l :
  outstanding p ((q, t) :: l) =
  outstanding p l + (if dev t =? p then 1 else 0).
Proof.
  unfold outstanding. simpl. destruct (dev t =? p); simpl; lia.
Qed.

Lemma outstanding_app p q t l :
  outstanding p (l ++ [(q, t)]) =
  outstanding p l + (if dev t =? p then 1 else 0).
Proof.
  unfold outstanding. rewrite filter_app, length_app. simpl.
  destruct (dev t =? p); simpl; lia.
Qed.

Lemma outstanding_In p q t l :
  In (q, t) l -> dev t = p -> 1 <= outstanding p l.
Proof.
  induction l as [|[q' t'] l IH]; intros Hin Hd; [contradiction|].
  rewrite outstanding_cons. destruct Hin as [E|Hin].
  - injection E as -> ->. rewrite Hd, Z.eqb_refl.
    pose proof (outstanding_nonneg p l). lia.
  - specialize (IH Hin Hd). destruct (dev t' =? p); lia.
Qed.

Lemma take_inflight_spec q l t rest :
  take_inflight q l = Some (t, rest) ->
  In (q, t) l /\ (forall e, In e rest -> In e l) /\
  forall p, outstanding p l =
            outstanding p rest + (if dev t =? p then 1 else 0).
Proof.
  revert rest. induction l as [|[q' t'] l IH]; simpl; intros rest H;
    [discriminate|].
  destruct (Z.eqb_spec q' q) as [->|Hq].
  - injection H as <- <-. split; [left; reflexivity|].
    split; [intros e He; right; assumption|].
    intros p. apply outstanding_cons.
  - destruct (take_inflight q l) as [[t0 r]|]; [|discriminate].
    injection H as <- <-. destruct (IH r eq_refl) as (Hin & Hsub & Hcnt).
    split; [right; assumption|].
    split; [intros e [He|He]; [left; assumption|right; auto]|].
    intros p. rewrite !outstanding_cons, (Hcnt p). lia.
Qed.

Lemma take_inflight_None q l :
  take_inflight q l = None -> forall t, ~ In (q, t) l.
Proof.
  induction l as [|[q' t'] l IH]; simpl; intros H t Hin; [contradiction|].
  destruct (Z.eqb_spec q' q) as [->|Hq]; [discriminate|].
  destruct (take_inflight q l) as [[t0 r]|]; [discriminate|].
  destruct Hin as [E|Hin]; [injection E as -> ->; contradiction|].
  apply (IH eq_refl t Hin).
Qed.

(** ** More on the registry *)

Lemma find_dev_In_fst p d l : find_dev p l = Some d -> In p (map fst l).
Proof.
  induction l as [|[a x] l IH]; simpl; [discriminate|].
  destruct (Z.eqb_spec a p); [left; assumption|]. intros H. right. auto.
Qed.

Lemma find_dev_None p l : find_dev p l = None <-> ~ In p (map fst l).
Proof.
  induction l as [|[a x] l IH]; simpl.
  - split; [intros _ []|reflexivity].
  - destruct (Z.eqb_spec a p) as [E|E].
    + split; [discriminate|]. intros H. exfalso. apply H. left. assumption.
    + rewrite IH. split; [intros H [Ha|Hin]; [contradiction|auto]|].
      intros H Hin. apply H. right. assumption.
Qed.

Lemma find_dev_In p d l :
  NoDup (map fst l) -> (find_dev p l = Some d <-> In (p, d) l).
Proof.
  induction l as [|[a x] l IH]; simpl; intros Hnd.
  - split; [discriminate|intros []].
  - inversion Hnd as [|? ? Hnotin Hnd']; subst.
    destruct (Z.eqb_spec a p) as [->|E].
    + split.
      * intros H. injection H as ->. left. reflexivity.
      * intros [H|H]; [injection H as ->; reflexivity|].
        exfalso. apply Hnotin. apply (in_map fst) in H. exact H.
    + rewrite (IH Hnd'). split; [intros H; right; assumption|].
      intros [H|H]; [injection H as -> _; contradiction|assumption].
Qed.

Lemma find_dev_app q p d l :
  find_dev q (l ++ [(p, d)]) =
  match find_dev q l with
  | Some x => Some x
  | None => if p =? q then Some d else None
  end.
Proof.
  induction l as [|[a x] l IH]; simpl; [reflexivity|].
  destruct (a =? q); [reflexivity|exact IH].
Qed.

Lemma map_fst_remove_dev_incl p l :
  forall a, In a (map fst (remove_dev p l)) -> In a (map fst l).
Proof.
  induction l as [|[b x] l IH]; simpl; intros a H; [assumption|].
  destruct (b =? p); [right; assumption|].
  destruct H as [H|H]; [left; assumption|right; auto].
Qed.

Lemma NoDup_remove_dev p l :
  NoDup (map fst l) -> NoDup (map fst (remove_dev p l)).
Proof.
  induction l as [|[b x] l IH]; simpl; intros Hnd; [assumption|].
  inversion Hnd as [|? ? Hnotin Hnd']; subst.
  destruct (b =? p); [assumption|]. simpl. constructor; [|auto].
  intros H. apply Hnotin. eapply map_fst_remove_dev_incl. eassumption.
Qed.

Lemma find_dev_remove p q l :
  NoDup (map fst l) ->
  find_dev q (remove_dev p l) = if q =? p then None else find_dev q l.
Proof.
  induction l as [|[b x] l IH]; simpl; intros Hnd.
  - destruct (q =? p); reflexivity.
  - inversion Hnd as [|? ? Hnotin Hnd']; subst.
    destruct (Z.eqb_spec b p) as [->|Hbp].
    + destruct (Z.eqb_spec q p) as [->|Hqp].
      * apply find_dev_None. assumption.
      * destruct (Z.eqb_spec p q); [congruence|reflexivity].
    + simpl. destruct (Z.eqb_spec b q) as [->|Hbq].
      * destruct (Z.eqb_spec q p); [contradiction|reflexivity].
      * apply IH. assumption.
Qed.

Lemma mark_removed_fst h l l' :
  mark_removed h l = Some l' -> map fst l' = map fst l.
Proof.
  intros H. destruct (mark_removed_Some h l l' H)
    as (l1 & a & d & l2 & -> & -> & _).
  rewrite !map_app. reflexivity.
Qed.

Lemma mark_removed_find h l l' q d' :
  mark_removed h l = Some l' -> find_dev q l' = Some d' ->
  exists d, find_dev q l = Some d /\ (d' = d \/ d' = set_is_removed true d).
Proof.
  revert l'. induction l as [|[a d] l IH]; simpl; intros l' H; [discriminate|].
  destruct (ctrlr d =? h).
  - injection H as <-. simpl. destruct (a =? q).
    + intros E. injection E as <-. eauto.
    + intros E. eauto.
  - destruct (mark_removed h l) as [r|]; [|discriminate].
    injection H as <-. simpl. destruct (a =? q).
    + intros E. injection E as <-. eauto.
    + apply IH. reflexivity.
Qed.

Lemma mark_removed_find_back h l l' q d :
  mark_removed h l = Some l' -> find_dev q l = Some d ->
  exists d', find_dev q l' = Some d' /\ qpair d' = qpair d.
Proof.
  revert l'. induction l as [|[a x] l IH]; simpl; intros l' H; [discriminate|].
  destruct (ctrlr x =? h).
  - injection H as <-. simpl. destruct (a =? q).
    + intros E. injection E as <-. eauto.
    + intros E. eauto.
  - destruct (mark_removed h l) as [r|]; [|discriminate].
    injection H as <-. simpl. destruct (a =? q).
    + intros E. injection E as <-. eauto.
    + apply IH. reflexivity.
Qed.

Lemma find_dev_map (f : dev_ctx -> dev_ctx) q l :
  find_dev q (map (fun e => (fst e, f (snd e))) l) =
  match find_dev q l with Some d => Some (f d) | None => None end.
Proof.
  induction l as [|[a x] l IH]; simpl; [reflexivity|].
  destruct (a =? q); [reflexivity|exact IH].
Qed.

(** ** The invariant *)

Lemma linked_ok_weaken (P Q : Z -> dev_ctx -> Prop) w :
  (forall p d, P p d -> Q p d) -> linked_ok P w -> linked_ok Q w.
Proof.
  intros HPQ (Hnd & Hdev & Hinf & Hlog).
  split; [assumption|]. split; [|auto].
  intros p d Hf. destruct (Hdev p d Hf) as (H1 & H2 & H3). auto.
Qed.

Lemma filling_settled p0 k p d :
  0 <= k -> filling p0 k false p d -> settled p d.
Proof.
  unfold filling, settled. destruct (p =? p0); [|auto].
  intros Hk (H1 & H2). split; [lia|]. rewrite H2. discriminate.
Qed.

Lemma settled_filling p0 d0 p d l :
  find_dev p0 l = Some d0 -> is_new d0 = true ->
  find_dev p l = Some d -> settled p d ->
  filling p0 g_queue_depth true p d.
Proof.
  unfold filling, settled. intros H0 Hn Hf (H1 & H2).
  destruct (Z.eqb_spec p p0) as [->|]; [|auto].
  rewrite H0 in Hf. injection Hf as <-. rewrite (H2 Hn). split; [lia|auto].
Qed.

Section Invariant.

Variable env : driver.

Lemma submit_filling p k nw :
  1 <= k ->
  hoare (linked_ok (filling p k nw)) (submit_single_io env p)
        (fun _ => linked_ok (filling p (k - 1) nw)).
Proof.
  intros Hk w [] w' (Hnd & Hdev & Hinf & Hlog) H.
  apply submit_single_io_Done in H. destruct H as (d & Hf & _ & ->).
  destruct (Hdev p d Hf) as (Hal & Hcnt & Hfill).
  unfold filling in Hfill. rewrite Z.eqb_refl in Hfill.
  destruct Hfill as (Hroom & Hnew).
  destruct (advance_cursor_fields d)
    as (_ & Hq1 & _ & _ & Hc1 & _ & Hn1 & _).
  pose proof (outstanding_nonneg p (inflight w)) as Hpos.
  unfold submit_world.
  destruct (Z.eqb_spec (read_rc env (List.length (reads w))) 0) as [Hrc|Hrc].
  - (* accepted *)
    split; [simpl; rewrite map_fst_store_dev; assumption|].
    split; [|split; [|exact Hlog]]; simpl.
    + intros p' d'. rewrite find_dev_store, Hf, outstanding_app. simpl.
      destruct (Z.eqb_spec p' p) as [->|Hne].
      * intros E. injection E as <-. simpl.
        rewrite Z.eqb_refl. unfold filling. rewrite Z.eqb_refl. simpl.
        rewrite Hc1, Hn1. unfold wrap64.
        rewrite Z.mod_small by (unfold g_queue_depth in Hroom; lia).
        repeat split; try lia; assumption.
      * intros Hf'. destruct (Hdev p' d' Hf') as (Ha' & Hc' & Hs').
        destruct (Z.eqb_spec p p'); [congruence|].
        unfold filling in *. destruct (Z.eqb_spec p' p); [contradiction|].
        rewrite Z.add_0_r. auto.
    + intros q t Hin. apply in_app_or in Hin. destruct Hin as [Hin|[E|[]]].
      * destruct (Hinf q t Hin) as (d' & Hf' & Hq').
        rewrite find_dev_store, Hf.
        destruct (Z.eqb_spec (dev t) p) as [E|E].
        -- eexists. split; [reflexivity|]. simpl. rewrite Hq1.
           rewrite E, Hf in Hf'. injection Hf' as <-. assumption.
        -- eauto.
      * injection E as <- <-. simpl.
        rewrite find_dev_store, Hf, Z.eqb_refl.
        eexists. split; [reflexivity|]. simpl. assumption.
  - (* refused *)
    split; [simpl; rewrite map_fst_store_dev; assumption|].
    split; [|split; [|exact Hlog]]; simpl.
    + intros p' d'. rewrite find_dev_store, Hf.
      destruct (Z.eqb_spec p' p) as [->|Hne].
      * intros E. injection E as <-.
        unfold filling. rewrite Z.eqb_refl, Hc1, Hn1.
        repeat split; try lia; assumption.
      * intros Hf'. destruct (Hdev p' d' Hf') as (Ha' & Hc' & Hs').
        unfold filling in *. destruct (Z.eqb_spec p' p); [contradiction|].
        auto.
    + intros q t Hin. destruct (Hinf q t Hin) as (d' & Hf' & Hq').
      rewrite find_dev_store, Hf.
      destruct (Z.eqb_spec (dev t) p) as [E|E].
      * eexists. split; [reflexivity|]. rewrite Hq1.
        rewrite E, Hf in Hf'. injection Hf' as <-. assumption.
      * eauto.
Qed.

Lemma burst_filling p nw (n : nat) :
  hoare (linked_ok (filling p (Z.of_nat n) nw))
        (times n (submit_single_io env p))
        (fun _ => linked_ok (filling p 0 nw)).
Proof.
  induction n as [|n IH].
  - apply (hoare_ret tt (fun _ => linked_ok (filling p 0 nw))).
  - simpl times. eapply hoare_bind.
    + apply (submit_filling p (Z.of_nat (S n)) nw). lia.
    + intros []. replace (Z.of_nat (S n) - 1) with (Z.of_nat n) by lia.
      exact IH.
Qed.

(** The state between the removal of a completed command from the driver
    and the decision of [task_complete] to submit again. *)
Lemma complete_filling q t rest d w :
  Inv w ->
  take_inflight q (inflight w) = Some (t, rest) ->
  find_dev (dev t) (g_devs w) = Some d ->
  linked_ok (filling (dev t) 1 false)
            (complete_world t d (set_inflight rest w)).
Proof.
  intros (Hnd & Hdev & Hinf & Hlog) Htake Hf.
  destruct (take_inflight_spec _ _ _ _ Htake) as (Hin & Hsub & Hcnt).
  destruct (Hdev _ _ Hf) as (Hal & Hc & Hle & Hnew).
  pose proof (outstanding_In (dev t) q t _ Hin eq_refl) as Hone.
  assert (Hn : is_new d = false).
  { destruct (is_new d); [|reflexivity]. specialize (Hnew eq_refl). lia. }
  unfold complete_world.
  split; [simpl; rewrite map_fst_store_dev; assumption|].
  split; [|split; [|exact Hlog]]; simpl.
  - intros p' d'. rewrite find_dev_store, Hf. specialize (Hcnt p').
    destruct (Z.eqb_spec p' (dev t)) as [->|Hne].
    + intros E. injection E as <-.
      rewrite Z.eqb_refl in Hcnt. unfold filling. rewrite Z.eqb_refl.
      unfold completed_dev. simpl.
      unfold wrap64. rewrite Z.mod_small by (unfold g_queue_depth in Hle; lia).
      repeat split; try lia; assumption.
    + intros Hf'. destruct (Hdev p' d' Hf') as (Ha' & Hc' & Hs').
      destruct (Z.eqb_spec (dev t) p'); [congruence|].
      unfold filling. destruct (Z.eqb_spec p' (dev t)); [contradiction|].
      repeat split; try lia; apply Hs'.
  - intros q' t' Hin'. destruct (Hinf q' t' (Hsub _ Hin')) as (d' & Hf' & Hq').
    rewrite find_dev_store, Hf.
    destruct (Z.eqb_spec (dev t') (dev t)) as [E|E].
    + eexists. split; [reflexivity|]. simpl.
      rewrite E, Hf in Hf'. injection Hf' as <-. assumption.
    + eauto.
Qed.

Lemma complete_Inv q t rest w w' :
  Inv w ->
  take_inflight q (inflight w) = Some (t, rest) ->
  task_complete env t (set_inflight rest w) = Done tt w' ->
  Inv w'.
Proof.
  intros HI Htake H.
  destruct (take_inflight_spec _ _ _ _ Htake) as (Hin & _).
  destruct HI as (Hnd & Hdev & Hinf & Hlog).
  destruct (Hinf q t Hin) as (d & Hf & Hq).
  pose proof (complete_filling q t rest d w
                (conj Hnd (conj Hdev (conj Hinf Hlog))) Htake Hf) as Hfill.
  rewrite (task_complete_eq env t (set_inflight rest w) d Hf) in H.
  destruct (resubmits d).
  - apply (submit_filling (dev t) 1 false ltac:(lia) _ tt w' Hfill) in H.
    eapply linked_ok_weaken; [|exact H].
    intros p' d'. apply filling_settled. lia.
  - injection H as <-.
    eapply linked_ok_weaken; [|exact Hfill].
    intros p' d'. apply filling_settled. lia.
Qed.

Lemma deliver_Inv q (n : nat) :
  hoare Inv (deliver (io_complete env) q n) (fun _ => Inv).
Proof.
  induction n as [|n IH]; intros w [] w' HI H; simpl in H.
  - injection H as <-. assumption.
  - destruct (take_inflight q (inflight w)) as [[t rest]|] eqn:Htake.
    + apply bind_Done in H. destruct H as ([] & w1 & H1 & H2).
      apply (IH w1 tt w'); [|assumption].
      eapply complete_Inv; eassumption.
    + injection H as <-. assumption.
Qed.

Lemma Inv_set_polls n w : Inv w -> Inv (set_polls n w).
Proof. intros H. exact H. Qed.

Lemma check_io_Inv p : hoare Inv (check_io env p) (fun _ => Inv).
Proof.
  intros w [] w' HI H. unfold check_io in H.
  apply bind_Done in H. destruct H as (d & w1 & H1 & H2).
  apply (hoare_load Inv p w d w1 HI) in H1. destruct H1 as (HI1 & _).
  unfold spdk_nvme_qpair_process_completions in H2.
  eapply deliver_Inv; [|exact H2]. apply Inv_set_polls. assumption.
Qed.

Lemma linked_ok_store (P Q : Z -> dev_ctx -> Prop) p d d' w :
  linked_ok P w ->
  find_dev p (g_devs w) = Some d ->
  current_queue_depth d' = current_queue_depth d ->
  qpair d' = qpair d ->
  (P p d -> Q p d') ->
  (forall p' x, p' <> p -> P p' x -> Q p' x) ->
  linked_ok Q (set_g_devs (store_dev p d' (g_devs w)) w).
Proof.
  intros (Hnd & Hdev & Hinf & Hlog) Hf Hc Hq Hp Hother.
  split; [simpl; rewrite map_fst_store_dev; assumption|].
  split; [|split; [|exact Hlog]]; simpl.
  - intros p' x. rewrite find_dev_store, Hf.
    destruct (Z.eqb_spec p' p) as [->|Hne].
    + intros E. injection E as <-.
      destruct (Hdev p d Hf) as (H1 & H2 & H3).
      split; [assumption|]. split; [congruence|auto].
    + intros Hf'. destruct (Hdev p' x Hf') as (H1 & H2 & H3). auto.
  - intros q t Hin. destruct (Hinf q t Hin) as (x & Hx & Hqx).
    rewrite find_dev_store, Hf.
    destruct (Z.eqb_spec (dev t) p) as [E|E].
    + eexists. split; [reflexivity|].
      rewrite E, Hf in Hx. injection Hx as <-. congruence.
    + eauto.
Qed.

Lemma first_burst_Inv p : hoare Inv (first_burst env p) (fun _ => Inv).
Proof.
  unfold first_burst.
  eapply hoare_bind; [apply hoare_load|]. intros d.
  destruct (is_new d) eqn:Hn.
  - intros w [] w' (HI & Hf) H.
    apply bind_Done in H. destruct H as ([] & w1 & H1 & H2).
    assert (Hfill : linked_ok (filling p g_queue_depth true) w).
    { destruct HI as (Hnd & Hdev & Hinf & Hlog).
      split; [assumption|]. split; [|auto].
      intros p' d' Hf'. destruct (Hdev p' d' Hf') as (Ha & Hc & Hs).
      split; [assumption|]. split; [assumption|].
      eapply settled_filling; eassumption. }
    apply (burst_filling p true (Z.to_nat g_queue_depth) w tt w1) in H1;
      [|exact Hfill].
    apply bind_Done in H2. destruct H2 as (d1 & w2 & H2 & H3).
    apply (hoare_load (linked_ok (filling p 0 true)) p w1 d1 w2 H1) in H2.
    destruct H2 as (HI2 & Hf2).
    unfold store, modify in H3. injection H3 as <-.
    eapply (linked_ok_store (filling p 0 true) settled p d1); eauto.
    + unfold filling, settled. rewrite Z.eqb_refl. simpl.
      intros (Hle & _). split; [lia|discriminate].
    + intros p' x Hne. unfold filling.
      destruct (Z.eqb_spec p' p); [contradiction|auto].
  - intros w [] w' (HI & _) H. injection H as <-. assumption.
Qed.

Lemma drain_loop_Inv (fuel : nat) p :
  hoare Inv (drain_loop env fuel p)
        (fun _ w => Inv w /\
                    exists d, find_dev p (g_devs w) = Some d /\
                              current_queue_depth d = 0).
Proof.
  induction fuel as [|fuel IH]; intros w [] w' HI H; cbn [drain_loop] in H;
    apply bind_Done in H; destruct H as (d & w1 & H1 & H2);
    apply (hoare_load Inv p w d w1 HI) in H1; destruct H1 as (HI1 & Hf).
  - destruct (Z.ltb_spec 0 (current_queue_depth d)) as [Hpos|Hz];
      [discriminate|].
    injection H2 as <-. split; [assumption|]. exists d. split; [assumption|].
    destruct HI1 as (_ & Hdev & _). destruct (Hdev p d Hf) as (_ & Hc & _).
    pose proof (outstanding_nonneg p (inflight w1)). lia.
  - destruct (Z.ltb_spec 0 (current_queue_depth d)) as [Hpos|Hz].
    + apply bind_Done in H2. destruct H2 as ([] & w2 & H2 & H3).
      apply (IH w2 tt w'); [|assumption].
      eapply check_io_Inv; eassumption.
    + injection H2 as <-. split; [assumption|]. exists d. split; [assumption|].
      destruct HI1 as (_ & Hdev & _). destruct (Hdev p d Hf) as (_ & Hc & _).
      pose proof (outstanding_nonneg p (inflight w1)). lia.
Qed.

Lemma drain_io_Inv (fuel : nat) p :
  hoare Inv (drain_io env fuel p)
        (fun _ w => Inv w /\
                    exists d, find_dev p (g_devs w) = Some d /\
                              current_queue_depth d = 0).
Proof.
  unfold drain_io.
  eapply hoare_bind; [apply hoare_load|]. intros d.
  eapply hoare_bind with (Q := fun _ => Inv);
    [|intros []; apply drain_loop_Inv].
  apply hoare_modify. intros w (HI & Hf).
  eapply (linked_ok_store settled settled p d); eauto.
Qed.

End Invariant.

Lemma outstanding_none p l :
  (forall q t, In (q, t) l -> dev t <> p) -> outstanding p l = 0.
Proof.
  induction l as [|[q t] l IH]; intros H; [reflexivity|].
  rewrite outstanding_cons, IH.
  - destruct (Z.eqb_spec (dev t) p) as [E|E]; [|reflexivity].
    exfalso. apply (H q t); [left; reflexivity|assumption].
  - intros q' t' Hin. apply (H q' t'). right. assumption.
Qed.

Lemma NoDup_snoc {A} (a : A) l : NoDup l -> ~ In a l -> NoDup (l ++ [a]).
Proof.
  induction l as [|x l IH]; simpl; intros Hnd Hin.
  - constructor; [intros []|constructor].
  - inversion Hnd as [|? ? Hx Hl]; subst. constructor.
    + intros H. apply in_app_or in H. destruct H as [H|[H|[]]]; [auto|].
      apply Hin. left. congruence.
    + apply IH; [assumption|]. intros H. apply Hin. right. assumption.
Qed.

Lemma unregister_dev_Inv p :
  hoare (fun w => Inv w /\
                  exists d, find_dev p (g_devs w) = Some d /\
                            current_queue_depth d = 0)
        (unregister_dev p) (fun _ => Inv).
Proof.
  intros w [] w' ((Hnd & Hdev & Hinf & Hlog) & d & Hf & Hz) H.
  unfold unregister_dev, bind, load, spdk_nvme_ctrlr_free_io_qpair,
    spdk_nvme_detach, free, modify in H.
  rewrite Hf in H. simpl in H. injection H as <-.
  assert (Hnone : forall q t, In (q, t) (inflight w) -> dev t <> p).
  { intros q t Hin E. pose proof (outstanding_In p q t _ Hin E) as H1.
    destruct (Hdev p d Hf) as (_ & Hc & _). lia. }
  split; [simpl; apply NoDup_remove_dev; assumption|].
  split; [|split]; simpl.
  - intros p' x. rewrite (find_dev_remove p p' _ Hnd).
    destruct (p' =? p); [discriminate|]. apply Hdev.
  - intros q t Hin. destruct (Hinf q t Hin) as (x & Hx & Hq).
    exists x. rewrite (find_dev_remove p (dev t) _ Hnd).
    destruct (Z.eqb_spec (dev t) p) as [E|E]; [|auto].
    exfalso. apply (Hnone q t Hin E).
  - apply Forall_app. split; [assumption|].
    constructor; [exact Hz|constructor].
Qed.

Lemma sweep_dev_Inv p : hoare Inv (sweep_dev p) (fun _ => Inv).
Proof.
  unfold sweep_dev.
  eapply hoare_bind; [apply hoare_load|]. intros d.
  destruct (is_removed d); simpl.
  - destruct (Z.eqb_spec (current_queue_depth d) 0) as [Hz|Hz].
    + eapply hoare_conseq; [| |apply unregister_dev_Inv].
      * intros w (HI & Hf). split; [assumption|]. eauto.
      * auto.
    + intros w [] w' (HI & _) H. injection H as <-. assumption.
  - intros w [] w' (HI & _) H. injection H as <-. assumption.
Qed.

Lemma remove_cb_Inv h : hoare Inv (remove_cb h) (fun _ => Inv).
Proof.
  intros w [] w' (Hnd & Hdev & Hinf & Hlog) H. unfold remove_cb in H.
  destruct (mark_removed h (g_devs w)) as [l|] eqn:Hm.
  - injection H as <-.
    split; [simpl; rewrite (mark_removed_fst _ _ _ Hm); assumption|].
    split; [|split; [|exact Hlog]]; simpl.
    + intros p d' Hf'.
      destruct (mark_removed_find _ _ _ _ _ Hm Hf') as (d & Hf & Hd).
      destruct (Hdev p d Hf) as (H1 & H2 & H3 & H4).
      destruct Hd as [->| ->]; unfold settled; simpl; auto.
    + intros q t Hin. destruct (Hinf q t Hin) as (d & Hf & Hq).
      destruct (mark_removed_find_back _ _ _ _ _ Hm Hf) as (d' & Hf' & Hq').
      exists d'. split; [assumption|congruence].
  - unfold spdk_nvme_detach, modify in H. injection H as <-.
    split; [assumption|]. split; [assumption|]. split; assumption.
Qed.

Lemma print_stats_Inv : hoare Inv print_stats (fun _ => Inv).
Proof.
  apply hoare_modify. intros w (Hnd & Hdev & Hinf & Hlog).
  split; [simpl; rewrite map_map; simpl; assumption|].
  split; [|split; [|exact Hlog]]; simpl.
  - intros p d'.
    rewrite (find_dev_map (fun x => set_prev_io_completed (io_completed x) x)).
    destruct (find_dev p (g_devs w)) as [d|] eqn:Hf; [|discriminate].
    intros E. injection E as <-. apply (Hdev p d Hf).
  - intros q t Hin. destruct (Hinf q t Hin) as (d & Hf & Hq).
    rewrite (find_dev_map (fun x => set_prev_io_completed (io_completed x) x)),
      Hf.
    eexists. split; [reflexivity|]. assumption.
Qed.

Section Invariant2.

Variable env : driver.

Lemma Inv_more_allocs w :
  Inv w -> Inv (set_allocs (S (allocs w)) w).
Proof.
  intros (Hnd & Hdev & Hinf & Hlog).
  split; [assumption|]. split; [|split; assumption].
  intros p d Hf. destruct (Hdev p d Hf) as (H1 & H2 & H3).
  simpl. split; [lia|auto].
Qed.

Lemma register_dev_Inv c : hoare Inv (register_dev env c) (fun _ => Inv).
Proof.
  intros w [] w' HI H.
  unfold register_dev, bind, calloc in H.
  destruct (calloc_null env (allocs w)); [discriminate|].
  remember (Z.of_nat (S (allocs w))) as p0 eqn:Hp0. simpl in H.
  pose proof (Inv_more_allocs w HI) as HI1.
  set (w1 := set_allocs (S (allocs w)) w) in *.
  assert (Hfree : forall p, Inv (set_frees (frees w1 ++ [p]) w1)) by
    (intros p; exact HI1).
  unfold free, modify, fault, spdk_nvme_ctrlr_alloc_io_qpair in H.
  destruct ((c_ns c =? 0) || negb (c_ns_active c));
    [injection H as <-; apply Hfree|].
  destruct ((spdk_nvme_ns_get_size c <? g_io_size_bytes)
            || (g_io_size_bytes <? spdk_nvme_ns_get_sector_size c));
    [injection H as <-; apply Hfree|].
  destruct (spdk_nvme_ns_get_sector_size c =? 0); [discriminate|].
  simpl in H.
  destruct (c_qpair c =? 0); injection H as <-; [exact HI1|].
  destruct HI as (Hnd & Hdev & Hinf & Hlog). clear HI1 Hfree. subst w1.
  assert (Hfresh : find_dev p0 (g_devs w) = None).
  { destruct (find_dev p0 (g_devs w)) as [x|] eqn:E; [|reflexivity].
    destruct (Hdev _ _ E) as (Hle & _). lia. }
  split; [|split; [|split; [|exact Hlog]]]; simpl.
  - rewrite map_app. simpl. apply NoDup_snoc; [assumption|].
    apply find_dev_None. assumption.
  - intros p d. rewrite find_dev_app.
    destruct (find_dev p (g_devs w)) as [x|] eqn:Hf.
    + intros E. injection E as <-. destruct (Hdev p x Hf) as (H1 & H2 & H3).
      split; [lia|auto].
    + destruct (Z.eqb_spec p0 p) as [E|E]; [|discriminate].
      intros E'. injection E' as <-. simpl.
      split; [lia|].
      split; [|unfold settled, g_queue_depth; simpl; split; [lia|reflexivity]].
      symmetry. apply outstanding_none. intros q t Hin Hd.
      destruct (Hinf q t Hin) as (x & Hx & _).
      rewrite Hd, <- E, Hfresh in Hx. discriminate.
  - intros q t Hin. destruct (Hinf q t Hin) as (x & Hx & Hq).
    exists x. rewrite find_dev_app, Hx. auto.
Qed.

Lemma probe_Inv :
  hoare Inv (spdk_nvme_probe env probe_cb (attach_cb env) remove_cb)
        (fun _ => Inv).
Proof.
  intros w rc w' HI H. unfold spdk_nvme_probe in H.
  apply bind_Done in H. destruct H as ([] & w1 & H1 & H2).
  injection H2 as _ <-.
  eapply (hoare_foreach Inv); [| |exact H1]; [|exact HI].
  intros [c|h] _; [|apply remove_cb_Inv].
  unfold probe_cb. apply register_dev_Inv.
Qed.

Lemma step_Inv w w' : step env w w' -> Inv w -> Inv w'.
Proof.
  intros [p H|p H|rc H|p H|t H|H|fuel p H|fuel p H] HI.
  - eapply first_burst_Inv; eassumption.
  - eapply check_io_Inv; eassumption.
  - eapply probe_Inv; eassumption.
  - eapply sweep_dev_Inv; eassumption.
  - unfold spdk_get_ticks in H. injection H as _ <-. exact HI.
  - eapply print_stats_Inv; eassumption.
  - eapply drain_io_Inv; eassumption.
  - apply bind_Done in H. destruct H as ([] & w1 & H1 & H2).
    eapply unregister_dev_Inv; [|exact H2].
    eapply drain_io_Inv; eassumption.
Qed.

Lemma initial_Inv w : initial w -> Inv w.
Proof.
  intros (Hd & Hi & Hu).
  split; [rewrite Hd; constructor|].
  split; [rewrite Hd; discriminate|].
  split; [rewrite Hi; intros ? ? []|rewrite Hu; constructor].
Qed.

Lemma reachable_Inv w : reachable env w -> Inv w.
Proof.
  induction 1 as [w Hi|w w' _ IH Hs].
  - apply initial_Inv. assumption.
  - eapply step_Inv; eassumption.
Qed.

End Invariant2.

(** ** Queue depth bounds *)

Lemma burst_reads (env : driver) p (n : nat) :
  forall w w',
    times n (submit_single_io env p) w = Done tt w' ->
    List.length (reads w') = (List.length (reads w) + n)%nat.
Proof.
  induction n as [|n IH]; intros w w' H; simpl in H.
  - injection H as <-. lia.
  - apply bind_Done in H. destruct H as ([] & w1 & H1 & H2).
    rewrite (IH _ _ H2).
    apply submit_single_io_Done in H1. destruct H1 as (d & _ & _ & ->).
    unfold submit_world. destruct (_ =? 0); simpl; rewrite length_app; simpl; lia.
Qed.

Lemma service_dev_steps (env : driver) p w w' :
  reachable env w -> service_dev env p w = Done tt w' -> reachable env w'.
Proof.
  intros Hr H. unfold service_dev in H.
  apply bind_Done in H. destruct H as ([] & w1 & H1 & H2).
  eapply reach_step; [|eapply step_check; exact H2].
  eapply reach_step; [exact Hr|]. eapply step_burst. exact H1.
Defined.

Lemma reachable_world_serviced : reachable env_plug world_serviced.
Proof.
  - apply (service_dev_steps env_plug 1 world_probed world_serviced).
    + eapply reach_step.
      * apply (reach_initial env_plug world_pool). repeat split.
      * apply (step_probe env_plug world_pool world_probed 0). reflexivity.
    + reflexivity.
Defined.

(** C1. In every state a run can be observed in, the queue depth of every
    registered device is the number of its commands the driver holds, lies
    between 0 and [g_queue_depth], and is 0 for a device that has not had
    its first burst; that burst is [g_queue_depth] calls of
    [submit_single_io]. *)
Theorem queue_depth_bounded (env : driver) (w : world) :
  reachable env w ->
  forall p d, In (p, d) (g_devs w) ->
    0 <= current_queue_depth d <= g_queue_depth /\
    current_queue_depth d = outstanding p (inflight w) /\
    (is_new d = true ->
     current_queue_depth d = 0 /\
     forall w', submit_io env p g_queue_depth w = Done tt w' ->
                List.length (reads w') = (List.length (reads w) + 4)%nat).
Proof.
  intros Hr p d Hin.
  destruct (reachable_Inv env w Hr) as (Hnd & Hdev & _).
  apply (find_dev_In p d _ Hnd) in Hin.
  destruct (Hdev p d Hin) as (_ & Hc & Hle & Hnew).
  pose proof (outstanding_nonneg p (inflight w)) as Hpos.
  split; [lia|]. split; [assumption|]. intros Hn.
  split; [auto|]. intros w' H. apply (burst_reads env p _ _ _ H).
Qed.

Lemma queue_depth_bounded_witness :
  0 <= 4 <= g_queue_depth /\ 4 = outstanding 1 (inflight world_serviced).
Proof.
  destruct (queue_depth_bounded env_plug world_serviced
              reachable_world_serviced 1
              (mk_dev false false false 100 200 300 8 10 1 0 4 5))
    as (H1 & H2 & _).
  - left. reflexivity.
  - split; assumption.
Defined.

(** ** Unregistration *)

Lemma unregister_dev_effect p w w' :
  unregister_dev p w = Done tt w' ->
  exists d,
    find_dev p (g_devs w) = Some d /\
    g_devs w' = remove_dev p (g_devs w) /\
    qpair_frees w' = qpair_frees w ++ [qpair d] /\
    detaches w' = detaches w ++ [ctrlr d] /\
    frees w' = frees w ++ [p] /\
    unregistered w' = unregistered w ++ [(p, d)].
Proof.
  unfold unregister_dev, bind, load, spdk_nvme_ctrlr_free_io_qpair,
    spdk_nvme_detach, free, modify.
  destruct (find_dev p (g_devs w)) as [d|]; [|discriminate].
  simpl. intros H. injection H as <-. exists d. simpl. repeat split.
Qed.

Lemma sweep_dev_cases p w w' :
  sweep_dev p w = Done tt w' ->
  w' = w \/
  exists d, find_dev p (g_devs w) = Some d /\
            is_removed d = true /\ current_queue_depth d = 0 /\
            unregister_dev p w = Done tt w'.
Proof.
  unfold sweep_dev, bind, load at 1.
  destruct (find_dev p (g_devs w)) as [d|] eqn:Hf; [|discriminate].
  destruct (is_removed d) eqn:Hrem; simpl.
  - destruct (Z.eqb_spec (current_queue_depth d) 0) as [Hz|Hz].
    + intros H. right. exists d. repeat split; assumption.
    + intros H. injection H as <-. left. reflexivity.
  - intros H. injection H as <-. left. reflexivity.
Qed.

Lemma reachable_world_shutdown : reachable env_plug world_shutdown.
Proof.
  eapply reach_step; [exact reachable_world_serviced|].
  apply (step_shutdown env_plug world_serviced world_shutdown 8 1).
  reflexivity.
Defined.

(** C4. Every descriptor that was unregistered had nothing outstanding at
    that moment.  The removal sweep unregisters a descriptor only when
    [is_removed] is set and the queue depth is 0; the shutdown loop
    unregisters after [drain_io] has returned, which it does with queue
    depth 0.  Unregistering frees the queue pair, detaches the controller,
    unlinks the descriptor and frees it. *)
Theorem unregister_only_when_idle (env : driver) (w : world) :
  reachable env w ->
  Forall idle (unregistered w) /\
  (forall p w',
     sweep_dev p w = Done tt w' ->
     w' = w \/
     exists d, find_dev p (g_devs w) = Some d /\
               is_removed d = true /\ current_queue_depth d = 0 /\
               unregister_dev p w = Done tt w') /\
  (forall fuel p w1 w',
     drain_io env fuel p w = Done tt w1 ->
     unregister_dev p w1 = Done tt w' ->
     exists d, find_dev p (g_devs w1) = Some d /\
               current_queue_depth d = 0 /\
               g_devs w' = remove_dev p (g_devs w1) /\
               qpair_frees w' = qpair_frees w1 ++ [qpair d] /\
               detaches w' = detaches w1 ++ [ctrlr d] /\
               frees w' = frees w1 ++ [p] /\
               unregistered w' = unregistered w1 ++ [(p, d)]).
Proof.
  intros Hr. pose proof (reachable_Inv env w Hr) as HI.
  split; [apply HI|]. split; [intros p w'; apply sweep_dev_cases|].
  intros fuel p w1 w' Hd Hu.
  destruct (drain_io_Inv env fuel p w tt w1 HI Hd) as (_ & d & Hf & Hz).
  destruct (unregister_dev_effect p w1 w' Hu) as (d' & Hf' & H1 & H2 & H3 & H4 & H5).
  rewrite Hf in Hf'. injection Hf' as <-.
  exists d. repeat split; assumption.
Qed.

Lemma unregister_only_when_idle_witness :
  Forall idle (unregistered world_shutdown).
Proof.
  apply (unregister_only_when_idle env_plug world_shutdown).
  exact reachable_world_shutdown.
Defined.

(** ** A run of [io_loop] goes through observable states only *)

Section Runs.

Variable env : driver.

Lemma foreach_reachable {A} (body : A -> M unit) (l : list A) :
  (forall x w w', reachable env w -> body x w = Done tt w' ->
                  reachable env w') ->
  forall w w', reachable env w -> foreach l body w = Done tt w' ->
               reachable env w'.
Proof.
  intros Hb. induction l as [|x l IH]; intros w w' Hr H; simpl in H.
  - injection H as <-. assumption.
  - apply bind_Done in H. destruct H as ([] & w1 & H1 & H2).
    apply (IH w1 w'); [|assumption]. eapply Hb; eassumption.
Qed.

Lemma io_loop_passes_reachable (fuel : nat) :
  forall tsc_end next_stats_tsc w w',
    reachable env w ->
    io_loop_passes env fuel tsc_end next_stats_tsc w = Done tt w' ->
    reachable env w'.
Proof.
  induction fuel as [|fuel IH]; intros te nx w w' Hr H; [discriminate|].
  cbn [io_loop_passes] in H.
  apply bind_Done in H. destruct H as (ps & w1 & H1 & H).
  injection H1 as <- <-.
  apply bind_Done in H. destruct H as ([] & w2 & H2 & H).
  apply (foreach_reachable _ _ (service_dev_steps env) _ _ Hr) in H2.
  apply bind_Done in H. destruct H as (rc & w3 & H3 & H).
  pose proof (reach_step env _ _ H2 (step_probe env _ _ rc H3)) as Hr3.
  destruct (negb (rc =? 0)); [injection H as <-; assumption|].
  apply bind_Done in H. destruct H as (ps' & w4 & H4 & H).
  injection H4 as <- <-.
  apply bind_Done in H. destruct H as ([] & w5 & H5 & H).
  apply (foreach_reachable _ _
           (fun p a b Ha Hb => reach_step env a b Ha (step_sweep env a b p Hb))
           _ _ Hr3) in H5.
  apply bind_Done in H. destruct H as (now & w6 & H6 & H).
  pose proof (reach_step env _ _ H5 (step_ticks env _ _ now H6)) as Hr6.
  destruct (te <? now); [injection H as <-; assumption|].
  destruct (nx <? now).
  - apply bind_Done in H. destruct H as ([] & w7 & H7 & H).
    pose proof (reach_step env _ _ Hr6 (step_stats env _ _ H7)) as Hr7.
    apply bind_Done in H. destruct H as (wg & w8 & H8 & H).
    injection H8 as <- <-.
    eapply IH; eassumption.
  - eapply IH; eassumption.
Qed.

Lemma io_loop_shutdown_reachable (fuel : nat) w w' :
  reachable env w -> io_loop_shutdown env fuel w = Done tt w' ->
  reachable env w'.
Proof.
  intros Hr H. unfold io_loop_shutdown in H.
  apply bind_Done in H. destruct H as (ps & w1 & H1 & H).
  injection H1 as <- <-.
  eapply foreach_reachable; [|exact Hr|exact H].
  intros p w0 w0' Hr0 Hp. eapply reach_step; [exact Hr0|].
  eapply step_shutdown. exact Hp.
Qed.

Lemma io_loop_reachable (fuel : nat) w rc w' :
  reachable env w -> io_loop env fuel w = Done rc w' -> reachable env w'.
Proof.
  intros Hr H. unfold io_loop in H.
  apply bind_Done in H. destruct H as (t0 & w1 & H1 & H).
  pose proof (reach_step env _ _ Hr (step_ticks env _ _ t0 H1)) as Hr1.
  apply bind_Done in H. destruct H as (wg & w2 & H2 & H).
  injection H2 as <- <-.
  apply bind_Done in H. destruct H as (t1 & w3 & H3 & H).
  pose proof (reach_step env _ _ Hr1 (step_ticks env _ _ t1 H3)) as Hr3.
  apply bind_Done in H. destruct H as ([] & w4 & H4 & H).
  apply (io_loop_passes_reachable _ _ _ _ _ Hr3) in H4.
  apply bind_Done in H. destruct H as ([] & w5 & H5 & H).
  apply (io_loop_shutdown_reachable _ _ _ H4) in H5.
  injection H as _ <-. assumption.
Qed.

End Runs.

(** ** Shutdown drains and unregisters everything *)

Lemma shape_store p d d' l :
  find_dev p l = Some d -> qpair d' = qpair d ->
  shape (store_dev p d' l) = shape l.
Proof.
  intros Hf Hq. induction l as [|[a x] l IH]; simpl in *; [reflexivity|].
  destruct (a =? p); simpl.
  - injection Hf as ->. rewrite Hq. reflexivity.
  - rewrite IH by assumption. reflexivity.
Qed.

Lemma shape_fst l : map fst (shape l) = map fst l.
Proof. unfold shape. rewrite map_map. reflexivity. Qed.

Lemma shape_find p d l : find_dev p l = Some d -> In (p, qpair d) (shape l).
Proof.
  induction l as [|[a x] l IH]; simpl; [discriminate|].
  destruct (Z.eqb_spec a p) as [->|].
  - intros E. injection E as ->. left. reflexivity.
  - intros H. right. auto.
Qed.

Lemma NoDup_snd_inj {A B} (l : list (A * B)) a1 a2 b :
  NoDup (map snd l) -> In (a1, b) l -> In (a2, b) l -> a1 = a2.
Proof.
  induction l as [|[a b'] l IH]; simpl; intros Hnd H1 H2; [contradiction|].
  inversion Hnd as [|? ? Hnotin Hnd']; subst.
  destruct H1 as [E1|H1], H2 as [E2|H2].
  - congruence.
  - injection E1 as -> ->. exfalso. apply Hnotin.
    apply (in_map snd) in H2. exact H2.
  - injection E2 as -> ->. exfalso. apply Hnotin.
    apply (in_map snd) in H1. exact H1.
  - auto.
Qed.

Lemma NoDup_snd_shape_remove p l :
  NoDup (map snd (shape l)) -> NoDup (map snd (shape (remove_dev p l))).
Proof.
  induction l as [|[a x] l IH]; simpl; intros Hnd; [assumption|].
  inversion Hnd as [|? ? Hnotin Hnd']; subst.
  destruct (a =? p); [assumption|]. simpl. constructor; [|auto].
  intros H. apply Hnotin. clear - H.
  induction l as [|[b y] l IH]; simpl in *; [assumption|].
  destruct (b =? p); [right; assumption|].
  destruct H as [H|H]; [left; assumption|right; auto].
Qed.

Section Shutdown.

Variable env : driver.
Hypothesis Hresp : responsive env.

(** Completions delivered to the queue pair of a draining device. *)
Lemma deliver_draining (n : nat) :
  forall p d w,
    drain_ready w ->
    find_dev p (g_devs w) = Some d ->
    is_draining d = true ->
    exists w' d',
      deliver (io_complete env) (qpair d) n w = Done tt w' /\
      drain_ready w' /\
      shape (g_devs w') = shape (g_devs w) /\
      find_dev p (g_devs w') = Some d' /\
      is_draining d' = true /\ qpair d' = qpair d /\
      current_queue_depth d' =
      current_queue_depth d - Z.min (Z.of_nat n) (current_queue_depth d).
Proof.
  induction n as [|n IH]; intros p d w (HI & Hq) Hf Hdr.
  - exists w, d. cbn [deliver]. unfold ret.
    assert (HI' := HI). destruct HI' as (Hnd & Hdev & Hinf & Hlog).
    destruct (Hdev p d Hf) as (_ & Hc & _).
    pose proof (outstanding_nonneg p (inflight w)).
    split; [reflexivity|]. split; [split; assumption|].
    repeat split; try assumption. lia.
  - cbn [deliver].
    destruct (take_inflight (qpair d) (inflight w)) as [[t rest]|] eqn:Htake.
    + destruct (take_inflight_spec _ _ _ _ Htake) as (Hin & Hsub & Hcnt).
      assert (HI' := HI). destruct HI' as (Hnd & Hdev & Hinf & Hlog).
      destruct (Hinf _ _ Hin) as (dx & Hfx & Hqx).
      assert (Hp : dev t = p).
      { apply (NoDup_snd_inj (shape (g_devs w)) (dev t) p (qpair d) Hq).
        - rewrite <- Hqx. apply shape_find. assumption.
        - apply shape_find. assumption. }
      rewrite Hp, Hf in Hfx. injection Hfx as <-.
      assert (Hft : find_dev (dev t) (g_devs (set_inflight rest w)) = Some d)
        by (rewrite Hp; exact Hf).
      pose proof (task_complete_eq env t (set_inflight rest w) d Hft) as Heq.
      unfold resubmits in Heq. rewrite Hdr in Heq. simpl in Heq.
      assert (HI1 : Inv (complete_world t d (set_inflight rest w))).
      { eapply (complete_Inv env (qpair d) t rest w); eassumption. }
      destruct (Hdev p d Hf) as (_ & Hc & Hle & _).
      pose proof (outstanding_In p (qpair d) t _ Hin Hp) as Hone.
      assert (Hf1 : find_dev p (g_devs (complete_world t d (set_inflight rest w)))
                    = Some (completed_dev d)).
      { unfold complete_world. simpl. rewrite Hp.
        eapply find_dev_store_same. eassumption. }
      assert (Hsh : shape (g_devs (complete_world t d (set_inflight rest w)))
                    = shape (g_devs w)).
      { unfold complete_world. simpl. rewrite Hp.
        eapply shape_store; [eassumption|reflexivity]. }
      destruct (IH p (completed_dev d)
                  (complete_world t d (set_inflight rest w)))
        as (w' & d' & Hrun & Hready & Hsh' & Hf' & Hdr' & Hq' & Hc');
        [split; [assumption|rewrite Hsh; assumption]|assumption|assumption|].
      exists w', d'. unfold bind.
      change (io_complete env t) with (task_complete env t). rewrite Heq.
      split; [exact Hrun|]. split; [assumption|].
      split; [congruence|]. split; [assumption|].
      split; [assumption|]. split; [exact Hq'|].
      rewrite Hc'. unfold completed_dev. simpl. unfold wrap64.
      rewrite Z.mod_small by (unfold g_queue_depth in Hle; lia). lia.
    + exists w, d.
      assert (HI' := HI). destruct HI' as (Hnd & Hdev & Hinf & Hlog).
      destruct (Hdev p d Hf) as (_ & Hc & _).
      assert (Hz : outstanding p (inflight w) = 0).
      { apply outstanding_none. intros q t Hin Hd.
        destruct (Hinf q t Hin) as (dx & Hfx & Hqx).
        rewrite Hd, Hf in Hfx. injection Hfx as <-.
        apply (take_inflight_None _ _ Htake t). rewrite Hqx. exact Hin. }
      split; [reflexivity|]. split; [split; assumption|].
      repeat split; try assumption. lia.
Qed.

Lemma drain_loop_terminates (fuel : nat) :
  forall p d w,
    drain_ready w ->
    find_dev p (g_devs w) = Some d ->
    is_draining d = true ->
    current_queue_depth d <= Z.of_nat fuel ->
    exists w' d',
      drain_loop env fuel p w = Done tt w' /\
      drain_ready w' /\
      shape (g_devs w') = shape (g_devs w) /\
      find_dev p (g_devs w') = Some d' /\
      current_queue_depth d' = 0.
Proof.
  induction fuel as [|fuel IH]; intros p d w Hready Hf Hdr Hle;
    cbn [drain_loop]; unfold bind, load at 1; rewrite Hf.
  - destruct (Z.ltb_spec 0 (current_queue_depth d)) as [Hpos|Hz]; [lia|].
    exists w, d. assert (Hready' := Hready). destruct Hready' as (HI & Hq).
    destruct HI as (Hnd & Hdev & Hinf & Hlog).
    destruct (Hdev p d Hf) as (_ & Hc & _).
    pose proof (outstanding_nonneg p (inflight w)).
    split; [reflexivity|]. split; [assumption|].
    repeat split; try assumption. lia.
  - destruct (Z.ltb_spec 0 (current_queue_depth d)) as [Hpos|Hz].
    + unfold check_io, bind, load at 1. rewrite Hf.
      unfold spdk_nvme_qpair_process_completions.
      destruct (deliver_draining (completions env (polls w)) p d
                  (set_polls (S (polls w)) w) Hready Hf Hdr)
        as (w1 & d1 & Hrun & Hready1 & Hsh1 & Hf1 & Hdr1 & Hq1 & Hc1).
      rewrite Hrun.
      destruct (IH p d1 w1 Hready1 Hf1 Hdr1)
        as (w' & d' & Hrun' & Hready' & Hsh' & Hf' & Hc').
      { pose proof (Hresp (polls w)). lia. }
      exists w', d'. split; [exact Hrun'|]. split; [assumption|].
      split; [rewrite Hsh'; exact Hsh1|]. split; assumption.
    + exists w, d. assert (Hready' := Hready). destruct Hready' as (HI & Hq).
      destruct HI as (Hnd & Hdev & Hinf & Hlog).
      destruct (Hdev p d Hf) as (_ & Hc & _).
      pose proof (outstanding_nonneg p (inflight w)).
      split; [reflexivity|]. split; [assumption|].
      repeat split; try assumption. lia.
Qed.

Lemma drain_io_terminates (fuel : nat) p d w :
  drain_ready w ->
  find_dev p (g_devs w) = Some d ->
  (4 <= fuel)%nat ->
  exists w' d',
    drain_io env fuel p w = Done tt w' /\
    drain_ready w' /\
    shape (g_devs w') = shape (g_devs w) /\
    find_dev p (g_devs w') = Some d' /\
    current_queue_depth d' = 0.
Proof.
  intros (HI & Hq) Hf Hfuel.
  unfold drain_io, bind, load, store, modify. rewrite Hf.
  set (w1 := set_g_devs (store_dev p (set_is_draining true d) (g_devs w)) w).
  assert (Hsh : shape (g_devs w1) = shape (g_devs w))
    by (eapply shape_store; [eassumption|reflexivity]).
  assert (HI1 : Inv w1)
    by (eapply (linked_ok_store settled settled p d); eauto).
  assert (Hf1 : find_dev p (g_devs w1) = Some (set_is_draining true d))
    by (eapply find_dev_store_same; eassumption).
  destruct HI as (_ & Hdev & _). destruct (Hdev p d Hf) as (_ & _ & Hle & _).
  destruct (drain_loop_terminates fuel p (set_is_draining true d) w1)
    as (w' & d' & Hrun & Hready & Hsh' & Hf' & Hz); try assumption.
  - split; [assumption|]. rewrite Hsh. assumption.
  - reflexivity.
  - simpl. unfold g_queue_depth in Hle. lia.
  - exists w', d'. split; [exact Hrun|]. split; [assumption|].
    split; [congruence|]. split; assumption.
Qed.

End Shutdown.

Lemma unregister_dev_total p d w :
  find_dev p (g_devs w) = Some d ->
  exists w', unregister_dev p w = Done tt w' /\
             g_devs w' = remove_dev p (g_devs w).
Proof.
  intros Hf. unfold unregister_dev, bind, load,
    spdk_nvme_ctrlr_free_io_qpair, spdk_nvme_detach, free, modify.
  rewrite Hf. simpl. eexists. split; reflexivity.
Qed.

Lemma map_fst_cons_find p ps l :
  map fst l = p :: ps ->
  (exists d, find_dev p l = Some d) /\ map fst (remove_dev p l) = ps.
Proof.
  destruct l as [|[a x] l]; simpl; [discriminate|].
  intros H. injection H as -> <-. rewrite Z.eqb_refl. eauto.
Qed.

Section Shutdown2.

Variable env : driver.
Hypothesis Hresp : responsive env.

Lemma shutdown_terminates (fuel : nat) :
  (4 <= fuel)%nat ->
  forall ps w,
    map fst (g_devs w) = ps ->
    drain_ready w ->
    exists w',
      foreach ps (fun p => drain_io env fuel p ;; unregister_dev p) w
      = Done tt w' /\
      g_devs w' = [].
Proof.
  intros Hfuel. induction ps as [|p ps IH]; intros w Hps Hready.
  - exists w. split; [reflexivity|].
    destruct (g_devs w); [reflexivity|discriminate].
  - destruct (map_fst_cons_find p ps _ Hps) as ((d & Hf) & _).
    destruct (drain_io_terminates env Hresp fuel p d w Hready Hf Hfuel)
      as (w1 & d1 & Hrun & (HI1 & Hq1) & Hsh & Hf1 & Hz).
    assert (Hps1 : map fst (g_devs w1) = p :: ps)
      by (rewrite <- shape_fst, Hsh, shape_fst; assumption).
    destruct (unregister_dev_total p d1 w1 Hf1) as (w2 & Hun & Hg2).
    destruct (map_fst_cons_find p ps _ Hps1) as (_ & Hrem).
    destruct (IH w2) as (w' & Hrun' & Hempty).
    + rewrite Hg2. assumption.
    + split.
      * eapply unregister_dev_Inv; [|exact Hun]. split; [assumption|eauto].
      * rewrite Hg2. apply NoDup_snd_shape_remove. assumption.
    + exists w'. split; [|assumption].
      cbn [foreach]. unfold bind at 1. unfold bind at 1.
      rewrite Hrun, Hun. exact Hrun'.
Qed.

End Shutdown2.

(** ** What a returning shutdown loop leaves *)

Section Frame.

Variable env : driver.

Lemma submit_single_io_addrs p L :
  hoare (fun w => map fst (g_devs w) = L) (submit_single_io env p)
        (fun _ w => map fst (g_devs w) = L).
Proof.
  intros w [] w' HL H. apply submit_single_io_Done in H.
  destruct H as (d & _ & _ & ->). unfold submit_world.
  destruct (_ =? 0); simpl; rewrite map_fst_store_dev; assumption.
Qed.

Lemma task_complete_addrs t L :
  hoare (fun w => map fst (g_devs w) = L) (task_complete env t)
        (fun _ w => map fst (g_devs w) = L).
Proof.
  intros w [] w' HL H.
  destruct (find_dev (dev t) (g_devs w)) as [d|] eqn:Hf.
  - rewrite (task_complete_eq env t w d Hf) in H.
    assert (HL1 : map fst (g_devs (complete_world t d w)) = L)
      by (simpl; rewrite map_fst_store_dev; assumption).
    destruct (resubmits d).
    + eapply submit_single_io_addrs; eassumption.
    + injection H as <-. assumption.
  - unfold task_complete, bind, load in H. rewrite Hf in H. discriminate.
Qed.

Lemma deliver_addrs q L (n : nat) :
  hoare (fun w => map fst (g_devs w) = L) (deliver (io_complete env) q n)
        (fun _ w => map fst (g_devs w) = L).
Proof.
  induction n as [|n IH]; intros w [] w' HL H; cbn [deliver] in H.
  - injection H as <-. assumption.
  - destruct (take_inflight q (inflight w)) as [[t rest]|].
    + apply bind_Done in H. destruct H as ([] & w1 & H1 & H2).
      apply (IH w1 tt w'); [|assumption].
      eapply (task_complete_addrs t L); [|exact H1]. exact HL.
    + injection H as <-. assumption.
Qed.

Lemma check_io_addrs p L :
  hoare (fun w => map fst (g_devs w) = L) (check_io env p)
        (fun _ w => map fst (g_devs w) = L).
Proof.
  intros w [] w' HL H. unfold check_io in H.
  apply bind_Done in H. destruct H as (d & w1 & H1 & H2).
  unfold load in H1. destruct (find_dev p (g_devs w)); [|discriminate].
  injection H1 as <- <-.
  unfold spdk_nvme_qpair_process_completions in H2.
  eapply deliver_addrs; [|exact H2]. exact HL.
Qed.

Lemma drain_loop_addrs (fuel : nat) p L :
  hoare (fun w => map fst (g_devs w) = L) (drain_loop env fuel p)
        (fun _ w => map fst (g_devs w) = L).
Proof.
  induction fuel as [|fuel IH]; intros w [] w' HL H; cbn [drain_loop] in H;
    apply bind_Done in H; destruct H as (d & w1 & H1 & H2);
    unfold load in H1;
    (destruct (find_dev p (g_devs w)) as [d0|]; [|discriminate]);
    injection H1 as <- <-.
  - destruct (0 <? current_queue_depth d0); [discriminate|].
    injection H2 as <-. assumption.
  - destruct (0 <? current_queue_depth d0).
    + apply bind_Done in H2. destruct H2 as ([] & w2 & H2 & H3).
      apply (IH w2 tt w'); [|assumption].
      eapply check_io_addrs; eassumption.
    + injection H2 as <-. assumption.
Qed.

Lemma drain_io_addrs (fuel : nat) p L :
  hoare (fun w => map fst (g_devs w) = L) (drain_io env fuel p)
        (fun _ w => map fst (g_devs w) = L).
Proof.
  intros w [] w' HL H. unfold drain_io in H.
  apply bind_Done in H. destruct H as (d & w1 & H1 & H2).
  unfold load in H1. destruct (find_dev p (g_devs w)); [|discriminate].
  injection H1 as <- <-.
  apply bind_Done in H2. destruct H2 as ([] & w2 & H2 & H3).
  unfold store, modify in H2. injection H2 as <-.
  eapply drain_loop_addrs; [|exact H3].
  simpl. rewrite map_fst_store_dev. assumption.
Qed.

Lemma shutdown_empties (fuel : nat) :
  forall ps w w',
    map fst (g_devs w) = ps ->
    foreach ps (fun p => drain_io env fuel p ;; unregister_dev p) w
    = Done tt w' ->
    g_devs w' = [].
Proof.
  induction ps as [|p ps IH]; intros w w' Hps H; simpl in H.
  - injection H as <-. destruct (g_devs w); [reflexivity|discriminate].
  - apply bind_Done in H. destruct H as ([] & w2 & H12 & H).
    apply bind_Done in H12. destruct H12 as ([] & w1 & H1 & H2).
    apply (drain_io_addrs fuel p _ w tt w1 Hps) in H1.
    destruct (unregister_dev_effect p w1 w2 H2) as (d & _ & Hg & _).
    destruct (map_fst_cons_find p ps _ H1) as (_ & Hrem).
    apply (IH w2 w'); [|assumption]. rewrite Hg. assumption.
Qed.

Lemma io_loop_Done (fuel : nat) w rc w' :
  io_loop env fuel w = Done rc w' -> rc = 0 /\ g_devs w' = [].
Proof.
  intros H. unfold io_loop in H.
  apply bind_Done in H. destruct H as (t0 & w1 & _ & H).
  apply bind_Done in H. destruct H as (wg & w2 & _ & H).
  apply bind_Done in H. destruct H as (t1 & w3 & _ & H).
  apply bind_Done in H. destruct H as ([] & w4 & _ & H).
  apply bind_Done in H. destruct H as ([] & w5 & H5 & H).
  injection H as <- <-. split; [reflexivity|].
  unfold io_loop_shutdown in H5.
  apply bind_Done in H5. destruct H5 as (ps & w6 & H6 & H5).
  injection H6 as <- <-.
  eapply shutdown_empties; [reflexivity|exact H5].
Qed.

End Frame.

(** ** [main] *)

Section Main.

Variable env : driver.

Lemma getopt_loop_initial argv0 (fuel : nat) :
  forall args,
    hoare initial (getopt_loop env fuel argv0 args) (fun _ => initial).
Proof.
  induction fuel as [|fuel IH]; intros args w b w' Hi H;
    cbn [getopt_loop] in H;
    destruct (getopt (getopt_permutes env) args) as [op optarg rest| |].
  - destruct (op =? "t")%char.
    + apply bind_Done in H. destruct H as ([] & w1 & _ & H). discriminate.
    + unfold bind, usage, modify, ret in H. injection H as _ <-. exact Hi.
  - unfold bind, usage, modify, ret in H. injection H as _ <-. exact Hi.
  - injection H as _ <-. exact Hi.
  - destruct (op =? "t")%char.
    + apply bind_Done in H. destruct H as ([] & w1 & H1 & H).
      injection H1 as <-. eapply IH; [|exact H]. exact Hi.
    + unfold bind, usage, modify, ret in H. injection H as _ <-. exact Hi.
  - unfold bind, usage, modify, ret in H. injection H as _ <-. exact Hi.
  - injection H as _ <-. exact Hi.
Qed.

Lemma parse_args_initial argv :
  hoare initial (parse_args env argv) (fun _ => initial).
Proof.
  intros w rc w' Hi H. unfold parse_args in H.
  apply bind_Done in H. destruct H as ([] & w1 & H1 & H).
  injection H1 as <-.
  apply bind_Done in H. destruct H as (b & w2 & H2 & H).
  apply (getopt_loop_initial _ _ _ (set_g_time_in_sec 0 w) _ _ Hi) in H2.
  destruct b; [injection H as _ <-; assumption|].
  apply bind_Done in H. destruct H as (wg & w3 & H3 & H).
  injection H3 as E1 E2. subst wg w3.
  destruct (g_time_in_sec _ =? 0).
  - unfold bind, usage, modify, ret in H. injection H as _ <-. exact H2.
  - injection H as _ <-. assumption.
Qed.

Lemma main_reachable (fuel : nat) argv w rc w' :
  initial w -> main env fuel argv w = Done rc w' -> reachable env w'.
Proof.
  intros Hi H. unfold main in H.
  apply bind_Done in H. destruct H as (rc0 & w1 & H1 & H).
  apply (parse_args_initial argv w rc0 w1 Hi) in H1.
  destruct (negb (rc0 =? 0)).
  { injection H as _ <-. apply reach_initial. assumption. }
  destruct (eal_init_rc env <? 0).
  { injection H as _ <-. apply reach_initial. assumption. }
  apply bind_Done in H. destruct H as ([] & w2 & H2 & H).
  injection H2 as <-.
  apply bind_Done in H. destruct H as ([] & w3 & H3 & H).
  injection H3 as <-.
  apply bind_Done in H. destruct H as (rc1 & w4 & H4 & H).
  assert (Hr4 : reachable env w4).
  { unfold register_controllers in H4.
    apply bind_Done in H4. destruct H4 as (rc2 & w5 & H5 & H4).
    assert (w5 = w4) as <-
      by (destruct (negb (rc2 =? 0)); injection H4 as _ <-; reflexivity).
    eapply reach_step; [|eapply step_probe; exact H5].
    apply reach_initial. exact H1. }
  destruct (negb (rc1 =? 0)); [injection H as _ <-; assumption|].
  apply bind_Done in H. destruct H as (rc3 & w6 & H6 & H).
  injection H as _ <-. eapply io_loop_reachable; eassumption.
Qed.

Lemma main_enters_loop (fuel : nat) argv w0 w1 w :
  parse_args env argv w0 = Done 0 w1 ->
  0 <= eal_init_rc env ->
  register_controllers env
    (set_g_tsc_rate (wrap64 (ticks_hz env))
       (set_task_pool (rte_mempool_create 8192) w1)) = Done 0 w ->
  main env fuel argv w0 =
  (rc <- io_loop env fuel ;; ret rc) w.
Proof.
  intros Hp He Hr. unfold main.
  rewrite (bind_eq _ _ _ _ _ Hp). cbn [Z.eqb negb].
  destruct (Z.ltb_spec (eal_init_rc env) 0) as [Hlt|_]; [lia|].
  unfold bind at 1, modify at 1. unfold bind at 1, modify at 1.
  rewrite (bind_eq _ _ _ _ _ Hr). reflexivity.
Qed.

Lemma pass_probe_failure (fuel : nat) tsc_end next_stats_tsc w w1 rc w2 :
  foreach (map fst (g_devs w)) (service_dev env) w = Done tt w1 ->
  spdk_nvme_probe env probe_cb (attach_cb env) remove_cb w1 = Done rc w2 ->
  rc <> 0 ->
  io_loop_passes env (S fuel) tsc_end next_stats_tsc w = Done tt w2.
Proof.
  intros Hs Hp Hrc. cbn [io_loop_passes].
  unfold bind at 1, dev_ptrs at 1.
  rewrite (bind_eq _ _ _ _ _ Hs), (bind_eq _ _ _ _ _ Hp).
  destruct (Z.eqb_spec rc 0); [contradiction|]. reflexivity.
Qed.

End Main.

(** ** Sample runs *)

(** One device, queue depth 4: after the first pass four requests are
    outstanding and the registry has one entry. *)
Example first_pass_fills_queue :
  map (fun e => current_queue_depth (snd e)) (g_devs world_serviced) = [4] /\
  List.length (inflight world_serviced) = 4%nat.
Proof. split; reflexivity. Qed.

(** A device marked removed with two requests outstanding: the two
    completions are not replaced, and the sweep then unregisters it. *)
Example removed_device_is_swept :
  let w1 := after (deliver (io_complete env_quiet) 300 2) world_removed in
  let w2 := after (sweep_dev 1) w1 in
  (List.length (reads w1),
   map (fun e => current_queue_depth (snd e)) (g_devs w1),
   g_devs w2, detaches w2, qpair_frees w2)
  = (0%nat, [0], [], [100], [300]).
Proof. vm_compute. reflexivity. Qed.

(** A whole run of one second with one controller: exit code 0, nothing
    left registered or outstanding, the device unregistered with nothing
    outstanding, every task back in the pool. *)
Example whole_run :
  summary (main env_plug 8 ["hotplug"; "-t"; "1"]%string world_empty)
  = Some (0, 0%nat, 0%nat, [0], Z.to_nat 8192).
Proof. vm_compute. reflexivity. Qed.

(** * Further properties *)

(** ** Tasks and their buffers are conserved *)

Lemma take_inflight_perm q l t rest :
  take_inflight q l = Some (t, rest) -> Permutation l ((q, t) :: rest).
Proof.
  revert rest. induction l as [|[q' t'] l IH]; simpl; intros rest H;
    [discriminate|].
  destruct (Z.eqb_spec q' q) as [->|Hq].
  - injection H as <- <-. apply Permutation_refl.
  - destruct (take_inflight q l) as [[t0 r]|]; [|discriminate].
    injection H as <- <-.
    eapply Permutation_trans; [apply perm_skip, (IH r eq_refl)|].
    apply perm_swap.
Qed.

Lemma hoare_and {A} (P1 P2 : world -> Prop) (Q1 Q2 : A -> world -> Prop)
    (m : M A) :
  hoare P1 m Q1 -> hoare P2 m Q2 ->
  hoare (fun w => P1 w /\ P2 w) m (fun a w => Q1 a w /\ Q2 a w).
Proof.
  intros H1 H2 w a w' (HP1 & HP2) H. split; [eapply H1|eapply H2]; eauto.
Qed.

Lemma steps_invariant (env : driver) (I : world -> Prop) :
  (forall w w', step env w w' -> I w -> I w') ->
  forall w w', steps env w w' -> I w -> I w'.
Proof.
  intros Hstep w w' Hs. induction Hs as [w|w w1 w2 _ IH Hs2]; intros HI.
  - assumption.
  - eapply Hstep; [eassumption|apply IH; assumption].
Qed.

Lemma steps_trans (env : driver) w1 w2 w3 :
  steps env w1 w2 -> steps env w2 w3 -> steps env w1 w3.
Proof.
  intros H12 H23. induction H23 as [w|w wa wb _ IH Hs]; [assumption|].
  eapply steps_step; [apply IH; assumption|assumption].
Qed.

Lemma steps_one (env : driver) w w' : step env w w' -> steps env w w'.
Proof. intros H. eapply steps_step; [apply steps_refl|exact H]. Qed.

Section Buffers.

Variable env : driver.
Variable B : list Z.

Let keeps (w : world) : Prop := Permutation B (buffers w).

Lemma submit_single_io_buffers p :
  hoare keeps (submit_single_io env p) (fun _ => keeps).
Proof.
  intros w [] w' HB H. apply submit_single_io_Done in H.
  destruct H as (d & _ & Hne & ->). unfold keeps in *.
  eapply Permutation_trans; [exact HB|]. unfold buffers, submit_world.
  destruct (task_pool w) as [|t pool]; [congruence|].
  destruct (_ =? 0); simpl; [|apply Permutation_refl].
  rewrite map_app. simpl. rewrite app_assoc.
  apply Permutation_cons_append.
Qed.

Lemma task_complete_buffers t rest w w' :
  Permutation B (buf t :: buffers (set_inflight rest w)) ->
  task_complete env t (set_inflight rest w) = Done tt w' ->
  keeps w'.
Proof.
  intros HB H.
  destruct (find_dev (dev t) (g_devs w)) as [d|] eqn:Hf.
  - rewrite (task_complete_eq env t (set_inflight rest w) d Hf) in H.
    assert (H1 : keeps (complete_world t d (set_inflight rest w))) by exact HB.
    destruct (resubmits d).
    + eapply submit_single_io_buffers; eassumption.
    + injection H as <-. assumption.
  - unfold task_complete, bind, load in H. simpl in H. rewrite Hf in H.
    discriminate.
Qed.

Lemma deliver_buffers q (n : nat) :
  hoare keeps (deliver (io_complete env) q n) (fun _ => keeps).
Proof.
  induction n as [|n IH]; intros w [] w' HB H; cbn [deliver] in H.
  - injection H as <-. assumption.
  - destruct (take_inflight q (inflight w)) as [[t rest]|] eqn:Htake.
    + apply bind_Done in H. destruct H as ([] & w1 & H1 & H2).
      apply (IH w1 tt w'); [|assumption].
      eapply task_complete_buffers; [|exact H1].
      eapply Permutation_trans; [exact HB|]. unfold buffers. simpl.
      apply take_inflight_perm in Htake.
      apply (Permutation_map (fun e => buf (snd e))) in Htake. simpl in Htake.
      eapply Permutation_trans;
        [apply Permutation_app_head; exact Htake|].
      apply Permutation_sym, Permutation_middle.
    + injection H as <-. assumption.
Qed.

Lemma check_io_buffers p : hoare keeps (check_io env p) (fun _ => keeps).
Proof.
  intros w [] w' HB H. unfold check_io in H.
  apply bind_Done in H. destruct H as (d & w1 & H1 & H2).
  unfold load in H1. destruct (find_dev p (g_devs w)); [|discriminate].
  injection H1 as <- <-.
  unfold spdk_nvme_qpair_process_completions in H2.
  eapply deliver_buffers; [|exact H2]. exact HB.
Qed.

Lemma times_submit_buffers p (n : nat) :
  hoare keeps (times n (submit_single_io env p)) (fun _ => keeps).
Proof.
  induction n as [|n IH]; simpl.
  - apply (hoare_ret tt (fun _ => keeps)).
  - eapply hoare_bind; [apply submit_single_io_buffers|]. intros []. exact IH.
Qed.

Lemma first_burst_buffers p : hoare keeps (first_burst env p) (fun _ => keeps).
Proof.
  unfold first_burst.
  eapply hoare_bind with (Q := fun _ => keeps).
  - intros w d w' HB H. unfold load in H.
    destruct (find_dev p (g_devs w)); [|discriminate].
    injection H as _ <-. assumption.
  - intros d. destruct (is_new d).
    + eapply hoare_bind; [apply times_submit_buffers|]. intros [].
      eapply hoare_bind with (Q := fun _ => keeps).
      * intros w d1 w' HB H. unfold load in H.
        destruct (find_dev p (g_devs w)); [|discriminate].
        injection H as _ <-. assumption.
      * intros d1. apply hoare_modify. intros w HB. exact HB.
    + apply (hoare_ret tt (fun _ => keeps)).
Qed.

Lemma drain_loop_buffers (fuel : nat) p :
  hoare keeps (drain_loop env fuel p) (fun _ => keeps).
Proof.
  induction fuel as [|fuel IH]; intros w [] w' HB H; cbn [drain_loop] in H;
    apply bind_Done in H; destruct H as (d & w1 & H1 & H2);
    unfold load in H1;
    (destruct (find_dev p (g_devs w)) as [d0|]; [|discriminate]);
    injection H1 as <- <-.
  - destruct (0 <? current_queue_depth d0); [discriminate|].
    injection H2 as <-. assumption.
  - destruct (0 <? current_queue_depth d0).
    + apply bind_Done in H2. destruct H2 as ([] & w2 & H2 & H3).
      apply (IH w2 tt w'); [|assumption].
      eapply check_io_buffers; eassumption.
    + injection H2 as <-. assumption.
Qed.

Lemma drain_io_buffers (fuel : nat) p :
  hoare keeps (drain_io env fuel p) (fun _ => keeps).
Proof.
  intros w [] w' HB H. unfold drain_io in H.
  apply bind_Done in H. destruct H as (d & w1 & H1 & H2).
  unfold load in H1. destruct (find_dev p (g_devs w)); [|discriminate].
  injection H1 as <- <-.
  apply bind_Done in H2. destruct H2 as ([] & w2 & H2 & H3).
  unfold store, modify in H2. injection H2 as <-.
  eapply drain_loop_buffers; [|exact H3]. exact HB.
Qed.

Lemma unregister_dev_buffers p : hoare keeps (unregister_dev p) (fun _ => keeps).
Proof.
  intros w [] w' HB H.
  unfold unregister_dev, bind, load, spdk_nvme_ctrlr_free_io_qpair,
    spdk_nvme_detach, free, modify in H.
  destruct (find_dev p (g_devs w)); [|discriminate].
  simpl in H. injection H as <-. exact HB.
Qed.

Lemma register_dev_buffers c : hoare keeps (register_dev env c) (fun _ => keeps).
Proof.
  intros w [] w' HB.
  unfold register_dev, bind, calloc, free, modify, ret, fault,
    spdk_nvme_ctrlr_alloc_io_qpair, exit.
  destruct (calloc_null env (allocs w)); simpl; [discriminate|].
  repeat match goal with
         | |- context [if ?b then _ else _] => destruct b; simpl
         end;
    intros H; try discriminate; injection H as <-; exact HB.
Qed.

Lemma remove_cb_buffers h : hoare keeps (remove_cb h) (fun _ => keeps).
Proof.
  intros w [] w' HB H. unfold remove_cb in H.
  destruct (mark_removed h (g_devs w)).
  - injection H as <-. exact HB.
  - unfold spdk_nvme_detach, modify in H. injection H as <-. exact HB.
Qed.

Lemma probe_buffers :
  hoare keeps (spdk_nvme_probe env probe_cb (attach_cb env) remove_cb)
        (fun _ => keeps).
Proof.
  intros w rc w' HB H. unfold spdk_nvme_probe in H.
  apply bind_Done in H. destruct H as ([] & w1 & H1 & H2).
  injection H2 as _ <-.
  eapply (hoare_foreach keeps); [| |exact H1]; [|exact HB].
  intros [c|h] _; [|apply remove_cb_buffers].
  unfold probe_cb. apply register_dev_buffers.
Qed.

Lemma step_buffers w w' : step env w w' -> keeps w -> keeps w'.
Proof.
  intros [p H|p H|rc H|p H|t H|H|fuel p H|fuel p H] HB.
  - eapply first_burst_buffers; eassumption.
  - eapply check_io_buffers; eassumption.
  - eapply probe_buffers; eassumption.
  - unfold sweep_dev in H. apply bind_Done in H.
    destruct H as (d & w1 & H1 & H2). unfold load in H1.
    destruct (find_dev p (g_devs w)) as [d0|]; [|discriminate].
    injection H1 as <- <-.
    destruct (is_removed d0 && (current_queue_depth d0 =? 0)).
    + eapply unregister_dev_buffers; eassumption.
    + injection H2 as <-. assumption.
  - unfold spdk_get_ticks in H. injection H as _ <-. exact HB.
  - unfold print_stats, modify in H. injection H as <-. exact HB.
  - eapply drain_io_buffers; eassumption.
  - apply bind_Done in H. destruct H as ([] & w1 & H1 & H2).
    eapply unregister_dev_buffers; [|exact H2].
    eapply drain_io_buffers; eassumption.
Qed.

End Buffers.

(** ** A run of [io_loop] as a sequence of steps *)

Section RunSteps.

Variable env : driver.

Lemma service_dev_two_steps p w w' :
  service_dev env p w = Done tt w' -> steps env w w'.
Proof.
  intros H. unfold service_dev in H.
  apply bind_Done in H. destruct H as ([] & w1 & H1 & H2).
  eapply steps_step; [|eapply step_check; exact H2].
  apply steps_one. eapply step_burst. exact H1.
Qed.

Lemma foreach_steps {A} (body : A -> M unit) (l : list A) :
  (forall x w w', body x w = Done tt w' -> steps env w w') ->
  forall w w', foreach l body w = Done tt w' -> steps env w w'.
Proof.
  intros Hb. induction l as [|x l IH]; intros w w' H; simpl in H.
  - injection H as <-. apply steps_refl.
  - apply bind_Done in H. destruct H as ([] & w1 & H1 & H2).
    eapply steps_trans; [eapply Hb; exact H1|apply IH; exact H2].
Qed.

Lemma io_loop_passes_steps (fuel : nat) :
  forall tsc_end next_stats_tsc w w',
    io_loop_passes env fuel tsc_end next_stats_tsc w = Done tt w' ->
    steps env w w'.
Proof.
  induction fuel as [|fuel IH]; intros te nx w w' H; [discriminate|].
  cbn [io_loop_passes] in H.
  apply bind_Done in H. destruct H as (ps & w1 & H1 & H).
  injection H1 as <- <-.
  apply bind_Done in H. destruct H as ([] & w2 & H2 & H).
  apply (foreach_steps _ _ service_dev_two_steps) in H2.
  apply bind_Done in H. destruct H as (rc & w3 & H3 & H).
  pose proof (steps_step env _ _ _ H2 (step_probe env _ _ rc H3)) as Hs3.
  destruct (negb (rc =? 0)); [injection H as <-; assumption|].
  apply bind_Done in H. destruct H as (ps' & w4 & H4 & H).
  injection H4 as <- <-.
  apply bind_Done in H. destruct H as ([] & w5 & H5 & H).
  apply (foreach_steps _ _
           (fun p a b Hb => steps_one env a b (step_sweep env a b p Hb)))
    in H5.
  apply bind_Done in H. destruct H as (now & w6 & H6 & H).
  pose proof (steps_step env _ _ _ (steps_trans env _ _ _ Hs3 H5)
                (step_ticks env _ _ now H6)) as Hs6.
  destruct (te <? now); [injection H as <-; assumption|].
  destruct (nx <? now).
  - apply bind_Done in H. destruct H as ([] & w7 & H7 & H).
    pose proof (steps_step env _ _ _ Hs6 (step_stats env _ _ H7)) as Hs7.
    apply bind_Done in H. destruct H as (wg & w8 & H8 & H).
    injection H8 as <- <-.
    eapply steps_trans; [exact Hs7|eapply IH; exact H].
  - eapply steps_trans; [exact Hs6|eapply IH; exact H].
Qed.

Lemma io_loop_steps (fuel : nat) w rc w' :
  io_loop env fuel w = Done rc w' -> steps env w w'.
Proof.
  intros H. unfold io_loop in H.
  apply bind_Done in H. destruct H as (t0 & w1 & H1 & H).
  pose proof (steps_one env _ _ (step_ticks env _ _ t0 H1)) as Hs1.
  apply bind_Done in H. destruct H as (wg & w2 & H2 & H).
  injection H2 as <- <-.
  apply bind_Done in H. destruct H as (t1 & w3 & H3 & H).
  pose proof (steps_step env _ _ _ Hs1 (step_ticks env _ _ t1 H3)) as Hs3.
  apply bind_Done in H. destruct H as ([] & w4 & H4 & H).
  apply io_loop_passes_steps in H4.
  apply bind_Done in H. destruct H as ([] & w5 & H5 & H).
  injection H as _ <-.
  unfold io_loop_shutdown in H5.
  apply bind_Done in H5. destruct H5 as (ps & w6 & H6 & H5).
  injection H6 as <- <-.
  apply (foreach_steps _ _
           (fun p a b Hb => steps_one env a b (step_shutdown env a b _ p Hb)))
    in H5.
  eapply steps_trans; [exact Hs3|].
  eapply steps_trans; [exact H4|exact H5].
Qed.

Lemma register_controllers_steps w rc w' :
  register_controllers env w = Done rc w' -> steps env w w'.
Proof.
  intros H. unfold register_controllers in H.
  apply bind_Done in H. destruct H as (rc0 & w1 & H1 & H).
  assert (w1 = w') as <-
    by (destruct (negb (rc0 =? 0)); injection H as _ <-; reflexivity).
  apply steps_one. eapply step_probe. exact H1.
Qed.

(** What [main] has done when it returns 0: the arguments were accepted,
    the runtime came up, the first probe succeeded and [io_loop]
    returned. *)
Lemma main_Done_zero (fuel : nat) argv w w' :
  main env fuel argv w = Done 0 w' ->
  exists w1 w3,
    parse_args env argv w = Done 0 w1 /\
    register_controllers env
      (set_g_tsc_rate (wrap64 (ticks_hz env))
         (set_task_pool (rte_mempool_create 8192) w1)) = Done 0 w3 /\
    io_loop env fuel w3 = Done 0 w'.
Proof.
  intros H. unfold main in H.
  apply bind_Done in H. destruct H as (rc0 & w1 & H1 & H).
  destruct (Z.eqb_spec rc0 0) as [->|Hrc0]; simpl in H;
    [|injection H as E _; congruence].
  destruct (eal_init_rc env <? 0); [discriminate|].
  apply bind_Done in H. destruct H as ([] & w2 & H2 & H).
  injection H2 as <-.
  apply bind_Done in H. destruct H as ([] & w3 & H3 & H).
  injection H3 as <-.
  apply bind_Done in H. destruct H as (rc1 & w4 & H4 & H).
  destruct (Z.eqb_spec rc1 0) as [->|Hrc1]; simpl in H; [|discriminate].
  apply bind_Done in H. destruct H as (rc3 & w6 & H6 & H).
  injection H as -> <-.
  exists w1, w4. auto.
Qed.

End RunSteps.

Lemma steps_world_serviced : steps env_plug world_probed world_serviced.
Proof.
  apply (service_dev_two_steps env_plug 1). reflexivity.
Defined.

(** X1. Over any number of steps of the program the buffers of the free
    tasks and of the outstanding commands, taken together, stay the same
    up to order: no task is lost or duplicated.  So when the buffers are
    distinct to begin with, no two outstanding reads ever share one. *)
Theorem buffers_conserved (env : driver) (w w' : world) :
  steps env w w' ->
  Permutation (buffers w) (buffers w') /\
  (NoDup (buffers w) ->
   NoDup (map (fun e => buf (snd e)) (inflight w'))).
Proof.
  intros Hs.
  assert (Hp : Permutation (buffers w) (buffers w')).
  { apply (steps_invariant env (fun x => Permutation (buffers w) (buffers x))
             (step_buffers env (buffers w)) w w' Hs).
    apply Permutation_refl. }
  split; [exact Hp|]. intros Hnd.
  apply (Permutation_NoDup Hp) in Hnd. unfold buffers in Hnd.
  eapply NoDup_app_remove_l. exact Hnd.
Qed.

Lemma buffers_conserved_witness :
  NoDup (map (fun e => buf (snd e)) (inflight world_serviced)).
Proof.
  destruct (buffers_conserved env_plug world_probed world_serviced
              steps_world_serviced) as (_ & H).
  apply H. vm_compute.
  repeat (constructor; [simpl; intuition discriminate|]). constructor.
Defined.

(** X2. When [main] returns 0, nothing is registered, the driver holds no
    command, and the pool holds the tasks it was created with: all 8192,
    each with its buffer. *)
Theorem main_returns_every_task (env : driver) (fuel : nat)
    (argv : list string) (w w' : world) :
  initial w ->
  main env fuel argv w = Done 0 w' ->
  g_devs w' = [] /\ inflight w' = [] /\
  Permutation (map buf (rte_mempool_create 8192)) (map buf (task_pool w')) /\
  List.length (task_pool w') = Z.to_nat 8192.
Proof.
  intros Hi H.
  pose proof (main_reachable env fuel argv w 0 w' Hi H) as Hr.
  destruct (main_Done_zero env fuel argv w w' H) as (w1 & w3 & Hp & Hrc & Hloop).
  destruct (io_loop_Done env fuel w3 0 w' Hloop) as (_ & Hempty).
  assert (Hinf : inflight w' = []).
  { destruct (reachable_Inv env w' Hr) as (_ & _ & Hinf & _).
    destruct (inflight w') as [|[q t] l]; [reflexivity|].
    destruct (Hinf q t (or_introl eq_refl)) as (d & Hf & _).
    rewrite Hempty in Hf. discriminate. }
  assert (Hperm : Permutation (map buf (rte_mempool_create 8192))
                              (map buf (task_pool w'))).
  { pose proof (parse_args_initial env argv w 0 w1 Hi Hp) as (_ & Hi1 & _).
    pose proof (steps_trans env _ _ _
                  (register_controllers_steps env _ _ _ Hrc)
                  (io_loop_steps env fuel _ _ _ Hloop)) as Hs.
    assert (Hb : Permutation (map buf (rte_mempool_create 8192)) (buffers w')).
    { apply (steps_invariant env
               (fun x => Permutation (map buf (rte_mempool_create 8192))
                                     (buffers x))
               (step_buffers env _) _ _ Hs).
      unfold buffers. cbn [task_pool inflight set_g_tsc_rate set_task_pool].
      rewrite Hi1. cbn [map]. rewrite app_nil_r.
      apply Permutation_refl. }
    unfold buffers in Hb. rewrite Hinf in Hb. cbn [map] in Hb.
    rewrite app_nil_r in Hb. exact Hb. }
  split; [assumption|]. split; [assumption|]. split; [assumption|].
  apply Permutation_length in Hperm. rewrite !length_map in Hperm.
  rewrite <- Hperm. unfold rte_mempool_create.
  rewrite length_map, length_seq. reflexivity.
Qed.

Lemma main_returns_every_task_witness :
  g_devs world_done = [] /\ inflight world_done = [] /\
  List.length (task_pool world_done) = Z.to_nat 8192.
Proof.
  destruct (main_returns_every_task env_plug 8
              ["hotplug"; "-t"; "1"]%string world_empty world_done)
    as (H1 & H2 & _ & H4).
  - repeat split.
  - vm_compute. reflexivity.
  - auto.
Defined.

(** ** No descriptor is used after it is freed *)

Section Outcomes.

Variable F : Prop.

Lemma safe_bind {A B} (P : world -> Prop) (m : M A) (Q : A -> world -> Prop)
    (f : A -> M B) :
  safe F P m -> hoare P m Q -> (forall a, safe F (Q a) (f a)) ->
  safe F P (bind m f).
Proof.
  intros Hs Hh Hf w HP. specialize (Hs w HP). unfold bind.
  destruct (m w) as [a w1|c w1| |] eqn:E; try assumption.
  apply (Hf a w1). eapply Hh; eassumption.
Qed.

Lemma safe_ret {A} (P : world -> Prop) (a : A) : safe F P (ret a).
Proof. intros w _. exact I. Qed.

Lemma safe_modify (P : world -> Prop) (f : world -> world) :
  safe F P (modify f).
Proof. intros w _. exact I. Qed.

Lemma safe_conseq {A} (P P' : world -> Prop) (m : M A) :
  (forall w, P' w -> P w) -> safe F P m -> safe F P' m.
Proof. intros HP Hs w Hw. apply Hs, HP, Hw. Qed.

Lemma safe_load (P : world -> Prop) p :
  (forall w, P w -> linked p w) -> safe F P (load p).
Proof.
  intros HP w Hw. unfold load.
  destruct (find_dev p (g_devs w)) eqn:E; [exact I|].
  exfalso. apply find_dev_None in E. apply E, HP, Hw.
Qed.

(** A loop over a list whose invariant may depend on what is left of the
    list. *)
Lemma hoare_foreach_left {A} (I : list A -> world -> Prop)
    (body : A -> M unit) :
  (forall x l, hoare (I (x :: l)) (body x) (fun _ => I l)) ->
  forall l, hoare (I l) (foreach l body) (fun _ => I []).
Proof.
  intros Hb. induction l as [|x l IH]; simpl.
  - apply (hoare_ret tt (fun _ => I [])).
  - eapply hoare_bind; [apply Hb|]. intros []. exact IH.
Qed.

Lemma safe_foreach_left {A} (I : list A -> world -> Prop)
    (body : A -> M unit) :
  (forall x l, safe F (I (x :: l)) (body x)) ->
  (forall x l, hoare (I (x :: l)) (body x) (fun _ => I l)) ->
  forall l, safe F (I l) (foreach l body).
Proof.
  intros Hs Hb. induction l as [|x l IH]; simpl.
  - apply safe_ret.
  - eapply safe_bind; [apply Hs|apply Hb|]. intros []. exact IH.
Qed.

Lemma linked_find p w : linked p w -> exists d, find_dev p (g_devs w) = Some d.
Proof.
  unfold linked. intros H.
  destruct (find_dev p (g_devs w)) as [d|] eqn:E; [eauto|].
  apply find_dev_None in E. contradiction.
Qed.

Lemma find_linked p d w : find_dev p (g_devs w) = Some d -> linked p w.
Proof. apply find_dev_In_fst. Qed.

Variable env : driver.

Lemma submit_single_io_safe p :
  safe F (linked p) (submit_single_io env p).
Proof.
  intros w Hl. destruct (linked_find p w Hl) as (d & Hf).
  destruct (task_pool w) as [|t pool] eqn:Hp.
  - rewrite (submit_single_io_empty_pool env p w Hp). reflexivity.
  - rewrite (submit_single_io_eq env p w d); [exact I| |assumption].
    rewrite Hp. discriminate.
Qed.

Lemma submit_single_io_linked p q :
  hoare (linked q) (submit_single_io env p) (fun _ => linked q).
Proof.
  intros w [] w' Hl H. unfold linked in *.
  rewrite (submit_single_io_addrs env p _ w tt w' eq_refl H). assumption.
Qed.

Lemma times_submit_safe p (n : nat) :
  safe F (linked p) (times n (submit_single_io env p)).
Proof.
  induction n as [|n IH]; simpl; [apply safe_ret|].
  eapply safe_bind;
    [apply submit_single_io_safe|apply submit_single_io_linked|].
  intros []. exact IH.
Qed.

Lemma times_submit_linked p q (n : nat) :
  hoare (linked q) (times n (submit_single_io env p)) (fun _ => linked q).
Proof.
  induction n as [|n IH]; simpl.
  - apply (hoare_ret tt (fun _ => linked q)).
  - eapply hoare_bind; [apply submit_single_io_linked|]. intros []. exact IH.
Qed.

Lemma task_complete_safe t :
  safe F (linked (dev t)) (task_complete env t).
Proof.
  intros w Hl. destruct (linked_find _ w Hl) as (d & Hf).
  rewrite (task_complete_eq env t w d Hf).
  destruct (resubmits d); [|exact I].
  apply submit_single_io_safe. unfold linked, complete_world. simpl.
  rewrite map_fst_store_dev. exact Hl.
Qed.

Lemma deliver_safe q (n : nat) : safe F Inv (deliver (io_complete env) q n).
Proof.
  induction n as [|n IH]; intros w HI; cbn [deliver]; [exact I|].
  destruct (take_inflight q (inflight w)) as [[t rest]|] eqn:Htake;
    [|exact I].
  destruct (take_inflight_spec _ _ _ _ Htake) as (Hin & _).
  assert (HI' := HI). destruct HI' as (_ & _ & Hinf & _).
  destruct (Hinf q t Hin) as (d & Hf & _).
  pose proof (task_complete_safe t (set_inflight rest w)
                (find_linked _ d (set_inflight rest w) Hf)) as Hs.
  unfold bind. change (io_complete env t) with (task_complete env t).
  destruct (task_complete env t (set_inflight rest w)) as [[] w1|c w1| |] eqn:E;
    try assumption.
  apply IH. eapply complete_Inv; eassumption.
Qed.

Lemma check_io_safe p :
  safe F (fun w => Inv w /\ linked p w) (check_io env p).
Proof.
  intros w (HI & Hl). destruct (linked_find p w Hl) as (d & Hf).
  unfold check_io, bind, load. rewrite Hf.
  unfold spdk_nvme_qpair_process_completions.
  apply deliver_safe. exact HI.
Qed.

Lemma check_io_linked p q :
  hoare (linked q) (check_io env p) (fun _ => linked q).
Proof.
  intros w [] w' Hl H. unfold linked in *.
  rewrite (check_io_addrs env p _ w tt w' eq_refl H). assumption.
Qed.

Lemma first_burst_addrs p L :
  hoare (fun w => map fst (g_devs w) = L) (first_burst env p)
        (fun _ w => map fst (g_devs w) = L).
Proof.
  unfold first_burst.
  eapply hoare_bind with (Q := fun _ w => map fst (g_devs w) = L).
  - intros w d w' HL H. unfold load in H.
    destruct (find_dev p (g_devs w)); [|discriminate].
    injection H as _ <-. assumption.
  - intros d. destruct (is_new d).
    + eapply hoare_bind with (Q := fun _ w => map fst (g_devs w) = L).
      * intros w [] w' HL H.
        assert (Hq : forall (n : nat) a b,
                   map fst (g_devs a) = L ->
                   times n (submit_single_io env p) a = Done tt b ->
                   map fst (g_devs b) = L).
        { induction n as [|n IH]; intros a b Ha Hb; simpl in Hb.
          - injection Hb as <-. assumption.
          - apply bind_Done in Hb. destruct Hb as ([] & a1 & H1 & H2).
            eapply IH; [|exact H2].
            eapply submit_single_io_addrs; eassumption. }
        eapply Hq; eassumption.
      * intros []. eapply hoare_bind with (Q := fun _ w => map fst (g_devs w) = L).
        -- intros w d1 w' HL H. unfold load in H.
           destruct (find_dev p (g_devs w)); [|discriminate].
           injection H as _ <-. assumption.
        -- intros d1. apply hoare_modify. intros w HL. simpl.
           rewrite map_fst_store_dev. assumption.
    + apply (hoare_ret tt (fun _ w => map fst (g_devs w) = L)).
Qed.

Lemma first_burst_safe p :
  safe F (linked p) (first_burst env p).
Proof.
  unfold first_burst.
  eapply safe_bind with (Q := fun _ => linked p).
  - apply safe_load. auto.
  - intros w d w' Hl H. unfold load in H.
    destruct (find_dev p (g_devs w)); [|discriminate].
    injection H as _ <-. assumption.
  - intros d. destruct (is_new d); [|apply safe_ret].
    eapply safe_bind;
      [apply times_submit_safe|apply times_submit_linked|].
    intros []. eapply safe_bind with (Q := fun _ _ => True).
    + apply safe_load. auto.
    + intros w a w' _ _. exact I.
    + intros d1. apply safe_modify.
Qed.

Lemma service_dev_safe p :
  safe F (fun w => Inv w /\ linked p w) (service_dev env p).
Proof.
  unfold service_dev.
  eapply safe_bind with (Q := fun _ w => Inv w /\ linked p w).
  - eapply safe_conseq; [|apply first_burst_safe]. intros w (_ & H). exact H.
  - apply hoare_and; [apply first_burst_Inv|].
    intros w [] w' Hl H. unfold linked in *.
    rewrite (first_burst_addrs p _ w tt w' eq_refl H). assumption.
  - intros []. apply check_io_safe.
Qed.

Lemma service_dev_keeps p q :
  hoare (fun w => Inv w /\ linked q w) (service_dev env p)
        (fun _ w => Inv w /\ linked q w).
Proof.
  unfold service_dev.
  eapply hoare_bind with (Q := fun _ w => Inv w /\ linked q w).
  - apply hoare_and; [apply first_burst_Inv|].
    intros w [] w' Hl H. unfold linked in *.
    rewrite (first_burst_addrs p _ w tt w' eq_refl H). assumption.
  - intros []. apply hoare_and; [apply check_io_Inv|apply check_io_linked].
Qed.

Lemma drain_loop_safe (fuel : nat) p :
  safe F (fun w => Inv w /\ linked p w) (drain_loop env fuel p).
Proof.
  induction fuel as [|fuel IH]; cbn [drain_loop].
  - eapply safe_bind with (Q := fun _ _ => True).
    + apply safe_load. intros w (_ & H). exact H.
    + intros w a w' _ _. exact I.
    + intros d. destruct (0 <? current_queue_depth d); [|apply safe_ret].
      intros w _. exact I.
  - eapply safe_bind with (Q := fun _ w => Inv w /\ linked p w).
    + apply safe_load. intros w (_ & H). exact H.
    + intros w d w' HP H. unfold load in H.
      destruct (find_dev p (g_devs w)); [|discriminate].
      injection H as _ <-. assumption.
    + intros d. destruct (0 <? current_queue_depth d); [|apply safe_ret].
      eapply safe_bind with (Q := fun _ w => Inv w /\ linked p w);
        [apply check_io_safe| |intros []; exact IH].
      apply hoare_and; [apply check_io_Inv|apply check_io_linked].
Qed.

Lemma drain_io_safe (fuel : nat) p :
  safe F (fun w => Inv w /\ linked p w) (drain_io env fuel p).
Proof.
  unfold drain_io.
  eapply safe_bind
    with (Q := fun d w => (Inv w /\ linked p w)
                          /\ find_dev p (g_devs w) = Some d).
  - apply safe_load. intros w (_ & H). exact H.
  - apply hoare_load.
  - intros d. eapply safe_bind with (Q := fun _ w => Inv w /\ linked p w).
    + apply safe_modify.
    + apply hoare_modify. intros w ((HI & Hl) & Hf). split.
      * eapply (linked_ok_store settled settled p d); eauto.
      * unfold linked. simpl. rewrite map_fst_store_dev. exact Hl.
    + intros []. apply drain_loop_safe.
Qed.

Lemma unregister_dev_safe p : safe F (linked p) (unregister_dev p).
Proof.
  intros w Hl. destruct (linked_find p w Hl) as (d & Hf).
  destruct (unregister_dev_total p d w Hf) as (w' & -> & _). exact I.
Qed.

Lemma sweep_dev_safe p : safe F (linked p) (sweep_dev p).
Proof.
  intros w Hl. destruct (linked_find p w Hl) as (d & Hf).
  unfold sweep_dev, bind, load at 1. rewrite Hf.
  destruct (is_removed d && (current_queue_depth d =? 0)); [|exact I].
  apply unregister_dev_safe. exact Hl.
Qed.

Lemma remove_cb_safe h : safe F (fun _ => True) (remove_cb h).
Proof.
  intros w _. unfold remove_cb.
  destruct (mark_removed h (g_devs w)); exact I.
Qed.

Lemma register_dev_safe c :
  spdk_nvme_ns_get_sector_size c <> 0 \/ F ->
  safe F (fun _ => True) (register_dev env c).
Proof.
  intros Hsec w _.
  unfold register_dev, bind, calloc, free, modify, ret, fault,
    spdk_nvme_ctrlr_alloc_io_qpair, exit.
  destruct (calloc_null env (allocs w)); simpl; [reflexivity|].
  repeat match goal with
         | |- context [if ?b then _ else _] => destruct b eqn:?; simpl
         end; try exact I.
  destruct Hsec as [Hsec|HF]; [|exact HF].
  exfalso. apply Hsec. apply Z.eqb_eq. assumption.
Qed.

Hypothesis Hsectors : sectors_ok env \/ F.

Lemma probe_safe :
  safe F Inv (spdk_nvme_probe env probe_cb (attach_cb env) remove_cb).
Proof.
  intros w HI. unfold spdk_nvme_probe.
  assert (Hev : forall e, In e (probe_events env (probes w)) ->
                          match e with
                          | Attach c => spdk_nvme_ns_get_sector_size c <> 0 \/ F
                          | Remove _ => True
                          end).
  { intros [c|h] Hin; [|exact I].
    destruct Hsectors as [Hs|HF]; [left; eapply Hs; exact Hin|right; exact HF]. }
  assert (HI0 : Inv (set_probes (S (probes w)) w)) by exact HI.
  revert HI0 Hev. generalize (set_probes (S (probes w)) w).
  generalize (probe_rc env (probes w)).
  induction (probe_events env (probes w)) as [|e l IH]; intros rc w0 HI0 Hev.
  - exact I.
  - cbn [foreach]. unfold bind at 1. unfold bind at 1.
    assert (Hhead : safe F Inv
                      (match e with
                       | Attach c => if probe_cb c then attach_cb env c else ret tt
                       | Remove h => remove_cb h
                       end)).
    { destruct e as [c|h].
      - unfold probe_cb, attach_cb.
        eapply safe_conseq; [|apply register_dev_safe].
        + intros; exact I.
        + apply (Hev (Attach c)). left. reflexivity.
      - eapply safe_conseq; [|apply remove_cb_safe]. intros; exact I. }
    specialize (Hhead w0 HI0).
    destruct (match e with
              | Attach c => if probe_cb c then attach_cb env c else ret tt
              | Remove h => remove_cb h
              end w0) as [[] w1|c w1| |] eqn:E; try assumption.
    assert (HI1 : Inv w1).
    { destruct e as [c|h].
      - unfold probe_cb, attach_cb in E. eapply register_dev_Inv; eassumption.
      - eapply remove_cb_Inv; eassumption. }
    specialize (IH rc w1 HI1 (fun e' He' => Hev e' (or_intror He'))).
    unfold bind in IH. exact IH.
Qed.

Lemma remove_dev_other p q l :
  In q (map fst l) -> q <> p -> In q (map fst (remove_dev p l)).
Proof.
  induction l as [|[a x] l IH]; simpl; intros Hin Hne; [assumption|].
  destruct (Z.eqb_spec a p) as [->|Hap].
  - destruct Hin as [E|Hin]; [congruence|assumption].
  - simpl. destruct Hin as [E|Hin]; [left; assumption|right; auto].
Qed.

(** What the loops over the registry keep for the descriptors still to
    visit. *)
Let pending (l : list Z) (w : world) : Prop :=
  Inv w /\ NoDup l /\ forall q, In q l -> linked q w.

Lemma pending_start w : Inv w -> pending (map fst (g_devs w)) w.
Proof.
  intros HI. split; [assumption|]. split; [apply HI|]. intros q Hq. exact Hq.
Qed.

Lemma service_dev_pending p l :
  hoare (pending (p :: l)) (service_dev env p) (fun _ => pending l).
Proof.
  intros w [] w' (HI & Hnd & Hl) H.
  inversion Hnd as [|? ? _ Hnd']; subst.
  split; [|split; [assumption|]].
  - eapply (service_dev_keeps p p); [|exact H].
    split; [assumption|]. apply Hl. left. reflexivity.
  - intros q Hq.
    eapply (service_dev_keeps p q); [|exact H].
    split; [assumption|]. apply Hl. right. assumption.
Qed.

Lemma sweep_dev_pending p l :
  hoare (pending (p :: l)) (sweep_dev p) (fun _ => pending l).
Proof.
  intros w [] w' (HI & Hnd & Hl) H.
  inversion Hnd as [|? ? Hnotin Hnd']; subst.
  split; [eapply sweep_dev_Inv; eassumption|]. split; [assumption|].
  intros q Hq.
  destruct (sweep_dev_cases p w w' H) as [->|(d & Hf & _ & _ & Hun)].
  - apply Hl. right. assumption.
  - destruct (unregister_dev_effect p w w' Hun) as (_ & _ & Hg & _).
    unfold linked. rewrite Hg. apply remove_dev_other.
    + apply Hl. right. assumption.
    + intros ->. contradiction.
Qed.

Lemma shutdown_body_pending (fuel : nat) p l :
  hoare (pending (p :: l)) (drain_io env fuel p ;; unregister_dev p)
        (fun _ => pending l).
Proof.
  intros w [] w' (HI & Hnd & Hl) H.
  inversion Hnd as [|? ? Hnotin Hnd']; subst.
  apply bind_Done in H. destruct H as ([] & w1 & H1 & H2).
  pose proof (drain_io_Inv env fuel p w tt w1 HI H1) as (HI1 & Hz).
  pose proof (drain_io_addrs env fuel p _ w tt w1 eq_refl H1) as Haddr.
  split; [eapply unregister_dev_Inv; [|exact H2]; split; assumption|].
  split; [assumption|]. intros q Hq.
  destruct (unregister_dev_effect p w1 w' H2) as (_ & _ & Hg & _).
  unfold linked. rewrite Hg. apply remove_dev_other.
  - rewrite Haddr. apply Hl. right. assumption.
  - intros ->. contradiction.
Qed.

Lemma shutdown_body_safe (fuel : nat) p l :
  safe F (pending (p :: l)) (drain_io env fuel p ;; unregister_dev p).
Proof.
  eapply safe_bind with (Q := fun _ w => linked p w).
  - eapply safe_conseq; [|apply drain_io_safe].
    intros w (HI & _ & Hl). split; [assumption|]. apply Hl. left. reflexivity.
  - intros w [] w' (HI & _ & Hl) H. unfold linked.
    rewrite (drain_io_addrs env fuel p _ w tt w' eq_refl H).
    apply Hl. left. reflexivity.
  - intros []. apply unregister_dev_safe.
Qed.

Lemma pending_Inv l :
  forall (body : Z -> M unit),
    (forall x k, hoare (pending (x :: k)) (body x) (fun _ => pending k)) ->
    hoare (pending l) (foreach l body) (fun _ => Inv).
Proof.
  intros body Hb. eapply hoare_conseq;
    [| |apply (hoare_foreach_left pending body Hb l)].
  - auto.
  - intros a w (HI & _). exact HI.
Qed.

Lemma io_loop_passes_safe (fuel : nat) :
  forall tsc_end next_stats_tsc,
    safe F Inv (io_loop_passes env fuel tsc_end next_stats_tsc).
Proof.
  induction fuel as [|fuel IH]; intros te nx; [intros w _; exact I|].
  cbn [io_loop_passes].
  eapply safe_bind with (Q := fun ps w => pending ps w).
  { intros w _. exact I. }
  { intros w ps w' HI H. injection H as <- <-. apply pending_start, HI. }
  intros ps.
  eapply safe_bind with (Q := fun _ => Inv).
  { apply safe_foreach_left; [|apply service_dev_pending].
    intros p l. eapply safe_conseq; [|apply service_dev_safe].
    intros w (HI & _ & Hl). split; [assumption|]. apply Hl. left. reflexivity. }
  { apply pending_Inv. apply service_dev_pending. }
  intros [].
  eapply safe_bind with (Q := fun _ => Inv); [apply probe_safe|apply probe_Inv|].
  intros rc. destruct (negb (rc =? 0)); [apply safe_ret|].
  eapply safe_bind with (Q := fun ps w => pending ps w).
  { intros w _. exact I. }
  { intros w ps' w' HI H. injection H as <- <-. apply pending_start, HI. }
  intros ps'.
  eapply safe_bind with (Q := fun _ => Inv).
  { apply safe_foreach_left; [|apply sweep_dev_pending].
    intros p l. eapply safe_conseq; [|apply sweep_dev_safe].
    intros w (_ & _ & Hl). apply Hl. left. reflexivity. }
  { apply pending_Inv. apply sweep_dev_pending. }
  intros [].
  eapply safe_bind with (Q := fun _ => Inv).
  { intros w _. exact I. }
  { intros w t w' HI H. unfold spdk_get_ticks in H. injection H as _ <-.
    exact HI. }
  intros now. destruct (te <? now); [apply safe_ret|].
  destruct (nx <? now); [|apply IH].
  eapply safe_bind with (Q := fun _ => Inv);
    [apply safe_modify|apply print_stats_Inv|].
  intros []. eapply safe_bind with (Q := fun _ => Inv).
  { intros w _. exact I. }
  { intros w wg w' HI H. injection H as _ <-. exact HI. }
  intros wg. apply IH.
Qed.

Lemma io_loop_passes_Inv (fuel : nat) tsc_end next_stats_tsc :
  hoare Inv (io_loop_passes env fuel tsc_end next_stats_tsc) (fun _ => Inv).
Proof.
  intros w [] w' HI H. apply io_loop_passes_steps in H.
  apply (steps_invariant env Inv (step_Inv env) w w' H HI).
Qed.

Lemma io_loop_safe (fuel : nat) : safe F Inv (io_loop env fuel).
Proof.
  unfold io_loop.
  eapply safe_bind with (Q := fun _ => Inv).
  { intros w _. exact I. }
  { intros w t w' HI H. unfold spdk_get_ticks in H. injection H as _ <-.
    exact HI. }
  intros t0. eapply safe_bind with (Q := fun _ => Inv).
  { intros w _. exact I. }
  { intros w wg w' HI H. injection H as _ <-. exact HI. }
  intros wg. eapply safe_bind with (Q := fun _ => Inv).
  { intros w _. exact I. }
  { intros w t w' HI H. unfold spdk_get_ticks in H. injection H as _ <-.
    exact HI. }
  intros t1.
  eapply safe_bind with (Q := fun _ => Inv);
    [apply io_loop_passes_safe|apply io_loop_passes_Inv|].
  intros []. eapply safe_bind with (Q := fun _ _ => True).
  - unfold io_loop_shutdown.
    eapply safe_bind with (Q := fun ps w => pending ps w).
    { intros w _. exact I. }
    { intros w ps w' HI H. injection H as <- <-. apply pending_start, HI. }
    intros ps. apply safe_foreach_left;
      [apply shutdown_body_safe|apply shutdown_body_pending].
  - intros w a w' _ _. exact I.
  - intros []. apply safe_ret.
Qed.

Lemma main_safe (fuel : nat) argv : safe F initial (main env fuel argv).
Proof.
  intros w Hi. unfold main.
  destruct (parse_args_scan env argv w) as (rc & w1 & r & Hp & _).
  pose proof (parse_args_initial env argv w rc w1 Hi Hp) as Hi1.
  rewrite (bind_eq _ _ _ _ _ Hp).
  destruct (negb (rc =? 0)); [exact I|].
  destruct (eal_init_rc env <? 0); [exact I|].
  unfold bind at 1, modify at 1. unfold bind at 1, modify at 1.
  set (w2 := set_g_tsc_rate (wrap64 (ticks_hz env))
               (set_task_pool (rte_mempool_create 8192) w1)).
  assert (HI2 : Inv w2) by (apply initial_Inv; exact Hi1).
  assert (Hs : safe F Inv
                 (rc <- register_controllers env ;;
                  (if negb (rc =? 0) then ret 1
                   else rc0 <- io_loop env fuel ;; ret rc0))).
  { eapply safe_bind with (Q := fun _ => Inv).
    - unfold register_controllers.
      eapply safe_bind with (Q := fun _ _ => True); [apply probe_safe| |].
      + intros ? ? ? _ _. exact I.
      + intros rc0. destruct (negb (rc0 =? 0)); apply safe_ret.
    - intros a rc0 b HIa H. apply register_controllers_steps in H.
      apply (steps_invariant env Inv (step_Inv env) a b H HIa).
    - intros rc0. destruct (negb (rc0 =? 0)); [apply safe_ret|].
      eapply safe_bind with (Q := fun _ _ => True); [apply io_loop_safe| |].
      + intros ? ? ? _ _. exact I.
      + intros rc1. apply safe_ret. }
  exact (Hs w2 HI2).
Qed.

End Outcomes.

Lemma sectors_ok_env_plug : sectors_ok env_plug.
Proof.
  intros n c Hin. destruct n as [|n]; simpl in Hin; [|contradiction].
  destruct Hin as [E|[]]. injection E as <-. vm_compute. discriminate.
Defined.



Lemma main_Done_code (env : driver) (fuel : nat) argv w rc w' :
  main env fuel argv w = Done rc w' -> rc = 0 \/ rc = 1.
Proof.
  intros H. unfold main in H.
  destruct (parse_args_scan env argv w) as (rc0 & w1 & r & Hp & _ & Hres).
  rewrite (bind_eq _ _ _ _ _ Hp) in H.
  destruct (Z.eqb_spec rc0 0) as [->|Hrc0]; simpl in H.
  - destruct (eal_init_rc env <? 0); [injection H as <- _; auto|].
    apply bind_Done in H. destruct H as ([] & w2 & _ & H).
    apply bind_Done in H. destruct H as ([] & w3 & _ & H).
    apply bind_Done in H. destruct H as (rc1 & w4 & _ & H).
    destruct (negb (rc1 =? 0)); [injection H as <- _; auto|].
    apply bind_Done in H. destruct H as (rc3 & w6 & H6 & H).
    injection H as <- _. left. apply (io_loop_Done env fuel _ _ _ H6).
  - injection H as <- _. right.
    destruct r as [t|]; [|apply Hres].
    destruct (t =? 0); [apply Hres|]. destruct Hres as (E & _). contradiction.
Qed.

(** X4. The exit status of the program is 0 or 1: [main] returns 0 or 1,
    and every [exit] on the way (no free task, no memory for a
    descriptor) is [exit(1)]. *)
Theorem main_exit_status (env : driver) (fuel : nat) (argv : list string)
    (w : world) :
  initial w ->
  (forall rc w', main env fuel argv w = Done rc w' -> rc = 0 \/ rc = 1) /\
  (forall c w', main env fuel argv w = Exit c w' -> c = 1).
Proof.
  intros Hi. split.
  - intros rc w'. apply main_Done_code.
  - intros c w' H.
    pose proof (main_safe True env (or_intror I) fuel argv w Hi) as Hs.
    rewrite H in Hs. exact Hs.
Qed.

Lemma main_exit_status_witness :
  (forall rc w',
     main env_plug 8 ["hotplug"; "-t"; "1"]%string world_empty = Done rc w' ->
     rc = 0 \/ rc = 1) /\
  (forall c w',
     main env_plug 8 ["hotplug"; "-t"; "1"]%string world_empty = Exit c w' ->
     c = 1).
Proof.
  apply (main_exit_status env_plug 8 ["hotplug"; "-t"; "1"]%string
           world_empty).
  repeat split.
Defined.

(** X5. In every state a run can be observed in, each command the driver
    holds belongs to a registered descriptor, sits on that descriptor's
    queue pair, and is counted in its queue depth, which is therefore at
    least 1: the removal sweep cannot unregister that descriptor. *)
Theorem outstanding_tasks_are_registered (env : driver) (w : world)
    (q : Z) (t : perf_task) :
  reachable env w ->
  In (q, t) (inflight w) ->
  exists d,
    In (dev t, d) (g_devs w) /\ qpair d = q /\
    1 <= current_queue_depth d /\
    sweep_dev (dev t) w = Done tt w.
Proof.
  intros Hr Hin.
  destruct (reachable_Inv env w Hr) as (Hnd & Hdev & Hinf & _).
  destruct (Hinf q t Hin) as (d & Hf & Hq).
  destruct (Hdev _ d Hf) as (_ & Hc & _).
  pose proof (outstanding_In (dev t) q t _ Hin eq_refl) as Hone.
  exists d. split; [apply (find_dev_In _ _ _ Hnd); assumption|].
  split; [assumption|]. split; [lia|].
  unfold sweep_dev, bind, load. rewrite Hf.
  destruct (Z.eqb_spec (current_queue_depth d) 0) as [E|_]; [lia|].
  rewrite andb_false_r. reflexivity.
Qed.

Lemma outstanding_tasks_are_registered_witness :
  exists d,
    In (1, d) (g_devs world_serviced) /\ qpair d = 300 /\
    1 <= current_queue_depth d /\
    sweep_dev 1 world_serviced = Done tt world_serviced.
Proof.
  apply (outstanding_tasks_are_registered env_plug world_serviced 300
           (mk_task 1 2) reachable_world_serviced).
  left. reflexivity.
Defined.

(** ** Polling a device *)

Lemma take_inflight_Some q t l :
  In (q, t) l -> exists t' rest, take_inflight q l = Some (t', rest).
Proof.
  intros Hin. destruct (take_inflight q l) as [[t' rest]|] eqn:E; [eauto|].
  exfalso. apply (take_inflight_None q l E t Hin).
Qed.

Lemma outstanding_pos_In p l :
  0 < outstanding p l -> exists q t, In (q, t) l /\ dev t = p.
Proof.
  induction l as [|[q t] l IH]; intros H.
  - unfold outstanding in H. simpl in H. lia.
  - rewrite outstanding_cons in H.
    destruct (Z.eqb_spec (dev t) p) as [E|E].
    + exists q, t. split; [left; reflexivity|assumption].
    + destruct IH as (q' & t' & Hin & Hd); [lia|].
      exists q', t'. split; [right; assumption|assumption].
Qed.

Lemma wrap64_add_l a b : wrap64 (wrap64 a + b) = wrap64 (a + b).
Proof. unfold wrap64. apply Zplus_mod_idemp_l. Qed.

Section Polling.

Variable env : driver.

(** The task a completion on the queue pair of [p] hands back belongs to
    [p]. *)
Lemma completed_task_owner p d q t w :
  drain_ready w ->
  find_dev p (g_devs w) = Some d ->
  q = qpair d ->
  In (q, t) (inflight w) ->
  dev t = p.
Proof.
  intros ((_ & _ & Hinf & _) & Hq) Hf -> Hin.
  destruct (Hinf _ _ Hin) as (dx & Hfx & Hqx).
  apply (NoDup_snd_inj (shape (g_devs w)) (dev t) p (qpair d) Hq).
  - rewrite <- Hqx. apply shape_find. assumption.
  - apply shape_find. assumption.
Qed.

(** Completions for a device that is removed or draining: none is
    replaced. *)
Lemma deliver_quiet (n : nat) :
  forall p d w,
    drain_ready w ->
    find_dev p (g_devs w) = Some d ->
    resubmits d = false ->
    exists w' d',
      deliver (io_complete env) (qpair d) n w = Done tt w' /\
      drain_ready w' /\
      shape (g_devs w') = shape (g_devs w) /\
      find_dev p (g_devs w') = Some d' /\
      resubmits d' = false /\ qpair d' = qpair d /\ ctrlr d' = ctrlr d /\
      is_removed d' = is_removed d /\
      current_queue_depth d' =
      current_queue_depth d - Z.min (Z.of_nat n) (current_queue_depth d) /\
      reads w' = reads w /\ detaches w' = detaches w /\
      qpair_frees w' = qpair_frees w /\
      List.length (task_pool w') =
      (List.length (task_pool w)
       + Z.to_nat (Z.min (Z.of_nat n) (current_queue_depth d)))%nat.
Proof.
  induction n as [|n IH]; intros p d w Hready Hf Hres.
  - exists w, d. cbn [deliver]. unfold ret.
    assert (Hready' := Hready).
    destruct Hready' as ((Hnd & Hdev & Hinf & Hlog) & Hq).
    destruct (Hdev p d Hf) as (_ & Hc & Hle & _).
    pose proof (outstanding_nonneg p (inflight w)).
    assert (Hm : Z.min (Z.of_nat 0) (current_queue_depth d) = 0) by lia.
    rewrite Hm. simpl Z.to_nat. rewrite Nat.add_0_r.
    split; [reflexivity|]. split; [exact Hready|].
    repeat split; try assumption; try reflexivity; lia.
  - cbn [deliver].
    assert (Hready' := Hready).
    destruct Hready' as (HI & Hq).
    assert (HI' := HI). destruct HI' as (Hnd & Hdev & Hinf & Hlog).
    destruct (Hdev p d Hf) as (_ & Hc & Hle & _).
    pose proof (outstanding_nonneg p (inflight w)) as Hpos.
    destruct (take_inflight (qpair d) (inflight w)) as [[t rest]|] eqn:Htake.
    + destruct (take_inflight_spec _ _ _ _ Htake) as (Hin & Hsub & Hcnt).
      pose proof (completed_task_owner p d _ t w Hready Hf eq_refl Hin) as Hp.
      assert (Hft : find_dev (dev t) (g_devs (set_inflight rest w)) = Some d)
        by (rewrite Hp; exact Hf).
      pose proof (task_complete_eq env t (set_inflight rest w) d Hft) as Heq.
      rewrite Hres in Heq.
      set (w1 := complete_world t d (set_inflight rest w)) in *.
      assert (HI1 : Inv w1).
      { eapply (complete_Inv env (qpair d) t rest w); eassumption. }
      pose proof (outstanding_In p (qpair d) t _ Hin Hp) as Hone.
      assert (Hf1 : find_dev p (g_devs w1) = Some (completed_dev d)).
      { unfold w1, complete_world. simpl. rewrite Hp.
        eapply find_dev_store_same. eassumption. }
      assert (Hsh : shape (g_devs w1) = shape (g_devs w)).
      { unfold w1, complete_world. simpl. rewrite Hp.
        eapply shape_store; [eassumption|reflexivity]. }
      destruct (IH p (completed_dev d) w1)
        as (w' & d' & Hrun & Hready1 & Hsh' & Hf' & Hres' & Hq' & Hct' & Hrm'
            & Hc' & Hrd' & Hdt' & Hqf' & Hpool');
        [split; [assumption|rewrite Hsh; assumption]|assumption|exact Hres|].
      assert (Hcd : current_queue_depth (completed_dev d)
                    = current_queue_depth d - 1).
      { unfold completed_dev. simpl. unfold wrap64.
        apply Z.mod_small. unfold g_queue_depth in Hle. lia. }
      exists w', d'. unfold bind.
      change (io_complete env t) with (task_complete env t). rewrite Heq.
      split; [exact Hrun|]. split; [assumption|].
      split; [congruence|]. split; [assumption|].
      split; [assumption|]. split; [exact Hq'|]. split; [exact Hct'|].
      split; [exact Hrm'|].
      split; [rewrite Hc', Hcd; lia|].
      split; [rewrite Hrd'; reflexivity|].
      split; [rewrite Hdt'; reflexivity|].
      split; [rewrite Hqf'; reflexivity|].
      rewrite Hpool', Hcd. unfold w1, complete_world. simpl. lia.
    + exists w, d.
      assert (Hz : outstanding p (inflight w) = 0).
      { apply outstanding_none. intros q t Hin Hd.
        destruct (Hinf q t Hin) as (dx & Hfx & Hqx).
        rewrite Hd, Hf in Hfx. injection Hfx as <-.
        apply (take_inflight_None _ _ Htake t). rewrite Hqx. exact Hin. }
      assert (Hm : Z.min (Z.of_nat (S n)) (current_queue_depth d) = 0) by lia.
      rewrite Hm. simpl Z.to_nat. rewrite Nat.add_0_r.
      split; [reflexivity|]. split; [exact Hready|].
      repeat split; try assumption; try reflexivity; lia.
Qed.

(** Completions for an active device with a driver that accepts every
    read: each is replaced. *)
Lemma deliver_refill (Hacc : accepting env) (n : nat) :
  forall p d w,
    drain_ready w ->
    find_dev p (g_devs w) = Some d ->
    resubmits d = true ->
    0 < current_queue_depth d ->
    0 <= io_completed d < 2 ^ 64 ->
    exists w' d',
      deliver (io_complete env) (qpair d) n w = Done tt w' /\
      drain_ready w' /\
      shape (g_devs w') = shape (g_devs w) /\
      find_dev p (g_devs w') = Some d' /\
      resubmits d' = true /\ qpair d' = qpair d /\
      current_queue_depth d' = current_queue_depth d /\
      io_completed d' = wrap64 (io_completed d + Z.of_nat n) /\
      List.length (reads w') = (List.length (reads w) + n)%nat /\
      List.length (task_pool w') = List.length (task_pool w).
Proof.
  induction n as [|n IH]; intros p d w Hready Hf Hres Hdepth Hio.
  - exists w, d. cbn [deliver]. unfold ret.
    rewrite Z.add_0_r, Nat.add_0_r. unfold wrap64.
    rewrite Z.mod_small by assumption.
    split; [reflexivity|]. split; [exact Hready|].
    repeat split; try assumption; reflexivity.
  - cbn [deliver].
    assert (Hready' := Hready).
    destruct Hready' as (HI & Hq).
    assert (HI' := HI). destruct HI' as (Hnd & Hdev & Hinf & Hlog).
    destruct (Hdev p d Hf) as (_ & Hc & Hle & _).
    destruct (outstanding_pos_In p (inflight w)) as (q0 & t0 & Hin0 & Hd0);
      [lia|].
    destruct (Hinf q0 t0 Hin0) as (dx & Hfx & Hqx).
    rewrite Hd0, Hf in Hfx. injection Hfx as <-. subst q0.
    destruct (take_inflight_Some _ _ _ Hin0) as (t & rest & Htake).
    rewrite Htake.
    destruct (take_inflight_spec _ _ _ _ Htake) as (Hin & Hsub & Hcnt).
    pose proof (completed_task_owner p d _ t w Hready Hf eq_refl Hin) as Hp.
    assert (Hft : find_dev (dev t) (g_devs (set_inflight rest w)) = Some d)
      by (rewrite Hp; exact Hf).
    pose proof (task_complete_eq env t (set_inflight rest w) d Hft) as Heq.
    rewrite Hres in Heq.
    set (w0 := complete_world t d (set_inflight rest w)) in *.
    assert (Hf0 : find_dev (dev t) (g_devs w0) = Some (completed_dev d)).
    { unfold w0, complete_world. simpl.
      eapply find_dev_store_same. eassumption. }
    assert (Hp0 : task_pool w0 <> []) by (unfold w0; simpl; discriminate).
    rewrite (submit_single_io_eq env _ _ _ Hp0 Hf0) in Heq.
    rewrite (Hacc _) in Heq.
    set (w1 := submit_world 0 (dev t) (completed_dev d) w0) in *.
    assert (HI1 : Inv w1).
    { eapply (complete_Inv env (qpair d) t rest w);
        [assumption|exact Htake|].
      rewrite (task_complete_eq env t (set_inflight rest w) d Hft), Hres.
      fold w0.
      rewrite (submit_single_io_eq env _ _ _ Hp0 Hf0), (Hacc _).
      reflexivity. }
    destruct (advance_cursor_fields (completed_dev d))
      as (_ & Hq1 & _ & _ & Hc1 & Hio1 & Hn1 & Hr1 & Hd1 & _).
    set (d1 := set_current_queue_depth
                 (wrap64 (current_queue_depth (advance_cursor (completed_dev d)) + 1))
                 (advance_cursor (completed_dev d))).
    assert (Hf1 : find_dev p (g_devs w1) = Some d1).
    { unfold w1, submit_world. simpl. rewrite Hp.
      eapply find_dev_store_same. rewrite <- Hp. exact Hf0. }
    assert (Hsh : shape (g_devs w1) = shape (g_devs w)).
    { unfold w1, submit_world. simpl.
      rewrite (shape_store (dev t) (completed_dev d)); [| exact Hf0 |].
      - unfold w0, complete_world. simpl.
        eapply shape_store; [eassumption|reflexivity].
      - simpl. exact Hq1. }
    pose proof (outstanding_In p (qpair d) t _ Hin Hp) as Hone.
    assert (Hcd1 : current_queue_depth d1 = current_queue_depth d).
    { unfold d1. simpl. rewrite Hc1. unfold completed_dev. simpl.
      unfold wrap64.
      rewrite (Z.mod_small (current_queue_depth d - 1))
        by (unfold g_queue_depth in Hle; lia).
      rewrite Z.mod_small by (unfold g_queue_depth in Hle; lia). lia. }
    assert (Hio1' : io_completed d1 = wrap64 (io_completed d + 1)).
    { unfold d1. simpl. rewrite Hio1. reflexivity. }
    destruct (IH p d1 w1)
      as (w' & d' & Hrun & Hready1 & Hsh' & Hf' & Hres' & Hq' & Hc' & Hio'
          & Hrd' & Hpool').
    { split; [assumption|rewrite Hsh; assumption]. }
    { assumption. }
    { unfold resubmits, d1. simpl. rewrite Hd1, Hr1. exact Hres. }
    { lia. }
    { rewrite Hio1'. unfold wrap64. apply Z.mod_pos_bound. lia. }
    exists w', d'. unfold bind.
    change (io_complete env t) with (task_complete env t). rewrite Heq.
    assert (Hqd1 : qpair d1 = qpair d) by (unfold d1; simpl; exact Hq1).
    rewrite Hqd1 in Hrun.
    split; [exact Hrun|]. split; [assumption|].
    split; [congruence|]. split; [assumption|].
    split; [assumption|]. split; [congruence|].
    split; [congruence|].
    split; [rewrite Hio', Hio1', wrap64_add_l; f_equal; lia|].
    split.
    + rewrite Hrd'. unfold w1, submit_world. simpl.
      rewrite length_app. simpl. lia.
    + rewrite Hpool'. unfold w1, submit_world. simpl. reflexivity.
Qed.

End Polling.

Lemma reachable_world_unplugged : reachable env_unplug world_unplugged.
Proof.
  eapply reach_step.
  - apply (service_dev_steps env_unplug 1 world_probed world_serviced4).
    + eapply reach_step.
      * apply (reach_initial env_unplug world_pool). repeat split.
      * apply (step_probe env_unplug world_pool world_probed 0). reflexivity.
    + reflexivity.
  - apply (step_probe env_unplug world_serviced4 world_unplugged 0).
    reflexivity.
Defined.

(** X6. Polling a removed device issues no read: each completion lowers
    its queue depth by one and nothing replaces it.  Once the driver has
    delivered as many completions as were outstanding, the removal sweep
    unregisters the device: its queue pair is freed, its controller
    detached and its descriptor is no longer linked. *)
Theorem removed_device_not_refilled (env : driver) (p : Z) (d : dev_ctx)
    (w : world) :
  reachable env w ->
  NoDup (map snd (shape (g_devs w))) ->
  find_dev p (g_devs w) = Some d ->
  is_removed d = true ->
  exists w1 d1,
    check_io env p w = Done tt w1 /\
    find_dev p (g_devs w1) = Some d1 /\
    is_removed d1 = true /\
    reads w1 = reads w /\
    current_queue_depth d1 =
    current_queue_depth d
    - Z.min (Z.of_nat (completions env (polls w))) (current_queue_depth d) /\
    (current_queue_depth d <= Z.of_nat (completions env (polls w)) ->
     exists w2,
       sweep_dev p w1 = Done tt w2 /\
       find_dev p (g_devs w2) = None /\
       reads w2 = reads w /\
       detaches w2 = detaches w ++ [ctrlr d] /\
       qpair_frees w2 = qpair_frees w ++ [qpair d]).
Proof.
  intros Hr Hq Hf Hrem.
  pose proof (reachable_Inv env w Hr) as HI.
  assert (Hres : resubmits d = false)
    by (unfold resubmits; rewrite Hrem; apply andb_false_r).
  destruct (deliver_quiet env (completions env (polls w)) p d
              (set_polls (S (polls w)) w) (conj HI Hq) Hf Hres)
    as (w1 & d1 & Hrun & (HI1 & Hq1) & _ & Hf1 & _ & Hqp & Hct & Hrm & Hc
        & Hrd & Hdt & Hqf & _).
  exists w1, d1.
  split.
  { unfold check_io, bind, load. rewrite Hf.
    unfold spdk_nvme_qpair_process_completions. exact Hrun. }
  split; [assumption|]. split; [congruence|]. split; [exact Hrd|].
  split; [exact Hc|]. intros Hall.
  assert (Hz : current_queue_depth d1 = 0).
  { destruct HI as (_ & Hdev & _). destruct (Hdev p d Hf) as (_ & Hcd & _).
    pose proof (outstanding_nonneg p (inflight w)). lia. }
  destruct (unregister_dev_total p d1 w1 Hf1) as (w2 & Hun & Hg).
  destruct (unregister_dev_effect p w1 w2 Hun)
    as (d' & Hf' & _ & Hqf2 & Hdt2 & _).
  rewrite Hf1 in Hf'. injection Hf' as <-.
  exists w2. split.
  { unfold sweep_dev, bind, load at 1. rewrite Hf1.
    rewrite Hrm, Hrem, Hz. simpl. exact Hun. }
  split.
  { rewrite Hg, (find_dev_remove p p _ (proj1 HI1)), Z.eqb_refl. reflexivity. }
  split.
  { revert Hun. unfold unregister_dev, bind, load,
      spdk_nvme_ctrlr_free_io_qpair, spdk_nvme_detach, free, modify.
    rewrite Hf1. simpl. intros E. injection E as <-. simpl. exact Hrd. }
  split; [rewrite Hdt2, Hdt, Hct; reflexivity|].
  rewrite Hqf2, Hqf, Hqp. reflexivity.
Qed.

Lemma removed_device_not_refilled_witness :
  exists w1 w2,
    check_io env_unplug 1 world_unplugged = Done tt w1 /\
    reads w1 = reads world_unplugged /\
    sweep_dev 1 w1 = Done tt w2 /\
    find_dev 1 (g_devs w2) = None /\
    detaches w2 = [100] /\ qpair_frees w2 = [300].
Proof.
  destruct (removed_device_not_refilled env_unplug 1 dev_unplugged
              world_unplugged reachable_world_unplugged)
    as (w1 & d1 & H1 & _ & _ & H2 & _ & Hall).
  - simpl. constructor; [intros []|constructor].
  - reflexivity.
  - reflexivity.
  - destruct Hall as (w2 & H3 & H4 & _ & H5 & H6).
    + simpl. lia.
    + exists w1, w2. repeat split; assumption.
Defined.

(** X7. Polling an active device with requests outstanding, when the
    driver accepts every read: each completion is replaced by one new
    read, so the queue depth is what it was, the completed count went up
    by the number of completions, and as many tasks are free as before. *)
Theorem steady_state_refill (env : driver) (p : Z) (d : dev_ctx) (w : world) :
  reachable env w ->
  NoDup (map snd (shape (g_devs w))) ->
  accepting env ->
  find_dev p (g_devs w) = Some d ->
  is_removed d = false -> is_draining d = false ->
  0 < current_queue_depth d ->
  0 <= io_completed d ->
  io_completed d + Z.of_nat (completions env (polls w)) < 2 ^ 64 ->
  exists w1 d1,
    check_io env p w = Done tt w1 /\
    find_dev p (g_devs w1) = Some d1 /\
    current_queue_depth d1 = current_queue_depth d /\
    io_completed d1 =
    io_completed d + Z.of_nat (completions env (polls w)) /\
    List.length (reads w1) =
    (List.length (reads w) + completions env (polls w))%nat /\
    List.length (task_pool w1) = List.length (task_pool w).
Proof.
  intros Hr Hq Hacc Hf Hrem Hdr Hpos Hio0 Hio1.
  pose proof (reachable_Inv env w Hr) as HI.
  assert (Hres : resubmits d = true)
    by (unfold resubmits; rewrite Hrem, Hdr; reflexivity).
  destruct (deliver_refill env Hacc (completions env (polls w)) p d
              (set_polls (S (polls w)) w) (conj HI Hq) Hf Hres Hpos)
    as (w1 & d1 & Hrun & _ & _ & Hf1 & _ & _ & Hc & Hio & Hrd & Hpool);
    [lia|].
  exists w1, d1. split.
  { unfold check_io, bind, load. rewrite Hf.
    unfold spdk_nvme_qpair_process_completions. exact Hrun. }
  split; [assumption|]. split; [assumption|].
  split; [rewrite Hio; unfold wrap64; apply Z.mod_small; lia|].
  split; assumption.
Qed.

Lemma steady_state_refill_witness :
  exists w1 d1,
    check_io env_plug 1 world_serviced = Done tt w1 /\
    find_dev 1 (g_devs w1) = Some d1 /\
    current_queue_depth d1 = 4 /\
    io_completed d1 = 1 + 1 /\
    List.length (reads w1) = (5 + 1)%nat /\
    List.length (task_pool w1) = 4%nat.
Proof.
  apply (steady_state_refill env_plug 1 dev_serviced world_serviced
           reachable_world_serviced).
  - simpl. constructor; [intros []|constructor].
  - intros n. reflexivity.
  - reflexivity.
  - reflexivity.
  - reflexivity.
  - simpl. lia.
  - simpl. lia.
  - simpl. lia.
Defined.

(** ** The queue depth after the first burst *)

Section Capped.

Variable env : driver.
Variables p K : Z.

Let J (w : world) : Prop := Inv w /\ capped p K w.

Lemma submit_single_io_other q w w' :
  submit_single_io env q w = Done tt w' -> p <> q ->
  find_dev p (g_devs w') = find_dev p (g_devs w) /\ allocs w' = allocs w.
Proof.
  intros H Hne. apply submit_single_io_Done in H.
  destruct H as (d & Hf & _ & ->). unfold submit_world.
  destruct (_ =? 0); simpl; rewrite find_dev_store;
    (destruct (Z.eqb_spec p q); [contradiction|auto]).
Qed.

Lemma times_submit_other q (n : nat) :
  forall w w',
    times n (submit_single_io env q) w = Done tt w' -> p <> q ->
    find_dev p (g_devs w') = find_dev p (g_devs w) /\ allocs w' = allocs w.
Proof.
  induction n as [|n IH]; intros w w' H Hne; simpl in H.
  - injection H as <-. auto.
  - apply bind_Done in H. destruct H as ([] & w1 & H1 & H2).
    destruct (submit_single_io_other q w w1 H1 Hne) as (E1 & E2).
    destruct (IH w1 w' H2 Hne) as (E3 & E4). split; congruence.
Qed.

Lemma first_burst_capped q :
  hoare (capped p K) (first_burst env q) (fun _ => capped p K).
Proof.
  intros w [] w' (Hal & Hcap) H. unfold first_burst in H.
  apply bind_Done in H. destruct H as (d & w1 & H1 & H).
  unfold load in H1.
  destruct (find_dev q (g_devs w)) as [d0|] eqn:Hf; [|discriminate].
  injection H1 as <- <-.
  destruct (is_new d0) eqn:Hn; [|injection H as <-; split; assumption].
  assert (Hne : p <> q).
  { intros ->. destruct (Hcap d0 Hf) as (E & _). congruence. }
  apply bind_Done in H. destruct H as ([] & w2 & H2 & H).
  destruct (times_submit_other q _ w w2 H2 Hne) as (E1 & E2).
  apply bind_Done in H. destruct H as (d2 & w3 & H3 & H).
  unfold load in H3. destruct (find_dev q (g_devs w2)); [|discriminate].
  injection H3 as <- <-. unfold store, modify in H. injection H as <-.
  split; simpl; [lia|]. intros x.
  rewrite find_dev_store. destruct (Z.eqb_spec p q); [contradiction|].
  rewrite E1. apply Hcap.
Qed.

Lemma complete_capped q t rest w w' :
  J w ->
  take_inflight q (inflight w) = Some (t, rest) ->
  task_complete env t (set_inflight rest w) = Done tt w' ->
  capped p K w'.
Proof.
  intros ((Hnd & Hdev & Hinf & Hlog) & Hal & Hcap) Htake H.
  destruct (take_inflight_spec _ _ _ _ Htake) as (Hin & _).
  destruct (Hinf q t Hin) as (d & Hf & _).
  rewrite (task_complete_eq env t (set_inflight rest w) d Hf) in H.
  destruct (Hdev _ d Hf) as (_ & Hc & Hle & _).
  pose proof (outstanding_In (dev t) q t _ Hin eq_refl) as Hone.
  assert (Hcd : current_queue_depth (completed_dev d)
                = current_queue_depth d - 1).
  { unfold completed_dev. simpl. unfold wrap64.
    apply Z.mod_small. unfold g_queue_depth in Hle. lia. }
  assert (Hmid : capped p K (complete_world t d (set_inflight rest w))).
  { split; [exact Hal|]. intros d'. unfold complete_world. simpl.
    rewrite find_dev_store, Hf.
    destruct (Z.eqb_spec p (dev t)) as [->|Hne]; [|apply Hcap].
    intros E. injection E as <-. destruct (Hcap d Hf) as (Hn & HK).
    split; [exact Hn|]. rewrite Hcd. lia. }
  destruct (resubmits d); [|injection H as <-; exact Hmid].
  apply submit_single_io_Done in H. destruct H as (d0 & Hf0 & _ & ->).
  unfold complete_world in Hf0. simpl in Hf0.
  rewrite (find_dev_store_same _ _ _ _ Hf) in Hf0. injection Hf0 as <-.
  destruct (advance_cursor_fields (completed_dev d))
    as (_ & _ & _ & _ & Hc1 & _ & Hn1 & _).
  split; [unfold submit_world; destruct (_ =? 0); exact Hal|].
  intros d'. unfold submit_world.
  destruct (_ =? 0); simpl; rewrite find_dev_store;
    (rewrite (find_dev_store_same _ _ _ _ Hf));
    (destruct (Z.eqb_spec p (dev t)) as [->|Hne];
     [|rewrite find_dev_store;
       destruct (Z.eqb_spec p (dev t)); [contradiction|apply Hcap]]);
    intros E; injection E as <-; destruct (Hcap d Hf) as (Hn & HK); simpl.
  - rewrite Hn1, Hc1, Hcd. split; [exact Hn|].
    unfold wrap64. rewrite Z.mod_small by (unfold g_queue_depth in Hle; lia).
    lia.
  - rewrite Hn1, Hc1, Hcd. split; [exact Hn|lia].
Qed.

Lemma deliver_capped q (n : nat) :
  hoare J (deliver (io_complete env) q n) (fun _ => J).
Proof.
  induction n as [|n IH]; intros w [] w' HJ H; cbn [deliver] in H.
  - injection H as <-. assumption.
  - destruct (take_inflight q (inflight w)) as [[t rest]|] eqn:Htake.
    + apply bind_Done in H. destruct H as ([] & w1 & H1 & H2).
      apply (IH w1 tt w'); [|assumption]. split.
      * eapply complete_Inv; [apply HJ|eassumption|exact H1].
      * eapply complete_capped; eassumption.
    + injection H as <-. assumption.
Qed.

Lemma check_io_capped q : hoare J (check_io env q) (fun _ => J).
Proof.
  intros w [] w' HJ H. unfold check_io in H.
  apply bind_Done in H. destruct H as (d & w1 & H1 & H2).
  unfold load in H1. destruct (find_dev q (g_devs w)); [|discriminate].
  injection H1 as <- <-.
  unfold spdk_nvme_qpair_process_completions in H2.
  eapply deliver_capped; [|exact H2]. exact HJ.
Qed.

Lemma drain_loop_capped (fuel : nat) q :
  hoare J (drain_loop env fuel q) (fun _ => J).
Proof.
  induction fuel as [|fuel IH]; intros w [] w' HJ H; cbn [drain_loop] in H;
    apply bind_Done in H; destruct H as (d & w1 & H1 & H2);
    unfold load in H1;
    (destruct (find_dev q (g_devs w)) as [d0|]; [|discriminate]);
    injection H1 as <- <-.
  - destruct (0 <? current_queue_depth d0); [discriminate|].
    injection H2 as <-. assumption.
  - destruct (0 <? current_queue_depth d0).
    + apply bind_Done in H2. destruct H2 as ([] & w2 & H2 & H3).
      apply (IH w2 tt w'); [|assumption].
      eapply check_io_capped; eassumption.
    + injection H2 as <-. assumption.
Qed.

Lemma drain_io_capped (fuel : nat) q :
  hoare J (drain_io env fuel q) (fun _ => J).
Proof.
  intros w [] w' (HI & Hal & Hcap) H. unfold drain_io in H.
  apply bind_Done in H. destruct H as (d & w1 & H1 & H2).
  unfold load in H1.
  destruct (find_dev q (g_devs w)) as [d0|] eqn:Hf; [|discriminate].
  injection H1 as <- <-.
  apply bind_Done in H2. destruct H2 as ([] & w2 & H2 & H3).
  unfold store, modify in H2. injection H2 as <-.
  eapply drain_loop_capped; [|exact H3]. split.
  - eapply (linked_ok_store settled settled q d0); eauto.
  - split; [exact Hal|]. intros d. simpl. rewrite find_dev_store, Hf.
    destruct (Z.eqb_spec p q) as [->|Hne]; [|apply Hcap].
    intros E. injection E as <-. simpl. apply (Hcap d0 Hf).
Qed.

Lemma unregister_dev_capped q :
  hoare J (unregister_dev q) (fun _ => capped p K).
Proof.
  intros w [] w' ((Hnd & _) & Hal & Hcap) H.
  destruct (unregister_dev_effect q w w' H) as (d & _ & Hg & _).
  assert (Ha : allocs w' = allocs w).
  { revert H. unfold unregister_dev, bind, load,
      spdk_nvme_ctrlr_free_io_qpair, spdk_nvme_detach, free, modify.
    destruct (find_dev q (g_devs w)); [|discriminate].
    simpl. intros E. injection E as <-. reflexivity. }
  split; [rewrite Ha; exact Hal|]. intros d'.
  rewrite Hg, (find_dev_remove q p _ Hnd).
  destruct (p =? q); [discriminate|apply Hcap].
Qed.

Lemma register_dev_capped c :
  hoare (capped p K) (register_dev env c) (fun _ => capped p K).
Proof.
  intros w [] w' (Hal & Hcap) H.
  assert (Hup : capped p K (set_allocs (S (allocs w)) w)).
  { split; [simpl; lia|exact Hcap]. }
  unfold register_dev, bind, calloc in H.
  destruct (calloc_null env (allocs w)); [discriminate|].
  remember (Z.of_nat (S (allocs w))) as p0 eqn:Hp0. simpl in H.
  unfold free, modify, fault, spdk_nvme_ctrlr_alloc_io_qpair in H.
  destruct ((c_ns c =? 0) || negb (c_ns_active c));
    [injection H as <-; exact Hup|].
  destruct ((spdk_nvme_ns_get_size c <? g_io_size_bytes)
            || (g_io_size_bytes <? spdk_nvme_ns_get_sector_size c));
    [injection H as <-; exact Hup|].
  destruct (spdk_nvme_ns_get_sector_size c =? 0); [discriminate|].
  simpl in H.
  destruct (c_qpair c =? 0); injection H as <-; [exact Hup|].
  split; [simpl; lia|]. intros d. simpl. rewrite find_dev_app.
  destruct (find_dev p (g_devs w)) as [x|] eqn:Hf.
  - intros E. injection E as <-. apply Hcap. reflexivity.
  - destruct (Z.eqb_spec p0 p); [lia|discriminate].
Qed.

Lemma remove_cb_capped h :
  hoare (capped p K) (remove_cb h) (fun _ => capped p K).
Proof.
  intros w [] w' (Hal & Hcap) H. unfold remove_cb in H.
  destruct (mark_removed h (g_devs w)) as [l|] eqn:Hm.
  - injection H as <-. split; [exact Hal|]. intros d' Hf'. simpl in Hf'.
    destruct (mark_removed_find _ _ _ _ _ Hm Hf') as (d & Hf & [->| ->]);
      apply (Hcap d Hf).
  - unfold spdk_nvme_detach, modify in H. injection H as <-.
    split; assumption.
Qed.

Lemma probe_capped :
  hoare (capped p K)
        (spdk_nvme_probe env probe_cb (attach_cb env) remove_cb)
        (fun _ => capped p K).
Proof.
  intros w rc w' HJ H. unfold spdk_nvme_probe in H.
  apply bind_Done in H. destruct H as ([] & w1 & H1 & H2).
  injection H2 as _ <-.
  eapply (hoare_foreach (capped p K)); [| |exact H1]; [|exact HJ].
  intros [c|h] _; [|apply remove_cb_capped].
  unfold probe_cb. apply register_dev_capped.
Qed.

Lemma step_capped w w' : step env w w' -> J w -> J w'.
Proof.
  intros Hs HJ. split; [eapply step_Inv; [exact Hs|apply HJ]|].
  destruct Hs as [q H|q H|rc H|q H|t H|H|fuel q H|fuel q H].
  - eapply first_burst_capped; [apply HJ|exact H].
  - eapply check_io_capped; eassumption.
  - eapply probe_capped; [apply HJ|exact H].
  - destruct (sweep_dev_cases q w w' H) as [->|(d & _ & _ & _ & Hun)];
      [apply HJ|].
    eapply unregister_dev_capped; eassumption.
  - unfold spdk_get_ticks in H. injection H as _ <-. apply HJ.
  - unfold print_stats, modify in H. injection H as <-.
    destruct HJ as (_ & Hal & Hcap). split; [exact Hal|]. intros d. simpl.
    rewrite (find_dev_map (fun x => set_prev_io_completed (io_completed x) x)).
    destruct (find_dev p (g_devs w)) as [x|] eqn:Hf; [|discriminate].
    intros E. injection E as <-. simpl. apply (Hcap x eq_refl).
  - eapply drain_io_capped; eassumption.
  - apply bind_Done in H. destruct H as ([] & w1 & H1 & H2).
    eapply unregister_dev_capped; [|exact H2].
    eapply drain_io_capped; eassumption.
Qed.

End Capped.

Lemma steps_world_polled : steps env_plug world_serviced world_polled.
Proof.
  apply steps_one. apply (step_check env_plug _ _ 1). reflexivity.
Defined.

(** X8. Once a device has had its first burst, nothing raises its queue
    depth: whatever the program does next, as long as the descriptor is
    linked its queue depth stays between 0 and what it was.  A request
    lost to a refused submission is never made up, and a device whose
    depth has reached 0 stays idle. *)
Theorem depth_never_grows (env : driver) (p : Z) (d d' : dev_ctx)
    (w w' : world) :
  reachable env w ->
  find_dev p (g_devs w) = Some d ->
  is_new d = false ->
  steps env w w' ->
  find_dev p (g_devs w') = Some d' ->
  is_new d' = false /\
  0 <= current_queue_depth d' <= current_queue_depth d.
Proof.
  intros Hr Hf Hn Hs Hf'.
  pose proof (reachable_Inv env w Hr) as HI.
  assert (HJ : Inv w /\ capped p (current_queue_depth d) w).
  { split; [assumption|]. destruct HI as (_ & Hdev & _).
    destruct (Hdev p d Hf) as (Hal & _). split; [exact Hal|].
    intros x Hx. rewrite Hf in Hx. injection Hx as <-. split; [assumption|lia]. }
  apply (steps_invariant env _ (step_capped env p (current_queue_depth d))
           w w' Hs) in HJ.
  destruct HJ as ((_ & Hdev' & _) & _ & Hcap).
  destruct (Hcap d' Hf') as (Hn' & Hle).
  destruct (Hdev' p d' Hf') as (_ & Hc & _).
  pose proof (outstanding_nonneg p (inflight w')).
  split; [assumption|lia].
Qed.

Lemma depth_never_grows_witness :
  is_new dev_polled = false /\
  0 <= current_queue_depth dev_polled <= current_queue_depth dev_serviced.
Proof.
  apply (depth_never_grows env_plug 1 dev_serviced dev_polled
           world_serviced world_polled reachable_world_serviced).
  - reflexivity.
  - reflexivity.
  - exact steps_world_polled.
  - reflexivity.
Defined.

(** ** Invariants of the steps, in general *)

Section StepInvariant.

Variable env : driver.
Variable I : world -> Prop.

Hypothesis I_submit : forall rc p d w,
  find_dev p (g_devs w) = Some d -> I w -> I (submit_world rc p d w).
Hypothesis I_complete : forall t d w,
  find_dev (dev t) (g_devs w) = Some d -> I w -> I (complete_world t d w).
Hypothesis I_inflight : forall l w, I w -> I (set_inflight l w).
Hypothesis I_polls : forall n w, I w -> I (set_polls n w).
Hypothesis I_probes : forall n w, I w -> I (set_probes n w).
Hypothesis I_ticks : forall n w, I w -> I (set_tick_reads n w).
Hypothesis I_new : forall p d w,
  find_dev p (g_devs w) = Some d -> I w ->
  I (set_g_devs (store_dev p (set_is_new false d) (g_devs w)) w).
Hypothesis I_draining : forall p d w,
  find_dev p (g_devs w) = Some d -> I w ->
  I (set_g_devs (store_dev p (set_is_draining true d) (g_devs w)) w).
Hypothesis I_register : forall c,
  announced env c -> hoare I (register_dev env c) (fun _ => I).
Hypothesis I_unregister : forall p,
  hoare (fun w => Inv w /\ I w) (unregister_dev p) (fun _ => I).
Hypothesis I_remove : forall h, hoare I (remove_cb h) (fun _ => I).
Hypothesis I_stats : hoare I print_stats (fun _ => I).

Lemma submit_single_io_inv p : hoare I (submit_single_io env p) (fun _ => I).
Proof.
  intros w [] w' HI H. apply submit_single_io_Done in H.
  destruct H as (d & Hf & _ & ->). apply I_submit; assumption.
Qed.

Lemma times_submit_inv p (n : nat) :
  hoare I (times n (submit_single_io env p)) (fun _ => I).
Proof.
  induction n as [|n IH]; intros w [] w' HI H; simpl in H.
  - injection H as <-. assumption.
  - apply bind_Done in H. destruct H as ([] & w1 & H1 & H2).
    eapply IH; [|exact H2]. eapply submit_single_io_inv; eassumption.
Qed.

Lemma task_complete_inv t : hoare I (task_complete env t) (fun _ => I).
Proof.
  intros w [] w' HI H.
  destruct (find_dev (dev t) (g_devs w)) as [d|] eqn:Hf.
  - rewrite (task_complete_eq env t w d Hf) in H.
    pose proof (I_complete t d w Hf HI) as HI1.
    destruct (resubmits d).
    + eapply submit_single_io_inv; eassumption.
    + injection H as <-. assumption.
  - unfold task_complete, bind, load in H. rewrite Hf in H. discriminate.
Qed.

Lemma deliver_inv q (n : nat) :
  hoare I (deliver (io_complete env) q n) (fun _ => I).
Proof.
  induction n as [|n IH]; intros w [] w' HI H; cbn [deliver] in H.
  - injection H as <-. assumption.
  - destruct (take_inflight q (inflight w)) as [[t rest]|].
    + apply bind_Done in H. destruct H as ([] & w1 & H1 & H2).
      apply (IH w1 tt w'); [|assumption].
      eapply (task_complete_inv t); [|exact H1]. apply I_inflight. exact HI.
    + injection H as <-. assumption.
Qed.

Lemma check_io_inv p : hoare I (check_io env p) (fun _ => I).
Proof.
  intros w [] w' HI H. unfold check_io in H.
  apply bind_Done in H. destruct H as (d & w1 & H1 & H2).
  unfold load in H1. destruct (find_dev p (g_devs w)); [|discriminate].
  injection H1 as <- <-.
  unfold spdk_nvme_qpair_process_completions in H2.
  eapply deliver_inv; [|exact H2]. apply I_polls. exact HI.
Qed.

Lemma first_burst_inv p : hoare I (first_burst env p) (fun _ => I).
Proof.
  intros w [] w' HI H. unfold first_burst in H.
  apply bind_Done in H. destruct H as (d & w1 & H1 & H).
  unfold load in H1.
  destruct (find_dev p (g_devs w)) as [d0|]; [|discriminate].
  injection H1 as <- <-.
  destruct (is_new d0); [|injection H as <-; assumption].
  apply bind_Done in H. destruct H as ([] & w2 & H2 & H).
  apply bind_Done in H. destruct H as (d2 & w3 & H3 & H).
  unfold load in H3.
  destruct (find_dev p (g_devs w2)) as [d3|] eqn:Hf; [|discriminate].
  injection H3 as <- <-. unfold store, modify in H. injection H as <-.
  apply I_new; [exact Hf|].
  eapply times_submit_inv; [|exact H2]. exact HI.
Qed.

Lemma drain_loop_inv (fuel : nat) p :
  hoare I (drain_loop env fuel p) (fun _ => I).
Proof.
  induction fuel as [|fuel IH]; intros w [] w' HI H; cbn [drain_loop] in H;
    apply bind_Done in H; destruct H as (d & w1 & H1 & H2);
    unfold load in H1;
    (destruct (find_dev p (g_devs w)) as [d0|]; [|discriminate]);
    injection H1 as <- <-.
  - destruct (0 <? current_queue_depth d0); [discriminate|].
    injection H2 as <-. assumption.
  - destruct (0 <? current_queue_depth d0).
    + apply bind_Done in H2. destruct H2 as ([] & w2 & H2 & H3).
      apply (IH w2 tt w'); [|assumption].
      eapply check_io_inv; eassumption.
    + injection H2 as <-. assumption.
Qed.

Lemma drain_io_inv (fuel : nat) p :
  hoare I (drain_io env fuel p) (fun _ => I).
Proof.
  intros w [] w' HI H. unfold drain_io in H.
  apply bind_Done in H. destruct H as (d & w1 & H1 & H2).
  unfold load in H1.
  destruct (find_dev p (g_devs w)) as [d0|] eqn:Hf; [|discriminate].
  injection H1 as <- <-.
  apply bind_Done in H2. destruct H2 as ([] & w2 & H2 & H3).
  unfold store, modify in H2. injection H2 as <-.
  eapply drain_loop_inv; [|exact H3]. apply I_draining; assumption.
Qed.

Lemma probe_inv :
  hoare I (spdk_nvme_probe env probe_cb (attach_cb env) remove_cb)
        (fun _ => I).
Proof.
  intros w rc w' HI H. unfold spdk_nvme_probe in H.
  apply bind_Done in H. destruct H as ([] & w1 & H1 & H2).
  injection H2 as _ <-.
  eapply (hoare_foreach I); [| |exact H1]; [|apply I_probes; exact HI].
  intros [c|h] Hin; [|apply I_remove].
  unfold probe_cb, attach_cb. apply I_register. exists (probes w). exact Hin.
Qed.

Lemma step_inv w w' : step env w w' -> Inv w /\ I w -> Inv w' /\ I w'.
Proof.
  intros Hs HJ. split; [eapply step_Inv; [exact Hs|apply HJ]|].
  destruct HJ as (HInv & HI).
  destruct Hs as [q H|q H|rc H|q H|t H|H|fuel q H|fuel q H].
  - eapply first_burst_inv; eassumption.
  - eapply check_io_inv; eassumption.
  - eapply probe_inv; eassumption.
  - destruct (sweep_dev_cases q w w' H) as [->|(d & _ & _ & _ & Hun)];
      [exact HI|].
    eapply I_unregister; [|exact Hun]. split; assumption.
  - unfold spdk_get_ticks in H. injection H as _ <-. apply I_ticks. exact HI.
  - eapply I_stats; eassumption.
  - eapply drain_io_inv; eassumption.
  - apply bind_Done in H. destruct H as ([] & w1 & H1 & H2).
    eapply I_unregister; [|exact H2]. split.
    + eapply drain_io_Inv; eassumption.
    + eapply drain_io_inv; eassumption.
Qed.

Lemma steps_inv w w' : steps env w w' -> Inv w /\ I w -> Inv w' /\ I w'.
Proof. apply (steps_invariant env (fun x => Inv x /\ I x) step_inv). Qed.

End StepInvariant.

(** ** Descriptors on the heap *)

Lemma remove_dev_perm p d l :
  find_dev p l = Some d ->
  Permutation (map fst l) (p :: map fst (remove_dev p l)).
Proof.
  induction l as [|[a x] l IH]; simpl; [discriminate|].
  destruct (Z.eqb_spec a p) as [->|Hne]; intros H.
  - apply Permutation_refl.
  - simpl. eapply perm_trans; [apply perm_skip, IH, H|]. apply perm_swap.
Qed.

Lemma NoDup_app_disjoint {A} (l1 l2 : list A) a :
  NoDup (l1 ++ l2) -> In a l1 -> In a l2 -> False.
Proof.
  intros Hnd H1 H2. destruct (in_split _ _ H2) as (x & y & ->).
  rewrite app_assoc in Hnd. apply NoDup_remove_2 in Hnd.
  apply Hnd. rewrite <- app_assoc. apply in_or_app. left. exact H1.
Qed.

Lemma seq_snoc (n : nat) :
  map Z.of_nat (seq 1 (S n)) = map Z.of_nat (seq 1 n) ++ [Z.of_nat (S n)].
Proof. rewrite seq_S, map_app. reflexivity. Qed.

Lemma heap_ok_grow a w :
  heap_ok w ->
  Permutation (map fst (g_devs w) ++ frees w ++ [a])
              (map Z.of_nat (seq 1 (allocs w)) ++ [a]).
Proof.
  intros H. rewrite app_assoc. apply Permutation_app_tail. exact H.
Qed.

Section Heap.

Variable env : driver.

Lemma register_dev_heap c : hoare heap_ok (register_dev env c) (fun _ => heap_ok).
Proof.
  intros w [] w' HH H.
  pose proof (heap_ok_grow (Z.of_nat (S (allocs w))) w HH) as Hfree.
  unfold register_dev, bind, calloc in H.
  destruct (calloc_null env (allocs w)); [discriminate|].
  remember (Z.of_nat (S (allocs w))) as p0 eqn:Hp0.
  assert (Hseq : map Z.of_nat (seq 1 (S (allocs w)))
                 = map Z.of_nat (seq 1 (allocs w)) ++ [p0])
    by (rewrite Hp0; apply seq_snoc).
  assert (Hfreed : heap_ok (set_frees (frees w ++ [p0])
                              (set_allocs (S (allocs w)) w))).
  { unfold heap_ok.
    cbn [g_devs frees allocs set_frees set_allocs].
    rewrite Hseq. exact Hfree. }
  cbn [ns set_ns set_is_draining set_is_removed set_is_new set_ctrlr] in H.
  unfold free, modify, fault, spdk_nvme_ctrlr_alloc_io_qpair in H.
  destruct ((c_ns c =? 0) || negb (c_ns_active c));
    [injection H as <-; exact Hfreed|].
  destruct ((spdk_nvme_ns_get_size c <? g_io_size_bytes)
            || (g_io_size_bytes <? spdk_nvme_ns_get_sector_size c));
    [injection H as <-; exact Hfreed|].
  destruct (spdk_nvme_ns_get_sector_size c =? 0); [discriminate|].
  cbn [qpair set_qpair set_io_size_blocks set_size_in_ios] in H.
  destruct (c_qpair c =? 0); injection H as <-; [exact Hfreed|].
  unfold heap_ok.
  cbn [g_devs frees allocs set_g_devs set_qpair_allocs set_allocs].
  rewrite Hseq, map_app. cbn [map fst].
  eapply perm_trans; [|exact Hfree].
  rewrite <- !app_assoc. apply Permutation_app_head.
  apply Permutation_app_comm.
Qed.

Lemma unregister_dev_heap p :
  hoare (fun w => Inv w /\ heap_ok w) (unregister_dev p) (fun _ => heap_ok).
Proof.
  intros w [] w' (_ & HH) H.
  destruct (unregister_dev_effect p w w' H) as (d & Hf & Hg & _ & _ & Hfr & _).
  assert (Ha : allocs w' = allocs w).
  { revert H. unfold unregister_dev, bind, load,
      spdk_nvme_ctrlr_free_io_qpair, spdk_nvme_detach, free, modify.
    destruct (find_dev p (g_devs w)); [|discriminate].
    simpl. intros E. injection E as <-. reflexivity. }
  unfold heap_ok. rewrite Ha, Hg, Hfr.
  eapply perm_trans; [|exact HH].
  eapply perm_trans;
    [|apply Permutation_app_tail, Permutation_sym, (remove_dev_perm p d _ Hf)].
  simpl. rewrite app_assoc. apply Permutation_sym, Permutation_cons_append.
Qed.

Lemma remove_cb_heap h : hoare heap_ok (remove_cb h) (fun _ => heap_ok).
Proof.
  intros w [] w' HH H. unfold remove_cb in H.
  destruct (mark_removed h (g_devs w)) as [l|] eqn:Hm.
  - injection H as <-. unfold heap_ok. simpl.
    rewrite (mark_removed_fst _ _ _ Hm). exact HH.
  - unfold spdk_nvme_detach, modify in H. injection H as <-. exact HH.
Qed.

Lemma step_heap w w' :
  step env w w' -> Inv w /\ heap_ok w -> Inv w' /\ heap_ok w'.
Proof.
  apply (step_inv env heap_ok).
  - intros rc p d x _ H. unfold heap_ok, submit_world.
    destruct (rc =? 0); simpl; rewrite map_fst_store_dev; exact H.
  - intros t d x _ H. unfold heap_ok, complete_world. simpl.
    rewrite map_fst_store_dev. exact H.
  - intros l x H. exact H.
  - intros n x H. exact H.
  - intros n x H. exact H.
  - intros n x H. exact H.
  - intros p d x _ H. unfold heap_ok. simpl.
    rewrite map_fst_store_dev. exact H.
  - intros p d x _ H. unfold heap_ok. simpl.
    rewrite map_fst_store_dev. exact H.
  - intros c _. apply register_dev_heap.
  - apply unregister_dev_heap.
  - apply remove_cb_heap.
  - intros x [] x' H E. unfold print_stats, modify in E. injection E as <-.
    unfold heap_ok. simpl. rewrite map_map. simpl. exact H.
Qed.

End Heap.

Lemma steps_world_two : steps env_two world_pool world_two.
Proof.
  apply steps_one. apply (step_probe env_two world_pool world_two 0).
  reflexivity.
Defined.

(** X9. From a start with nothing allocated, whatever the program does,
    the addresses [calloc] has handed out are exactly the linked
    descriptors together with the freed ones, each once: no descriptor
    leaks, none is freed twice, and no linked descriptor has been
    freed. *)
Theorem descriptors_linked_or_freed (env : driver) (w w' : world) :
  initial w -> allocs w = 0%nat -> frees w = [] ->
  steps env w w' ->
  Permutation (map fst (g_devs w') ++ frees w')
              (map Z.of_nat (seq 1 (allocs w'))) /\
  NoDup (frees w') /\
  forall p, In p (frees w') -> find_dev p (g_devs w') = None.
Proof.
  intros Hi Ha Hfr Hs.
  assert (H0 : Inv w /\ heap_ok w).
  { split; [apply initial_Inv; exact Hi|].
    destruct Hi as (Hg & _). unfold heap_ok. rewrite Hg, Ha, Hfr.
    apply Permutation_refl. }
  apply (steps_invariant env _ (step_heap env) w w' Hs) in H0.
  destruct H0 as (_ & HH). split; [exact HH|].
  assert (Hnd : NoDup (map fst (g_devs w') ++ frees w')).
  { apply (Permutation_NoDup (Permutation_sym HH)).
    apply Finite.Injective_map_NoDup; [|apply seq_NoDup].
    intros a b. apply Nat2Z.inj. }
  split; [eapply NoDup_app_remove_l; exact Hnd|].
  intros p Hp. apply find_dev_None. intros Hin.
  exact (NoDup_app_disjoint _ _ p Hnd Hin Hp).
Qed.

Lemma descriptors_linked_or_freed_witness :
  Permutation (map fst (g_devs world_two) ++ frees world_two)
              (map Z.of_nat (seq 1 (allocs world_two))) /\
  NoDup (frees world_two).
Proof.
  destruct (descriptors_linked_or_freed env_two world_pool world_two)
    as (H1 & H2 & _).
  - repeat split.
  - reflexivity.
  - reflexivity.
  - exact steps_world_two.
  - split; assumption.
Defined.

(** ** Reads stay inside the namespace *)

Lemma geom_read env d task :
  geom env d ->
  in_bounds env
    (mk_read (ns d) (qpair d) task
       (wrap64 (offset_in_ios d * io_size_blocks d)) (io_size_blocks d)).
Proof.
  intros (c & Han & Hns & Hq & Hsec & Hsize & Hios & Hblk & Hoff).
  exists c. cbn [cmd_ns cmd_qpair cmd_lba cmd_lba_count].
  unfold g_io_size_bytes in *.
  set (sec := spdk_nvme_ns_get_sector_size c) in *.
  set (size := spdk_nvme_ns_get_size c) in *.
  assert (Hsz : 0 <= size < 2 ^ 64)
    by (apply Z.mod_pos_bound; reflexivity).
  assert (Hb : 1 <= io_size_blocks d <= 4096).
  { rewrite Hblk. split.
    - apply Z.div_le_lower_bound; lia.
    - apply Z.div_le_upper_bound; nia. }
  assert (Hbs : io_size_blocks d * sec <= 4096).
  { rewrite Hblk, Z.mul_comm. apply Z.mul_div_le. lia. }
  assert (Hs4 : size_in_ios d * 4096 <= size).
  { rewrite Hios, Z.mul_comm. apply Z.mul_div_le. lia. }
  assert (Hwrap : wrap64 (offset_in_ios d * io_size_blocks d)
                  = offset_in_ios d * io_size_blocks d).
  { unfold wrap64. apply Z.mod_small. split; [nia|].
    assert (offset_in_ios d * io_size_blocks d
            <= size_in_ios d * 4096) by nia. lia. }
  rewrite Hwrap.
  split; [exact Han|]. split; [exact Hns|]. split; [exact Hq|].
  split; [lia|]. split; [exact Hblk|]. split; [lia|].
  split; [nia|]. split; [apply Z.divide_factor_r|].
  assert ((offset_in_ios d + 1) * (io_size_blocks d * sec)
          <= size_in_ios d * 4096) by nia.
  nia.
Qed.

Lemma geom_same env d d' :
  ns d' = ns d -> qpair d' = qpair d -> size_in_ios d' = size_in_ios d ->
  io_size_blocks d' = io_size_blocks d ->
  offset_in_ios d' = offset_in_ios d ->
  geom env d -> geom env d'.
Proof.
  intros E1 E2 E3 E4 E5 (c & H). exists c.
  rewrite E1, E2, E3, E4, E5. exact H.
Qed.

Lemma geom_advance env d : geom env d -> geom env (advance_cursor d).
Proof.
  intros (c & Han & Hns & Hq & Hsec & Hsize & Hios & Hblk & Hoff).
  destruct (advance_cursor_fields d)
    as (En & Eq & Eb & Es & _).
  assert (Hs : 1 <= size_in_ios d < 2 ^ 64).
  { rewrite Hios. unfold g_io_size_bytes in *.
    assert (0 <= spdk_nvme_ns_get_size c < 2 ^ 64)
      by (apply Z.mod_pos_bound; reflexivity).
    split.
    - apply Z.div_le_lower_bound; lia.
    - apply Z.div_lt_upper_bound; lia. }
  destruct (advance_cursor_range d Hs Hoff) as (_ & Hr).
  exists c. rewrite En, Eq, Eb, Es.
  split; [exact Han|]. split; [exact Hns|]. split; [exact Hq|].
  split; [exact Hsec|]. split; [exact Hsize|]. split; [exact Hios|].
  split; [exact Hblk|exact Hr].
Qed.

Section Geometry.

Variable env : driver.
Variable w0 : world.

Lemma geom_ok_devs (f : dev_ctx -> dev_ctx) p d w :
  (forall x, geom env x -> geom env (f x)) ->
  find_dev p (g_devs w) = Some d ->
  geom_ok env w0 w ->
  geom_ok env w0 (set_g_devs (store_dev p (f d) (g_devs w)) w).
Proof.
  intros Hf Hp (HG & HL). split; [|exact HL].
  intros q x. cbn [g_devs set_g_devs]. rewrite find_dev_store, Hp.
  destruct (q =? p); [|apply HG].
  intros E. injection E as <-. apply Hf. apply (HG p d Hp).
Qed.

Lemma geom_ok_submit rc p d w :
  find_dev p (g_devs w) = Some d -> geom_ok env w0 w ->
  geom_ok env w0 (submit_world rc p d w).
Proof.
  intros Hp (HG & new & Hr & Hnew).
  pose proof (HG p d Hp) as Hd.
  assert (Hlog : forall task,
             exists new',
               reads w ++ [mk_read (ns d) (qpair d) task
                             (wrap64 (offset_in_ios d * io_size_blocks d))
                             (io_size_blocks d)]
               = reads w0 ++ new' /\ Forall (in_bounds env) new').
  { intros task. eexists. rewrite Hr, <- app_assoc. split; [reflexivity|].
    apply Forall_app. split; [exact Hnew|].
    constructor; [apply geom_read; exact Hd|constructor]. }
  unfold submit_world. destruct (rc =? 0); split;
    cbn [g_devs reads set_g_devs set_inflight set_reads set_task_pool];
    try apply Hlog; intros q x; rewrite find_dev_store, Hp;
    (destruct (q =? p); [|apply HG]); intros E; injection E as <-.
  - apply (geom_same env (advance_cursor d)); try reflexivity.
    apply geom_advance. exact Hd.
  - apply geom_advance. exact Hd.
Qed.

Lemma geom_ok_complete t d w :
  find_dev (dev t) (g_devs w) = Some d -> geom_ok env w0 w ->
  geom_ok env w0 (complete_world t d w).
Proof.
  intros Hp (HG & HL). split; [|exact HL].
  intros q x. unfold complete_world.
  cbn [g_devs set_g_devs set_task_pool]. rewrite find_dev_store, Hp.
  destruct (q =? dev t); [|apply HG].
  intros E. injection E as <-.
  apply (geom_same env d); try reflexivity. apply (HG _ d Hp).
Qed.

Lemma register_dev_geom c :
  announced env c ->
  hoare (geom_ok env w0) (register_dev env c) (fun _ => geom_ok env w0).
Proof.
  intros Han w [] w' (HG & HL) H.
  assert (Hup : forall f, geom_ok env w0
                  (set_frees f (set_allocs (S (allocs w)) w)))
    by (intros f; split; assumption).
  unfold register_dev, bind, calloc in H.
  destruct (calloc_null env (allocs w)); [discriminate|].
  remember (Z.of_nat (S (allocs w))) as p0 eqn:Hp0.
  cbn [ns set_ns set_is_draining set_is_removed set_is_new set_ctrlr] in H.
  unfold free, modify, fault, spdk_nvme_ctrlr_alloc_io_qpair in H.
  destruct ((c_ns c =? 0) || negb (c_ns_active c));
    [injection H as <-; apply Hup|].
  destruct ((spdk_nvme_ns_get_size c <? g_io_size_bytes)
            || (g_io_size_bytes <? spdk_nvme_ns_get_sector_size c)) eqn:Hchk;
    [injection H as <-; apply Hup|].
  destruct (Z.eqb_spec (spdk_nvme_ns_get_sector_size c) 0) as [|Hsec];
    [discriminate|].
  cbn [qpair set_qpair set_io_size_blocks set_size_in_ios] in H.
  destruct (c_qpair c =? 0); injection H as <-; [apply Hup|].
  apply orb_false_iff in Hchk. destruct Hchk as (Hc1 & Hc2).
  apply Z.ltb_ge in Hc1, Hc2.
  assert (Hs0 : 0 <= spdk_nvme_ns_get_sector_size c)
    by (apply Z.mod_pos_bound; reflexivity).
  assert (Hsz : 0 <= spdk_nvme_ns_get_size c < 2 ^ 64)
    by (apply Z.mod_pos_bound; reflexivity).
  split; [|exact HL].
  intros q x. cbn [g_devs set_g_devs set_qpair_allocs set_allocs].
  rewrite find_dev_app.
  destruct (find_dev q (g_devs w)) as [y|] eqn:Hf.
  - intros E. injection E as <-. apply (HG q y Hf).
  - destruct (p0 =? q); [|discriminate].
    intros E. injection E as <-. exists c.
    cbn [ns qpair size_in_ios io_size_blocks offset_in_ios dev_zero
         set_ns set_qpair set_io_size_blocks set_size_in_ios
         set_is_draining set_is_removed set_is_new set_ctrlr].
    split; [exact Han|]. split; [reflexivity|]. split; [reflexivity|].
    split; [lia|]. split; [exact Hc1|]. split; [reflexivity|].
    split; [reflexivity|]. split; [reflexivity|].
    unfold g_io_size_bytes in *. apply Z.div_str_pos. lia.
Qed.

Lemma unregister_dev_geom p :
  hoare (fun w => Inv w /\ geom_ok env w0 w) (unregister_dev p)
        (fun _ => geom_ok env w0).
Proof.
  intros w [] w' ((Hnd & _) & HG & HL) H.
  destruct (unregister_dev_effect p w w' H) as (d & _ & Hg & _).
  assert (Hr : reads w' = reads w).
  { revert H. unfold unregister_dev, bind, load,
      spdk_nvme_ctrlr_free_io_qpair, spdk_nvme_detach, free, modify.
    destruct (find_dev p (g_devs w)); [|discriminate].
    simpl. intros E. injection E as <-. reflexivity. }
  split; [|rewrite Hr; exact HL].
  intros q x. rewrite Hg, (find_dev_remove p q _ Hnd).
  destruct (q =? p); [discriminate|apply HG].
Qed.

Lemma remove_cb_geom h :
  hoare (geom_ok env w0) (remove_cb h) (fun _ => geom_ok env w0).
Proof.
  intros w [] w' (HG & HL) H. unfold remove_cb in H.
  destruct (mark_removed h (g_devs w)) as [l|] eqn:Hm.
  - injection H as <-. split; [|exact HL]. intros q x Hf. simpl in Hf.
    destruct (mark_removed_find _ _ _ _ _ Hm Hf) as (d & Hd & [->| ->]);
      [apply (HG q d Hd)|].
    apply (geom_same env d); try reflexivity. apply (HG q d Hd).
  - unfold spdk_nvme_detach, modify in H. injection H as <-.
    split; assumption.
Qed.

Lemma step_geom w w' :
  step env w w' ->
  Inv w /\ geom_ok env w0 w -> Inv w' /\ geom_ok env w0 w'.
Proof.
  apply (step_inv env (geom_ok env w0)).
  - apply geom_ok_submit.
  - apply geom_ok_complete.
  - intros l x H. exact H.
  - intros n x H. exact H.
  - intros n x H. exact H.
  - intros n x H. exact H.
  - intros p d x. apply (geom_ok_devs (set_is_new false)).
    intros y. apply geom_same; reflexivity.
  - intros p d x. apply (geom_ok_devs (set_is_draining true)).
    intros y. apply geom_same; reflexivity.
  - apply register_dev_geom.
  - apply unregister_dev_geom.
  - apply remove_cb_geom.
  - intros x [] x' (HG & HL) E. unfold print_stats, modify in E.
    injection E as <-. split; [|exact HL]. intros q y.
    cbn [g_devs set_g_devs].
    rewrite (find_dev_map (fun z => set_prev_io_completed (io_completed z) z)).
    destruct (find_dev q (g_devs x)) as [z|] eqn:Hf; [|discriminate].
    intros E. injection E as <-.
    apply (geom_same env z); try reflexivity. apply (HG q z Hf).
Qed.

End Geometry.

Lemma reachable_geom (env : driver) w :
  reachable env w -> forall p d, find_dev p (g_devs w) = Some d -> geom env d.
Proof.
  induction 1 as [w (Hg & _)|w w' Hr IH Hs].
  - rewrite Hg. discriminate.
  - pose proof (reachable_Inv env w Hr) as HI.
    destruct (step_geom env w w w' Hs) as (_ & HG & _); [|exact HG].
    split; [exact HI|]. split; [exact IH|].
    exists []. rewrite app_nil_r. split; [reflexivity|constructor].
Qed.

(** X10. Every read the program issues, from any state it can be in, is
    in bounds: it goes to the namespace and the queue pair of a
    controller the driver announced, asks for as many sectors as fit in
    4096 bytes, starts on a multiple of that count, and ends inside the
    namespace. *)
Theorem reads_within_namespace (env : driver) (w w' : world) :
  reachable env w -> steps env w w' ->
  exists new, reads w' = reads w ++ new /\ Forall (in_bounds env) new.
Proof.
  intros Hr Hs.
  assert (H0 : Inv w /\ geom_ok env w w).
  { split; [apply (reachable_Inv env w Hr)|].
    split; [apply (reachable_geom env w Hr)|].
    exists []. rewrite app_nil_r. split; [reflexivity|constructor]. }
  apply (steps_invariant env _ (step_geom env w) w w' Hs) in H0.
  destruct H0 as (_ & _ & HL). exact HL.
Qed.

Lemma reads_within_namespace_witness :
  exists new,
    reads world_polled = reads world_serviced ++ new /\
    Forall (in_bounds env_plug) new.
Proof.
  apply (reads_within_namespace env_plug world_serviced world_polled
           reachable_world_serviced steps_world_polled).
Defined.

(** ** The end of [io_loop] *)

Lemma shape_head p ps d l :
  map fst l = p :: ps -> find_dev p l = Some d ->
  shape l = (p, qpair d) :: shape (remove_dev p l).
Proof.
  destruct l as [|[a x] l]; simpl; [discriminate|].
  intros H. injection H as -> _. rewrite Z.eqb_refl.
  intros E. injection E as ->. reflexivity.
Qed.

Lemma unregister_dev_reads p w w' :
  unregister_dev p w = Done tt w' -> reads w' = reads w.
Proof.
  unfold unregister_dev, bind, load,
    spdk_nvme_ctrlr_free_io_qpair, spdk_nvme_detach, free, modify.
  destruct (find_dev p (g_devs w)); [|discriminate].
  simpl. intros E. injection E as <-. reflexivity.
Qed.

Lemma Inv_empty w : Inv w -> g_devs w = [] -> inflight w = [].
Proof.
  intros (_ & _ & Hinf & _) Hg.
  destruct (inflight w) as [|[q t] l]; [reflexivity|].
  destruct (Hinf q t (or_introl eq_refl)) as (d & Hf & _).
  rewrite Hg in Hf. discriminate.
Qed.

Section ShutdownQuiet.

Variable env : driver.
Hypothesis Hresp : responsive env.

(** The polls of a draining device: its commands complete, none is
    replaced. *)
Lemma drain_loop_quiet (fuel : nat) :
  forall p d w,
    drain_ready w ->
    find_dev p (g_devs w) = Some d ->
    resubmits d = false ->
    current_queue_depth d <= Z.of_nat fuel ->
    exists w' d',
      drain_loop env fuel p w = Done tt w' /\
      drain_ready w' /\
      shape (g_devs w') = shape (g_devs w) /\
      find_dev p (g_devs w') = Some d' /\
      current_queue_depth d' = 0 /\
      reads w' = reads w /\ qpair_frees w' = qpair_frees w.
Proof.
  induction fuel as [|fuel IH]; intros p d w Hready Hf Hres Hle;
    cbn [drain_loop]; unfold bind, load at 1; rewrite Hf.
  - destruct (Z.ltb_spec 0 (current_queue_depth d)) as [Hpos|Hz]; [lia|].
    exists w, d. assert (Hready' := Hready). destruct Hready' as (HI & Hq).
    destruct HI as (Hnd & Hdev & Hinf & Hlog).
    destruct (Hdev p d Hf) as (_ & Hc & _).
    pose proof (outstanding_nonneg p (inflight w)).
    split; [reflexivity|]. split; [assumption|].
    split; [reflexivity|]. split; [assumption|].
    split; [lia|]. split; reflexivity.
  - destruct (Z.ltb_spec 0 (current_queue_depth d)) as [Hpos|Hz].
    + unfold check_io, bind, load at 1. rewrite Hf.
      unfold spdk_nvme_qpair_process_completions.
      destruct (deliver_quiet env (completions env (polls w)) p d
                  (set_polls (S (polls w)) w) Hready Hf Hres)
        as (w1 & d1 & Hrun & Hready1 & Hsh1 & Hf1 & Hres1 & _ & _ & _ & Hc1
            & Hrd1 & _ & Hqf1 & _).
      rewrite Hrun.
      destruct (IH p d1 w1 Hready1 Hf1 Hres1)
        as (w' & d' & Hrun' & Hready' & Hsh' & Hf' & Hc' & Hrd' & Hqf').
      { pose proof (Hresp (polls w)). lia. }
      exists w', d'. split; [exact Hrun'|]. split; [assumption|].
      split; [rewrite Hsh'; exact Hsh1|]. split; [assumption|].
      split; [assumption|]. split.
      * rewrite Hrd'. exact Hrd1.
      * rewrite Hqf'. exact Hqf1.
    + exists w, d. assert (Hready' := Hready). destruct Hready' as (HI & Hq).
      destruct HI as (Hnd & Hdev & Hinf & Hlog).
      destruct (Hdev p d Hf) as (_ & Hc & _).
      pose proof (outstanding_nonneg p (inflight w)).
      split; [reflexivity|]. split; [assumption|].
      split; [reflexivity|]. split; [assumption|].
      split; [lia|]. split; reflexivity.
Qed.

Lemma drain_io_quiet (fuel : nat) p d w :
  drain_ready w ->
  find_dev p (g_devs w) = Some d ->
  (4 <= fuel)%nat ->
  exists w' d',
    drain_io env fuel p w = Done tt w' /\
    drain_ready w' /\
    shape (g_devs w') = shape (g_devs w) /\
    find_dev p (g_devs w') = Some d' /\
    current_queue_depth d' = 0 /\
    reads w' = reads w /\ qpair_frees w' = qpair_frees w.
Proof.
  intros (HI & Hq) Hf Hfuel.
  unfold drain_io, bind, load, store, modify. rewrite Hf.
  set (w1 := set_g_devs (store_dev p (set_is_draining true d) (g_devs w)) w).
  assert (Hsh : shape (g_devs w1) = shape (g_devs w))
    by (eapply shape_store; [eassumption|reflexivity]).
  assert (HI1 : Inv w1)
    by (eapply (linked_ok_store settled settled p d); eauto).
  assert (Hf1 : find_dev p (g_devs w1) = Some (set_is_draining true d))
    by (eapply find_dev_store_same; eassumption).
  destruct HI as (_ & Hdev & _). destruct (Hdev p d Hf) as (_ & _ & Hle & _).
  destruct (drain_loop_quiet fuel p (set_is_draining true d) w1)
    as (w' & d' & Hrun & Hready & Hsh' & Hf' & Hz & Hrd & Hqf);
    try assumption.
  - split; [assumption|]. rewrite Hsh. assumption.
  - reflexivity.
  - simpl. unfold g_queue_depth in Hle. lia.
  - exists w', d'. split; [exact Hrun|]. split; [assumption|].
    split; [congruence|]. split; [assumption|]. split; [assumption|].
    split; assumption.
Qed.

(** The shutdown loop: every device is drained without a new read, then
    unregistered, in queue order. *)
Lemma shutdown_quiet (fuel : nat) :
  (4 <= fuel)%nat ->
  forall ps w,
    map fst (g_devs w) = ps ->
    drain_ready w ->
    exists w',
      foreach ps (fun p => drain_io env fuel p ;; unregister_dev p) w
      = Done tt w' /\
      g_devs w' = [] /\ Inv w' /\
      reads w' = reads w /\
      qpair_frees w' = qpair_frees w ++ map snd (shape (g_devs w)).
Proof.
  intros Hfuel. induction ps as [|p ps IH]; intros w Hps Hready.
  - exists w. cbn [foreach]. unfold ret.
    assert (Hg : g_devs w = [])
      by (destruct (g_devs w); [reflexivity|discriminate]).
    split; [reflexivity|]. split; [exact Hg|]. split; [apply Hready|].
    split; [reflexivity|]. rewrite Hg. simpl. rewrite app_nil_r. reflexivity.
  - destruct (map_fst_cons_find p ps _ Hps) as ((d & Hf) & _).
    destruct (drain_io_quiet fuel p d w Hready Hf Hfuel)
      as (w1 & d1 & Hrun & (HI1 & Hq1) & Hsh & Hf1 & Hz & Hrd1 & Hqf1).
    assert (Hps1 : map fst (g_devs w1) = p :: ps)
      by (rewrite <- shape_fst, Hsh, shape_fst; assumption).
    destruct (unregister_dev_total p d1 w1 Hf1) as (w2 & Hun & Hg2).
    destruct (unregister_dev_effect p w1 w2 Hun)
      as (dx & Hfx & _ & Hqf2 & _).
    rewrite Hf1 in Hfx. injection Hfx as <-.
    destruct (map_fst_cons_find p ps _ Hps1) as (_ & Hrem).
    destruct (IH w2) as (w' & Hrun' & Hempty & HI' & Hrd' & Hqf').
    + rewrite Hg2. assumption.
    + split.
      * eapply unregister_dev_Inv; [|exact Hun]. split; [assumption|eauto].
      * rewrite Hg2. apply NoDup_snd_shape_remove. assumption.
    + exists w'. split; [|split; [assumption|split; [assumption|split]]].
      * cbn [foreach]. unfold bind at 1. unfold bind at 1.
        rewrite Hrun, Hun. exact Hrun'.
      * rewrite Hrd', (unregister_dev_reads p w1 w2 Hun). exact Hrd1.
      * rewrite Hqf', Hqf2, Hqf1, Hg2, <- Hsh,
          (shape_head p ps d1 (g_devs w1) Hps1 Hf1).
        simpl. rewrite <- app_assoc. reflexivity.
Qed.

End ShutdownQuiet.



